(** * Style_Transfer.ipynb: the losses and the optimisation loop of [stylize]

    A shallow embedding of the notebook's numerical core, [gram_matrix],
    [get_features] and [stylize], and the properties its specification
    states about them.

    Conventions of the model.
    - A torch tensor is a shape together with its contiguous row-major
      buffer.  Entries are exact rationals ([Q]): rounding, overflow and
      the non-finite values of IEEE arithmetic are outside the model, and
      results on scalars are stated up to [==].  A division by zero, which
      torch answers with [inf] or [nan], is the total division of [Q] in
      the model; the theorems about the losses assume that the divisors
      are not zero.
    - Python [dict]s are association lists in insertion order.
    - Exceptions are values of [exn]; library calls whose body is not part
      of the notebook (image loading, the layers of the network, autograd,
      Adam, the random generator, image export) are parameters of the
      model or logged events. *)

From Stdlib Require Import String List ZArith QArith Qabs Qminmax Lia Bool Arith PeanoNat.
From Stdlib Require Import Setoid Morphisms.
Import ListNotations.

Set Implicit Arguments.

(** ** Exceptions and fallible results *)

Inductive exn : Type :=
| ValueError (msg : string)
| RuntimeError (msg : string)
| KeyError (key : string)
| IndexError (msg : string)
| ZeroDivisionError
| UnboundLocalError (name : string).

Inductive res (A : Type) : Type :=
| Ok (a : A)
| Raise (e : exn).
Arguments Ok {A} a.
Arguments Raise {A} e.

Definition rbind {A B} (r : res A) (k : A -> res B) : res B :=
  match r with
  | Ok a => k a
  | Raise e => Raise e
  end.

Declare Scope res_scope.
Delimit Scope res_scope with res.
Notation "x <~ r ;; k" := (rbind r (fun x => k))
  (at level 61, r at next level, right associativity) : res_scope.

(** ** Sums of rationals *)

Definition sumQ (l : list Q) : Q := fold_right Qplus 0 l.

(** [sum_{k in l} f k] *)
Definition bigsum {A} (l : list A) (f : A -> Q) : Q := sumQ (map f l).

Definition Qsqr (x : Q) : Q := x * x.

Definition Qnat (n : nat) : Q := inject_Z (Z.of_nat n).

(** ** Tensors *)

Module Torch.

Record tensor : Type := mkTensor { shape : list nat; data : list Q }.

Definition numel (s : list nat) : nat := fold_right Nat.mul 1%nat s.

(** A tensor is well formed when its buffer has as many entries as its
    shape announces. *)
Definition wf (T : tensor) : Prop := length (data T) = numel (shape T).

(** Entry [k] of the buffer. *)
Definition flat (T : tensor) (k : nat) : Q := nth k (data T) 0.

(** [T[i, j]] of a 2-D tensor and [T[n, c, y, x]] of a 4-D tensor,
    row-major. *)
Definition at2 (T : tensor) (i j : nat) : Q :=
  match shape T with
  | [_; c] => flat T (i * c + j)
  | _ => 0
  end.

Definition at4 (T : tensor) (n c y x : nat) : Q :=
  match shape T with
  | [_; C; H; W] => flat T (((n * C + c) * H + y) * W + x)
  | _ => 0
  end.

(** A buffer laid out from an index function: [rows] rows of [cols]
    entries. *)
Definition grid (rows cols : nat) (f : nat -> nat -> Q) : list Q :=
  flat_map (fun i => map (f i) (seq 0 cols)) (seq 0 rows).

(** [tensor.view(s)]: the same buffer under another shape; torch raises
    when the sizes disagree. *)
Definition view (T : tensor) (s : list nat) : res tensor :=
  if numel s =? numel (shape T)
  then Ok (mkTensor s (data T))
  else Raise (RuntimeError "shape is invalid for input size").

(** [tensor.t()]: transpose of a 2-D tensor. *)
Definition t (T : tensor) : res tensor :=
  match shape T with
  | [r; c] => Ok (mkTensor [c; r] (grid c r (fun j i => at2 T i j)))
  | _ => Raise (RuntimeError "t() expects a tensor with <= 2 dimensions")
  end.

(** [torch.mm(A, B)]. *)
Definition mm (A B : tensor) : res tensor :=
  match shape A, shape B with
  | [n; m], [m'; p] =>
      if m =? m'
      then Ok (mkTensor [n; p]
                 (grid n p (fun i j =>
                    bigsum (seq 0 m) (fun k => at2 A i k * at2 B k j))))
      else Raise (RuntimeError "mat1 and mat2 shapes cannot be multiplied")
  | _, _ => Raise (RuntimeError "mm expects 2-D tensors")
  end.

(** Entrywise [A - B] of tensors of one shape.  (Broadcasting of unequal
    shapes is not modelled: [stylize] only subtracts tensors of equal
    shape.) *)
Definition sub (A B : tensor) : res tensor :=
  if list_eq_dec Nat.eq_dec (shape A) (shape B)
  then Ok (mkTensor (shape A)
             (map (fun p => fst p - snd p) (combine (data A) (data B))))
  else Raise (RuntimeError "the size of tensor a must match the size of tensor b").

(** Entrywise [A + B], as autograd accumulates a gradient into [.grad]
    (both of the shape of the leaf). *)
Definition add (A B : tensor) : tensor :=
  mkTensor (shape A) (map (fun p => fst p + snd p) (combine (data A) (data B))).

(** [T ** 2], [torch.abs(T)], [T.sum()], [torch.mean(T)]. *)
Definition sqr (T : tensor) : tensor := mkTensor (shape T) (map Qsqr (data T)).
Definition abs (T : tensor) : tensor := mkTensor (shape T) (map Qabs (data T)).
Definition sum (T : tensor) : Q := sumQ (data T).
Definition mean (T : tensor) : Q := sum T / Qnat (numel (shape T)).

(** Bounds of a Python slice [lo:hi] on a dimension of length [len]:
    negative indices count from the end, and both ends are clamped. *)
Definition clamp_index (len : nat) (i : Z) : nat :=
  let l := Z.of_nat len in
  Z.to_nat (Z.max 0 (Z.min l (if (i <? 0)%Z then (i + l)%Z else i))).

Definition slice_bounds (len : nat) (lo hi : option Z) : nat * nat :=
  let a := match lo with Some i => clamp_index len i | None => 0%nat end in
  let b := match hi with Some i => clamp_index len i | None => len end in
  (a, (b - a)%nat).

(** A 4-D buffer laid out from an index function. *)
Definition build4 (B C H W : nat) (f : nat -> nat -> nat -> nat -> Q) : list Q :=
  flat_map (fun n =>
    flat_map (fun c =>
      flat_map (fun y => map (f n c y) (seq 0 W)) (seq 0 H))
      (seq 0 C))
    (seq 0 B).

(** [T[:, :, lo:hi, :]] and [T[:, :, :, lo:hi]] of a 4-D tensor. *)
Definition slice_h (T : tensor) (lo hi : option Z) : res tensor :=
  match shape T with
  | [B; C; H; W] =>
      let '(a, len) := slice_bounds H lo hi in
      Ok (mkTensor [B; C; len; W]
            (build4 B C len W (fun n c y x => at4 T n c (a + y) x)))
  | _ => Raise (IndexError "too many indices for tensor")
  end.

Definition slice_w (T : tensor) (lo hi : option Z) : res tensor :=
  match shape T with
  | [B; C; H; W] =>
      let '(a, len) := slice_bounds W lo hi in
      Ok (mkTensor [B; C; H; len]
            (build4 B C H len (fun n c y x => at4 T n c y (a + x))))
  | _ => Raise (IndexError "too many indices for tensor")
  end.

(** [T.view(-1, h, w)]: the leading dimension is inferred. *)
Definition view_planes (T : tensor) (h w : nat) : res tensor :=
  let n := numel (shape T) in
  if (h * w =? 0)%nat
  then Raise (RuntimeError "cannot infer the unspecified dimension")
  else if (n mod (h * w) =? 0)%nat
       then Ok (mkTensor [(n / (h * w))%nat; h; w] (data T))
       else Raise (RuntimeError "shape is invalid for input size").

(** [T[c, :, :]] of a 3-D tensor, and the assignment [T[c, :, :] = vals]. *)
Definition plane (T : tensor) (c : nat) : res (list Q) :=
  match shape T with
  | [C; H; W] =>
      if (c <? C)%nat
      then Ok (firstn (H * W) (skipn (c * (H * W)) (data T)))
      else Raise (IndexError "index out of bounds for dimension 0")
  | _ => Raise (IndexError "too many indices for tensor")
  end.

Definition set_plane (T : tensor) (c : nat) (vals : list Q) : res tensor :=
  match shape T with
  | [C; H; W] =>
      if (c <? C)%nat
      then Ok (mkTensor (shape T)
                 (firstn (c * (H * W)) (data T) ++ vals ++
                  skipn ((c + 1) * (H * W)) (data T)))
      else Raise (IndexError "index out of bounds for dimension 0")
  | _ => Raise (IndexError "too many indices for tensor")
  end.

(** [T.clamp(0, 1)] *)
Definition clamp01 (T : tensor) : tensor :=
  mkTensor (shape T) (map (fun v => Qmin (Qmax v 0) 1) (data T)).

(** [T[:3, :, :]] of a 3-D tensor and [T.unsqueeze(0)]. *)
Definition take3 (T : tensor) : res tensor :=
  match shape T with
  | [C; H; W] =>
      Ok (mkTensor [Nat.min 3 C; H; W] (firstn (Nat.min 3 C * (H * W)) (data T)))
  | _ => Raise (IndexError "too many indices for tensor")
  end.

Definition unsqueeze0 (T : tensor) : tensor := mkTensor (1%nat :: shape T) (data T).

(** [torch.full(s, v)] *)
Definition full (s : list nat) (v : Q) : tensor := mkTensor s (repeat v (numel s)).

(** [tensor.size()[k]]. *)
Definition size_at (T : tensor) (k : nat) : res nat :=
  match nth_error (shape T) k with
  | Some n => Ok n
  | None => Raise (IndexError "tuple index out of range")
  end.

End Torch.

Import Torch.
Local Open Scope res_scope.

(** ** Python dictionaries *)

Definition dict (V : Type) : Type := list (string * V).

Fixpoint dict_get {V} (d : dict V) (k : string) : option V :=
  match d with
  | [] => None
  | (k', v) :: d' => if String.eqb k k' then Some v else dict_get d' k
  end.

(** [d[k] = v]: an existing key keeps its place. *)
Fixpoint dict_set {V} (d : dict V) (k : string) (v : V) : dict V :=
  match d with
  | [] => [(k, v)]
  | (k', v') :: d' =>
      if String.eqb k k' then (k', v) :: d' else (k', v') :: dict_set d' k v
  end.

(** [d[k]], raising [KeyError]. *)
Definition dict_lookup {V} (d : dict V) (k : string) : res V :=
  match dict_get d k with
  | Some v => Ok v
  | None => Raise (KeyError k)
  end.

Definition keys {V} (d : dict V) : list string := map fst d.

(** ** The network *)

(** A parameter tensor of a module, or a leaf tensor created with
    [requires_grad]: its values, the flag and the accumulated gradient. *)
Record param : Type := mkParam {
  p_data : tensor;
  requires_grad : bool;
  p_grad : option tensor
}.

(** A module of [vgg]: its parameters and what it computes from their
    values and its input. *)
Record layer : Type := mkLayer {
  l_params : list param;
  l_apply : list tensor -> tensor -> tensor
}.

(** [model._modules]: the modules by name, in order. *)
Definition network : Type := list (string * layer).

(** [layer(x)] *)
Definition layer_call (l : layer) (x : tensor) : tensor :=
  l_apply l (map p_data (l_params l)) x.

(** The values of all parameters of the network. *)
Definition weights (net : network) : list (list tensor) :=
  map (fun nl => map p_data (l_params (snd nl))) net.

(** [param.requires_grad_(False)] *)
Definition requires_grad_ (b : bool) (p : param) : param :=
  mkParam (p_data p) b (p_grad p).

(** [for param in vgg.parameters(): param.requires_grad_(False)] *)
Definition freeze (net : network) : network :=
  map (fun nl =>
         (fst nl, mkLayer (map (requires_grad_ false) (l_params (snd nl)))
                          (l_apply (snd nl))))
      net.

(** [vgg.parameters()] *)
Definition parameters (net : network) : list param :=
  flat_map (fun nl => l_params (snd nl)) net.

(** ** [get_features] *)

Definition default_layers : dict string :=
  [("0", "conv1_1"); ("5", "conv2_1"); ("10", "conv3_1"); ("19", "conv4_1");
   ("12", "conv3_2"); ("21", "conv4_2"); ("28", "conv5_1")]%string.

Fixpoint get_features_from (modules : network) (layers : dict string)
  (x : tensor) (features : dict tensor) : dict tensor :=
  match modules with
  | [] => features
  | (name, l) :: rest =>
      let x := layer_call l x in
      let features :=
        match dict_get layers name with
        | Some key => dict_set features key x
        | None => features
        end in
      get_features_from rest layers x features
  end.

Definition get_features (image : tensor) (model : network)
  (layers : option (dict string)) : dict tensor :=
  let layers := match layers with None => default_layers | Some l => l end in
  get_features_from model layers image [].

(** ** [gram_matrix] *)

Definition gram_matrix (tensor : tensor) : res Torch.tensor :=
  match shape tensor with
  | [batch_size; d; h; w] =>
      tensor <~ view tensor [d; (h * w)%nat] ;;
      transposed <~ t tensor ;;
      mm tensor transposed
  | _ => Raise (ValueError "wrong number of values to unpack")
  end.

(** ** The three losses of an iteration of [stylize] *)

(** [torch.mean((a - b) ** 2)] *)
Definition mse (a b : tensor) : res Q :=
  diff <~ sub a b ;; Ok (mean (sqr diff)).

Fixpoint content_loss_from (ks : list string) (content_layers_weights : dict Q)
  (target_features content_features : dict tensor) (content_loss : Q) : res Q :=
  match ks with
  | [] => Ok content_loss
  | layer :: ks' =>
      wl <~ dict_lookup content_layers_weights layer ;;
      tf <~ dict_lookup target_features layer ;;
      cf <~ dict_lookup content_features layer ;;
      m <~ mse tf cf ;;
      content_loss_from ks' content_layers_weights target_features
        content_features (content_loss + wl * m)
  end.

Definition content_loss_of (content_layers_weights : dict Q)
  (target_features content_features : dict tensor) : res Q :=
  content_loss_from (keys content_layers_weights) content_layers_weights
    target_features content_features 0.

Definition unpack4 (s : list nat) : res (nat * nat * nat * nat) :=
  match s with
  | [b; d; h; w] => Ok (b, d, h, w)
  | _ => Raise (ValueError "wrong number of values to unpack")
  end.

Fixpoint style_loss_from (ks : list string) (style_layers_weights : dict Q)
  (target_features style_gms : dict tensor) (style_loss : Q) : res Q :=
  match ks with
  | [] => Ok style_loss
  | layer :: ks' =>
      target_features_layer <~ dict_lookup target_features layer ;;
      bdhw <~ unpack4 (shape target_features_layer) ;;
      let '(batch_size, d, h, w) := bdhw in
      target_gram <~ gram_matrix target_features_layer ;;
      style_gram <~ dict_lookup style_gms layer ;;
      wl <~ dict_lookup style_layers_weights layer ;;
      m <~ mse target_gram style_gram ;;
      let layer_style_loss := wl * m in
      style_loss_from ks' style_layers_weights target_features style_gms
        (style_loss + layer_style_loss / Qnat (d * h * w))
  end.

Definition style_loss_of (style_layers_weights : dict Q)
  (target_features style_gms : dict tensor) : res Q :=
  style_loss_from (keys style_layers_weights) style_layers_weights
    target_features style_gms 0.

(** Total-variation denoising term; also returns [h_x] and [w_x], which
    the export step reads after the loop. *)
Definition tv_loss_of (target : tensor) : res (Q * nat * nat) :=
  batch_size <~ size_at target 0 ;;
  h_x <~ size_at target 2 ;;
  w_x <~ size_at target 3 ;;
  let count_h := ((Z.of_nat h_x - 1) * Z.of_nat w_x)%Z in
  let count_w := (Z.of_nat h_x * (Z.of_nat w_x - 1))%Z in
  a1 <~ slice_h target (Some 1%Z) None ;;
  a0 <~ slice_h target None (Some (Z.of_nat h_x - 1)%Z) ;;
  dh <~ sub a1 a0 ;;
  let h_tv := sum (abs dh) in
  b1 <~ slice_w target (Some 1%Z) None ;;
  b0 <~ slice_w target None (Some (Z.of_nat w_x - 1)%Z) ;;
  dw <~ sub b1 b0 ;;
  let w_tv := sum (abs dw) in
  let tv_loss :=
    2 * (h_tv / inject_Z count_h + w_tv / inject_Z count_w) / Qnat batch_size in
  Ok (tv_loss, h_x, w_x).

Definition total_loss_of (content_weight style_weight tv_weight : Q)
  (content_loss style_loss tv_loss : Q) : Q :=
  content_weight * content_loss + style_weight * style_loss + tv_weight * tv_loss.

(** ** What the notebook takes from its libraries *)

(** A tensor that autograd can differentiate with respect to: the target
    image, or parameter [k] of module [i] of the network. *)
Inductive ref : Type :=
| RTarget
| RWeight (i k : nat).

(** The argument of [transforms.Resize]. *)
Inductive resize_arg : Type :=
| SizeEdge (n : nat)
| SizeExact (hw : list nat).

Class Externals : Type := {
  (** PIL images; [Image.open(path).convert('RGB')], read from a file or
      from the body of an HTTP response, and [image.size] *)
  pil_image : Type;
  image_open : string -> pil_image;
  image_fetch : string -> pil_image;
  image_size : pil_image -> nat * nat;
  (** [Compose([Resize(size), ToTensor(), Normalize(mean, std)])] *)
  in_transform : resize_arg -> pil_image -> tensor;
  (** the [k]-th draw of torch's random generator *)
  rand_entry : nat -> Q;
  (** the gradient, with respect to one leaf, of a scalar function of the
      network and the target, at a point *)
  grad_of : (network * tensor -> Q) -> network * tensor -> ref -> tensor;
  (** the state Adam keeps for one tensor, and its update of the tensor
      from the learning rate and the gradient *)
  adam_slot : Type;
  adam_init : adam_slot;
  adam_update : Q -> adam_slot -> tensor -> tensor -> tensor * adam_slot;
  (** [tensor.new] of a size: storage that is not initialised *)
  uninitialized : list nat -> tensor;
  (** [transforms.ToPILImage("RGB")(image).save(path)], and the drawing
      and [plt.savefig(path)] of the comparison of output, content and
      style: what the calls return or raise *)
  save_image : string -> tensor -> res unit;
  save_figure : string -> tensor -> tensor -> tensor -> res unit
}.

(** ** The arguments of [stylize] *)

Record args : Type := mkArgs {
  content_path : string;
  style_path : string;
  out_path : string;
  target_init : string;
  out_format : string;
  lr : Q;
  show_every : Z;
  steps : Z;
  style_layer_weight_exp : Q;
  content_weight_blend : Q;
  content_weight : Q;
  style_weight : Q;
  tv_weight : Q
}.

(** The defaults of the signature. *)
Definition default_args (content_path style_path out_path : string) : args :=
  mkArgs content_path style_path out_path "clone" "image-only"
    (3 # 100) 500 2000 1 1 (75 # 10) 100 200.

(** ** Observable events and the state of a run *)

Inductive banner : Type :=
| ImageLoadingCompleted
| TargetDefinitionCompleted (mode : string)
| OptimizerAdam (lr : Q)
| FeatureExtractionCompleted
| InitialSetting (content_weight style_weight tv_weight : Q)
| InitialSettingReconstructingContent (content_weight style_weight tv_weight : Q)
| IntermediateSettingConstructingStyle (content_weight style_weight tv_weight : Q)
| LossReport (total_loss content_loss style_loss tv_loss : Q)
| Progress (ii steps : Z).

(** The log of a run.  [EPrint], [EImshow], [ESaveImage] and [ESaveFigure]
    are the outputs of the program; the other events mark the steps of the
    computation, in the order in which the source performs them. *)
Inductive event : Type :=
| EPrint (b : banner)
| ELoadImage (path : string)
| EForward (image : tensor)
| ELoss (ii : Z) (content_weight style_weight tv_weight : Q)
        (content_loss style_loss tv_loss total_loss : Q)
| EZeroGrad
| EBackward
| EStep
| EImshow (image : tensor)
| ESaveImage (path : string) (image : tensor)
| ESaveFigure (path : string) (output content style : tensor).

(** The global [vgg], the position of the random generator and the log. *)
Record world : Type := mkWorld {
  vgg : network;
  rng : nat;
  log : list event
}.

(** A computation: it ends with a value or an exception, and the world it
    leaves behind is known in both cases. *)
Definition M (A : Type) : Type := world -> res A * world.

Definition ret {A} (a : A) : M A := fun w => (Ok a, w).

Definition bind {A B} (m : M A) (k : A -> M B) : M B :=
  fun w =>
    match m w with
    | (Ok a, w') => k a w'
    | (Raise e, w') => (Raise e, w')
    end.

Definition raise {A} (e : exn) : M A := fun w => (Raise e, w).

Definition lift {A} (r : res A) : M A := fun w => (r, w).

Definition emit (e : event) : M unit :=
  fun w => (Ok tt, mkWorld (vgg w) (rng w) (log w ++ [e])).

Definition print (b : banner) : M unit := emit (EPrint b).

Definition get_vgg : M network := fun w => (Ok (vgg w), w).

Definition set_vgg (net : network) : M unit :=
  fun w => (Ok tt, mkWorld net (rng w) (log w)).

Declare Scope m_scope.
Delimit Scope m_scope with M.
Notation "x <- m ;; k" := (bind m (fun x => k))
  (at level 61, m at next level, right associativity) : m_scope.
Notation "m ;;; k" := (bind m (fun _ => k))
  (at level 61, right associativity) : m_scope.

(** [for i in l: s = body(i, s)] *)
Fixpoint for_each {S} (body : Z -> S -> M S) (l : list Z) (s : S) : M S :=
  match l with
  | [] => ret s
  | i :: l' => bind (body i s) (for_each body l')
  end.

(** [range(lo, hi)] *)
Definition range (lo hi : Z) : list Z :=
  map (fun k => (lo + Z.of_nat k)%Z) (seq 0 (Z.to_nat (hi - lo))).

(** ** [load_image] *)

(** [needle in hay] on strings *)
Definition contains (needle hay : string) : bool :=
  match index 0 needle hay with
  | Some _ => true
  | None => false
  end.

(** [s[-2:]] on a shape *)
Definition last2 (s : list nat) : list nat := skipn (length s - 2) s.

Section Notebook.

Context {ext : Externals}.
Local Open Scope m_scope.

Definition load_image (img_path : string) (max_size : nat)
  (shape : option (list nat)) : M tensor :=
  emit (ELoadImage img_path) ;;;
  let image :=
    if contains "http"%string img_path then image_fetch img_path
    else image_open img_path in
  let size :=
    if (max_size <? Nat.max (fst (image_size image)) (snd (image_size image)))%nat
    then SizeEdge max_size
    else SizeEdge (Nat.max (fst (image_size image)) (snd (image_size image))) in
  let size := match shape with Some s => SizeExact s | None => size end in
  image <- lift (take3 (in_transform size image)) ;;
  ret (unsqueeze0 image).

(** ** Autograd and the optimiser *)

Record optimizer : Type := mkOptimizer {
  opt_params : list ref;
  opt_lr : Q;
  opt_state : list adam_slot
}.

(** [optim.Adam(params, lr = lr)]: the constructor refuses a negative
    learning rate.  (Its other arguments keep their defaults, which it
    accepts.) *)
Definition Adam (params : list ref) (lr : Q) : res optimizer :=
  if Qle_bool 0 lr
  then Ok (mkOptimizer params lr (map (fun _ => adam_init) params))
  else Raise (ValueError "Invalid learning rate").

Definition update_nth {A} (n : nat) (f : A -> A) (l : list A) : list A :=
  map (fun p => if (fst p =? n)%nat then f (snd p) else snd p)
      (combine (seq 0 (length l)) l).

Definition mapi {A B} (f : nat -> A -> B) (l : list A) : list B :=
  map (fun p => f (fst p) (snd p)) (combine (seq 0 (length l)) l).

Definition read_ref (net : network) (target : param) (r : ref) : option param :=
  match r with
  | RTarget => Some target
  | RWeight i k =>
      match nth_error net i with
      | Some nl => nth_error (l_params (snd nl)) k
      | None => None
      end
  end.

Definition update_ref (f : param -> param) (r : ref)
  (st : network * param) : network * param :=
  match r with
  | RTarget => (fst st, f (snd st))
  | RWeight i k =>
      (update_nth i
         (fun nl => (fst nl, mkLayer (update_nth k f (l_params (snd nl)))
                                     (l_apply (snd nl))))
         (fst st),
       snd st)
  end.

(** [optimizer.zero_grad()]: the gradients of the optimiser's tensors are
    cleared.  (Older releases of torch zero the buffer in place instead;
    the [backward] that follows cannot tell the difference.) *)
Definition zero_grad (o : optimizer) (st : network * param) : network * param :=
  fold_left
    (fun st r => update_ref (fun p => mkParam (p_data p) (requires_grad p) None) r st)
    (opt_params o) st.

(** What [backward] does to one leaf: a leaf that requires a gradient
    accumulates it, any other leaf is left alone. *)
Definition accumulate (g : tensor) (p : param) : param :=
  if requires_grad p
  then mkParam (p_data p) true
         (Some (match p_grad p with Some g0 => add g0 g | None => g end))
  else p.

(** [total_loss.backward()]: the loss depends on the target and, through
    the forward pass, on every parameter of the network. *)
Definition backward (loss : network * tensor -> Q)
  (st : network * param) : network * param :=
  let point := (fst st, p_data (snd st)) in
  (mapi (fun i nl =>
           (fst nl,
            mkLayer (mapi (fun k p => accumulate (grad_of loss point (RWeight i k)) p)
                          (l_params (snd nl)))
                    (l_apply (snd nl))))
        (fst st),
   accumulate (grad_of loss point RTarget) (snd st)).

(** [optimizer.step()]: every tensor of the optimiser that has a gradient
    is moved by Adam. *)
Definition step_one (lr : Q) (acc : network * param * list adam_slot)
  (rs : ref * adam_slot) : network * param * list adam_slot :=
  let '(st, slots) := acc in
  match read_ref (fst st) (snd st) (fst rs) with
  | Some p =>
      match p_grad p with
      | Some g =>
          let '(d, slot) := adam_update lr (snd rs) (p_data p) g in
          (update_ref (fun p => mkParam d (requires_grad p) (p_grad p)) (fst rs) st,
           slots ++ [slot])
      | None => (st, slots ++ [snd rs])
      end
  | None => (st, slots ++ [snd rs])
  end.

Definition step (o : optimizer) (st : network * param)
  : network * param * optimizer :=
  let '(st', slots) :=
    fold_left (step_one (opt_lr o)) (combine (opt_params o) (opt_state o)) (st, []) in
  (st', mkOptimizer (opt_params o) (opt_lr o) slots).

(** ** [stylize] *)

(** What [stylize] computes before the loop and only reads afterwards. *)
Record setup : Type := mkSetup {
  content : tensor;
  style : tensor;
  content_features : dict tensor;
  style_gms : dict tensor;
  style_layers_weights : dict Q;
  content_layers_weights : dict Q
}.

(** The variables the loop assigns. *)
Record locals : Type := mkLocals {
  target : param;
  optimizer_v : optimizer;
  content_weight_v : Q;
  style_weight_v : Q;
  tv_weight_v : Q;
  h_x : option nat;
  w_x : option nat
}.

(** The values an iteration computes from the network and the target. *)
Record losses : Type := mkLosses {
  content_loss : Q;
  style_loss : Q;
  tv_loss : Q;
  total_loss : Q;
  l_h_x : nat;
  l_w_x : nat
}.

Definition str_eq (a b : string) : bool := String.eqb a b.

(** [target = ...] by [target_init]; [RTarget] names the result. *)
Definition init_target (a : args) (content : tensor) : M param :=
  if str_eq (target_init a) "clone" then
    ret (mkParam content true None)
  else if str_eq (target_init a) "blank" then
    ret (mkParam (full (shape content) (1 # 2)) true None)
  else if str_eq (target_init a) "random" then
    fun w =>
      let n := numel (shape content) in
      (Ok (mkParam (mkTensor (shape content) (map rand_entry (seq (rng w) n)))
                   true None),
       mkWorld (vgg w) (rng w + n) (log w))
  else
    raise (ValueError ("Unexpected Initialization Method" ++ target_init a)).

(** [{layer: gram_matrix(style_features[layer]) for layer in style_features}] *)
Fixpoint gram_all (ks : list string) (style_features : dict tensor)
  (acc : dict tensor) : res (dict tensor) :=
  match ks with
  | [] => Ok acc
  | layer :: ks' =>
      f <~ dict_lookup style_features layer ;;
      g <~ gram_matrix f ;;
      gram_all ks' style_features (dict_set acc layer g)
  end%res.

Definition style_layers : list string :=
  ["conv1_1"; "conv2_1"; "conv3_1"; "conv4_1"; "conv5_1"]%string.

Fixpoint style_weights_from (ls : list string) (style_layer_weight_exp : Q)
  (layer_weight : Q) (style_layers_weights : dict Q) : dict Q :=
  match ls with
  | [] => style_layers_weights
  | style_layer :: ls' =>
      style_weights_from ls' style_layer_weight_exp
        (layer_weight * style_layer_weight_exp)
        (dict_set style_layers_weights style_layer layer_weight)
  end.

(** [content_layers_weights]: the blend of the two content layers. *)
Definition content_weights (content_weight_blend : Q) : dict Q :=
  dict_set (dict_set [] "conv3_2" content_weight_blend)
           "conv4_2" (1 - content_weight_blend).

Definition compute_losses (su : setup) (content_weight style_weight tv_weight : Q)
  (net : network) (target : tensor) : res losses :=
  (let target_features := get_features target net None in
   content_loss <~ content_loss_of (content_layers_weights su) target_features
                     (content_features su) ;;
   style_loss <~ style_loss_of (style_layers_weights su) target_features
                   (style_gms su) ;;
   tv <~ tv_loss_of target ;;
   let '(tv_loss, h_x, w_x) := tv in
   Ok (mkLosses content_loss style_loss tv_loss
         (total_loss_of content_weight style_weight tv_weight
            content_loss style_loss tv_loss)
         h_x w_x))%res.

(** The total loss as a function of the leaves, which is what [backward]
    differentiates. *)
Definition total_loss_fn (su : setup) (content_weight style_weight tv_weight : Q)
  (point : network * tensor) : Q :=
  match compute_losses su content_weight style_weight tv_weight
          (fst point) (snd point) with
  | Ok l => total_loss l
  | Raise _ => 0
  end.

Definition blank_or_random (a : args) : bool :=
  str_eq (target_init a) "blank" || str_eq (target_init a) "random".

(** The weights in force in iteration [ii].  The source compares [ii]
    with the float [steps * 0.2]; on integers below 2^53 that is the
    comparison of [5 * ii] with [steps]. *)
Definition pick_weights (a : args) (ii : Z) (s : locals) : Q * Q * Q :=
  if blank_or_random a then
    if (5 * ii <=? steps a)%Z then (1, 1 # 100, 2) else (10, 100, 20)
  else (content_weight_v s, style_weight_v s, tv_weight_v s).

Definition overview (a : args) (ii : Z) (cw sw tw : Q) : M unit :=
  if (ii =? 1)%Z then
    if str_eq (target_init a) "clone"
    then print (InitialSetting cw sw tw)
    else print (InitialSettingReconstructingContent cw sw tw)
  else if (5 * ii =? steps a)%Z then
    if str_eq (target_init a) "random" || str_eq (target_init a) "blank"
    then print (IntermediateSettingConstructingStyle cw sw tw)
    else ret tt
  else ret tt.

(** [if ii % show_every == 0: ...]; the display of the image through
    [im_convert] is logged, not computed. *)
Definition show (a : args) (ii : Z) (l : losses) (target : tensor) : M unit :=
  if (show_every a =? 0)%Z then raise ZeroDivisionError
  else if (ii mod show_every a =? 0)%Z then
    print (LossReport (total_loss l) (content_loss l) (style_loss l) (tv_loss l)) ;;;
    print (Progress ii (steps a)) ;;;
    emit (EImshow target)
  else ret tt.

(** The body of [for ii in tqdm.tqdm(range(1, steps + 1))]. *)
Definition iteration (a : args) (su : setup) (ii : Z) (s : locals) : M locals :=
  let '(cw, sw, tw) := pick_weights a ii s in
  overview a ii cw sw tw ;;;
  net <- get_vgg ;;
  emit (EForward (p_data (target s))) ;;;
  l <- lift (compute_losses su cw sw tw net (p_data (target s))) ;;
  emit (ELoss ii cw sw tw (content_loss l) (style_loss l) (tv_loss l) (total_loss l)) ;;;
  let st := zero_grad (optimizer_v s) (net, target s) in
  emit EZeroGrad ;;;
  let st := backward (total_loss_fn su cw sw tw) st in
  emit EBackward ;;;
  let '(st, o) := step (optimizer_v s) st in
  set_vgg (fst st) ;;;
  emit EStep ;;;
  show a ii l (p_data (snd st)) ;;;
  ret (mkLocals (snd st) o cw sw tw (Some (l_h_x l)) (Some (l_w_x l))).

(** Reverse normalisation of the three colour planes. *)
Definition unnormalize (target : tensor) : res tensor :=
  (let target_out := uninitialized (shape target) in
   p0 <~ plane target 0 ;;
   target_out <~ set_plane target_out 0
                   (map (fun v => v * (229 # 1000) + (485 # 1000)) p0) ;;
   p1 <~ plane target 1 ;;
   target_out <~ set_plane target_out 1
                   (map (fun v => v * (224 # 1000) + (456 # 1000)) p1) ;;
   p2 <~ plane target 2 ;;
   target_out <~ set_plane target_out 2
                   (map (fun v => v * (225 # 1000) + (406 # 1000)) p2) ;;
   Ok (clamp01 target_out))%res.

Definition read_local (name : string) (v : option nat) : M nat :=
  match v with
  | Some n => ret n
  | None => raise (UnboundLocalError name)
  end.

(** "exporting final result"; the calls that save are logged, and end
    the run as the library ends them. *)
Definition export (a : args) (su : setup) (s : locals) : M unit :=
  pair <- (if str_eq (target_init a) "clone" then
             h <- read_local "h_x" (h_x s) ;;
             w <- read_local "w_x" (w_x s) ;;
             target <- lift (view_planes (p_data (target s)) h w) ;;
             target_out <- lift (unnormalize target) ;;
             ret (target, target_out)
           else ret (p_data (target s), p_data (target s))) ;;
  let '(target, target_out) := pair in
  if str_eq (out_format a) "image-only" then
    emit (ESaveImage (out_path a) target_out) ;;;
    lift (save_image (out_path a) target_out)
  else if str_eq (out_format a) "comparison" then
    emit (ESaveFigure (out_path a) target (content su) (style su)) ;;;
    lift (save_figure (out_path a) target (content su) (style su))
  else
    raise (ValueError ("Unexpected Output Format" ++ out_format a)).

(** Everything before the loop. *)
Definition prologue (a : args) : M (setup * locals) :=
  content <- load_image (content_path a) 400 None ;;
  style <- load_image (style_path a) 400 (Some (last2 (shape content))) ;;
  print ImageLoadingCompleted ;;;
  target <- init_target a content ;;
  print (TargetDefinitionCompleted (target_init a)) ;;;
  let lr := if str_eq (target_init a) "clone" then lr a
            else Qmin (lr a * 10) (2 # 10) in
  optimizer <- lift (Adam [RTarget] lr) ;;
  print (OptimizerAdam lr) ;;;
  net <- get_vgg ;;
  emit (EForward content) ;;;
  let content_features := get_features content net None in
  emit (EForward style) ;;;
  let style_features := get_features style net None in
  style_gms <- lift (gram_all (keys style_features) style_features []) ;;
  print FeatureExtractionCompleted ;;;
  let style_layers_weights :=
    style_weights_from style_layers (style_layer_weight_exp a) 1 [] in
  let content_layers_weights := content_weights (content_weight_blend a) in
  ret (mkSetup content style content_features style_gms
         style_layers_weights content_layers_weights,
       mkLocals target optimizer (content_weight a) (style_weight a)
         (tv_weight a) None None).

(** The loop, as far as the iterations [iis]. *)
Definition loop (a : args) (su : setup) (iis : list Z) (s : locals) : M locals :=
  for_each (iteration a su) iis s.

Definition stylize (a : args) : M unit :=
  sus <- prologue a ;;
  s <- loop a (fst sus) (range 1 (steps a + 1)) (snd sus) ;;
  export a (fst sus) s.

(** [stylize] stopped after the first [k] iterations of its loop. *)
Definition run_iterations (a : args) (k : nat) : M (setup * locals) :=
  sus <- prologue a ;;
  s <- loop a (fst sus) (firstn k (range 1 (steps a + 1))) (snd sus) ;;
  ret (fst sus, s).

End Notebook.

(** ** The quantities the specification names *)

(** The flattened feature map of channel [c] of a batch of one:
    [F[0, c, y, x]] for [y < h], [x < w], row by row. *)
Definition channel_map (F : tensor) (h w c : nat) : list Q :=
  grid h w (fun y x => at4 F 0 c y x).

(** Inner product of two vectors. *)
Definition inner (u v : list Q) : Q :=
  sumQ (map (fun p => fst p * snd p) (combine u v)).

(** Entry [(i, j)] of the Gram matrix of a feature map of height [h] and
    width [w]. *)
Definition gram_entry (F : tensor) (h w i j : nat) : Q :=
  inner (channel_map F h w i) (channel_map F h w j).

(** Mean squared error of two tensors of [n] entries. *)
Definition mean_squared_error (n : nat) (a b : tensor) : Q :=
  bigsum (seq 0 n) (fun k => Qsqr (flat a k - flat b k)) / Qnat n.

(** Mean squared error between the Gram matrices of two feature maps of
    [d] channels. *)
Definition gram_mse (Ft Fs : tensor) (d h w : nat) : Q :=
  bigsum (seq 0 d) (fun i =>
    bigsum (seq 0 d) (fun j =>
      Qsqr (gram_entry Ft h w i j - gram_entry Fs h w i j)))
  / Qnat (d * d).

(** Sums of absolute differences between vertically and between
    horizontally adjacent pixels. *)
Definition vertical_variation (T : tensor) (b c h w : nat) : Q :=
  bigsum (seq 0 b) (fun n =>
    bigsum (seq 0 c) (fun ch =>
      bigsum (seq 0 (h - 1)) (fun y =>
        bigsum (seq 0 w) (fun x =>
          Qabs (at4 T n ch (S y) x - at4 T n ch y x))))).

Definition horizontal_variation (T : tensor) (b c h w : nat) : Q :=
  bigsum (seq 0 b) (fun n =>
    bigsum (seq 0 c) (fun ch =>
      bigsum (seq 0 h) (fun y =>
        bigsum (seq 0 (w - 1)) (fun x =>
          Qabs (at4 T n ch y (S x) - at4 T n ch y x))))).

(** [e ^ k] *)
Fixpoint Qpow (e : Q) (k : nat) : Q :=
  match k with
  | O => 1
  | S k' => Qpow e k' * e
  end.

(** ** The vocabulary of the properties *)

Section Vocabulary.

Context {ext : Externals}.

(** The weight of a layer, as the code reads it from the dictionary. *)
Definition weight_in (slw : dict Q) (layer : string) : Q :=
  match dict_get slw layer with Some v => v | None => 0 end.

(** A batch of one image. *)
Definition batch1 (x : tensor) : Prop :=
  exists c h w, shape x = [1; c; h; w]%nat.

(** A module maps a batch of one image to a batch of one image whose shape
    depends on the shape of the input only (as the convolutions,
    rectifiers and poolings of [vgg] do on images that are large enough
    for them). *)
Definition regular_layer (l : layer) : Prop :=
  forall x, batch1 x ->
    batch1 (layer_call l x) /\
    forall y, shape y = shape x -> shape (layer_call l y) = shape (layer_call l x).

(** Every module is regular, and the modules [get_features] looks for are
    there. *)
Definition regular (net : network) : Prop :=
  (forall nl, In nl net -> regular_layer (snd nl)) /\
  (forall name, In name (keys default_layers) -> In name (map fst net)).

(** No parameter of the network requires a gradient. *)
Definition frozen (net : network) : Prop :=
  forall p, In p (parameters net) -> requires_grad p = false.

(** Two dictionaries of features with the same keys and, key by key,
    batches of one image of the same shape. *)
Definition alike (fx fy : dict tensor) : Prop :=
  Forall2 (fun p q => fst p = fst q /\ shape (snd q) = shape (snd p) /\ batch1 (snd p))
          fx fy.

(** The layers [stylize] reads. *)
Definition feature_names : list string :=
  ["conv1_1"; "conv2_1"; "conv3_1"; "conv4_1"; "conv3_2"; "conv4_2"; "conv5_1"]%string.

(** Adam returns a tensor of the shape of the one it updates. *)
Definition adam_keeps_shape : Prop :=
  forall lr slot p g, shape (fst (adam_update lr slot p g)) = shape p.

(** The world after [evs] have been logged. *)
Definition logged (w : world) (evs : list event) : world :=
  mkWorld (vgg w) (rng w) (log w ++ evs).

(** What [overview], [show] and the rest of an iteration log. *)
Definition overview_events (a : args) (ii : Z) (cw sw tw : Q) : list event :=
  if (ii =? 1)%Z then
    [EPrint (if str_eq (target_init a) "clone"
             then InitialSetting cw sw tw
             else InitialSettingReconstructingContent cw sw tw)]
  else if (5 * ii =? steps a)%Z then
    if str_eq (target_init a) "random" || str_eq (target_init a) "blank"
    then [EPrint (IntermediateSettingConstructingStyle cw sw tw)]
    else []
  else [].

Definition show_events (a : args) (ii : Z) (l : losses) (target : tensor)
  : list event :=
  if (ii mod show_every a =? 0)%Z then
    [EPrint (LossReport (total_loss l) (content_loss l) (style_loss l) (tv_loss l));
     EPrint (Progress ii (steps a));
     EImshow target]
  else [].

Definition core_events (ii : Z) (cw sw tw : Q) (target : tensor) (l : losses)
  : list event :=
  [EForward target;
   ELoss ii cw sw tw (content_loss l) (style_loss l) (tv_loss l) (total_loss l);
   EZeroGrad; EBackward; EStep].

(** The tensors after [zero_grad], [backward] and [step]. *)
Definition updated (su : setup) (s : locals) (net : network) (cw sw tw : Q)
  : network * param * optimizer :=
  step (optimizer_v s)
    (backward (total_loss_fn su cw sw tw)
       (zero_grad (optimizer_v s) (net, target s))).

(** What [stylize] has established when the loop starts, for a content
    image of shape [(1, c, h, w)] and the network [net]. *)
Record setup_ok (a : args) (su : setup) (net : network) (c h w : nat) : Prop := {
  su_content : shape (content su) = [1; c; h; w]%nat;
  su_style : shape (style su) = [1; c; h; w]%nat;
  su_features : content_features su = get_features (content su) net None;
  su_gms : forall key, In key style_layers ->
             exists Fs Gs,
               dict_get (get_features (style su) net None) key = Some Fs /\
               gram_matrix Fs = Ok Gs /\
               dict_get (style_gms su) key = Some Gs;
  su_slw : style_layers_weights su =
           style_weights_from style_layers (style_layer_weight_exp a) 1 [];
  su_clw : content_layers_weights su = content_weights (content_weight_blend a)
}.

(** [m] leaves the network alone and only appends to the log, and every
    event it appends satisfies [P]. *)
Definition grows {A} (P : event -> Prop) (m : M A) : Prop :=
  forall w, exists evs,
    log (snd (m w)) = log w ++ evs /\ Forall P evs /\ vgg (snd (m w)) = vgg w.

(** The prologue loads, prints and runs the forward passes of the
    content and of the style image. *)
Definition prologue_event (e : event) : Prop :=
  match e with
  | EPrint _ | ELoadImage _ | EForward _ => True
  | _ => False
  end.

(** The export logs the call that saves, and nothing else. *)
Definition export_event (e : event) : Prop :=
  match e with
  | ESaveImage _ _ | ESaveFigure _ _ _ _ => True
  | _ => False
  end.

(** The landmarks of a run: a forward pass through the network, a loss
    computation, an optimiser step, a call that saves the result. *)
Inductive mark : Type := MForward | MLoss | MStep | MExport.

Definition mark_of (e : event) : list mark :=
  match e with
  | EForward _ => [MForward]
  | ELoss _ _ _ _ _ _ _ _ => [MLoss]
  | EStep => [MStep]
  | ESaveImage _ _ | ESaveFigure _ _ _ _ => [MExport]
  | _ => []
  end.

Definition marks (evs : list event) : list mark := flat_map mark_of evs.

(** The weights of iteration [ii], from the arguments alone. *)
Definition weights_in_force (a : args) (ii : Z) : Q * Q * Q :=
  if blank_or_random a then
    if (5 * ii <=? steps a)%Z then (1, 1 # 100, 2) else (10, 100, 20)
  else (content_weight a, style_weight a, tv_weight a).

(** A logged loss computation used the weights in force and combined the
    three losses with them. *)
Definition loss_event_ok (a : args) (e : event) : Prop :=
  match e with
  | ELoss ii cw sw tw cl sl tv tot =>
      (cw, sw, tw) = weights_in_force a ii /\
      tot = total_loss_of cw sw tw cl sl tv
  | _ => True
  end.

(** In a run that does not start from a blank or random image the
    variables still hold the weights the caller passed. *)
Definition caller_weights (a : args) (s : locals) : Prop :=
  blank_or_random a = false ->
  (content_weight_v s, style_weight_v s, tv_weight_v s)
  = (content_weight a, style_weight a, tv_weight a).

(** The optimiser holds the target and nothing else. *)
Definition trainable (s : locals) : Prop :=
  opt_params (optimizer_v s) = [RTarget] /\
  exists slot, opt_state (optimizer_v s) = [slot].

(** The landmarks of one iteration. *)
Definition iteration_marks : list mark := [MForward; MLoss; MStep].

(** The transform of an RGB image has three planes of positive size, and
    of the requested size when both edges are given. *)
Definition transform_ok : Prop :=
  (forall n im, exists h w,
      shape (in_transform (SizeEdge n) im) = [3; h; w]%nat /\
      (1 <= h)%nat /\ (1 <= w)%nat) /\
  (forall h w im, (1 <= h)%nat -> (1 <= w)%nat ->
      shape (in_transform (SizeExact [h; w]) im) = [3; h; w]%nat).

(** [tensor.new] returns a tensor of the size it is given. *)
Definition uninitialized_ok : Prop :=
  forall shp, shape (uninitialized shp) = shp.

(** [target_init] is one of the three methods. *)
Definition valid_init (a : args) : bool :=
  str_eq (target_init a) "clone" || str_eq (target_init a) "blank"
  || str_eq (target_init a) "random".

(** How the export ends once the image to save is known. *)
Definition export_outcome (a : args) (su : setup) (t3 out : tensor) (w : world)
  : res unit * world :=
  if str_eq (out_format a) "image-only" then
    (save_image (out_path a) out, logged w [ESaveImage (out_path a) out])
  else if str_eq (out_format a) "comparison" then
    (save_figure (out_path a) t3 (content su) (style su),
     logged w [ESaveFigure (out_path a) t3 (content su) (style su)])
  else
    (Raise (ValueError ("Unexpected Output Format" ++ out_format a)), w).

(** The exception [stylize] raises for an output format it does not
    know. *)
Definition format_error (e : exn) : Prop :=
  exists fmt, e = ValueError ("Unexpected Output Format" ++ fmt).

(** A result, or a computation, that does not raise it. *)
Definition quiet {A} (r : res A) : Prop :=
  forall e, r = Raise e -> ~ format_error e.

Definition calm {A} (m : M A) : Prop :=
  forall w e w', m w = (Raise e, w') -> ~ format_error e.

(** The loss computations of a log, in order. *)
Definition is_loss (e : event) : bool :=
  match e with ELoss _ _ _ _ _ _ _ _ => true | _ => false end.

Definition loss_events (evs : list event) : list event := filter is_loss evs.

End Vocabulary.

(** ** Small instances to run the model on *)

Module Toy.

(** A ramp of [n] values starting at [a], in steps of one half. *)
Definition ramp (a : Q) (n : nat) : list Q :=
  map (fun k => a + Qnat k * (1 # 2)) (seq 0 n).

(** Images are known by their size; the transform is a ramp, two by two
    unless an exact size is asked for; the gradient is constant; Adam is
    replaced by a plain descent step; an image is saved when it has two
    or three dimensions. *)
#[local] Instance ext : Externals := {|
  pil_image := nat * nat;
  image_open := fun _ => (2, 2)%nat;
  image_fetch := fun _ => (3, 3)%nat;
  image_size := fun im => im;
  in_transform := fun r im =>
    match r with
    | SizeExact [h; w] => mkTensor [3; h; w]%nat (ramp 1 (3 * (h * w)))
    | _ => mkTensor [3; 2; 2]%nat (ramp 0 12)
    end;
  rand_entry := fun k => 1 # Pos.of_nat (k + 2);
  grad_of := fun _ point _ =>
    mkTensor (shape (snd point)) (map (fun _ => 1) (data (snd point)));
  adam_slot := nat;
  adam_init := 0%nat;
  adam_update := fun lr slot p g =>
    (mkTensor (shape p) (map (fun pg => fst pg - lr * snd pg) (combine (data p) (data g))),
     S slot);
  uninitialized := fun shp => mkTensor shp (repeat 0 (numel shp));
  save_image := fun _ image =>
    match shape image with
    | [_; _] | [_; _; _] => Ok tt
    | _ => Raise (ValueError "pic should be 2/3 dimensional")
    end;
  save_figure := fun _ _ _ _ => Ok tt
|}.

(** The names of the 37 modules of [vgg19.features]. *)
Definition module_names : list string :=
  ["0"; "1"; "2"; "3"; "4"; "5"; "6"; "7"; "8"; "9"; "10"; "11"; "12"; "13";
   "14"; "15"; "16"; "17"; "18"; "19"; "20"; "21"; "22"; "23"; "24"; "25";
   "26"; "27"; "28"; "29"; "30"; "31"; "32"; "33"; "34"; "35"; "36"]%string.

(** A module with one weight, which scales its input by it. *)
Definition scale (v : Q) : layer :=
  mkLayer [mkParam (mkTensor [1%nat] [v]) true None]
    (fun ws x =>
       match ws with
       | w :: _ => mkTensor (shape x) (map (Qmult (flat w 0)) (data x))
       | [] => x
       end).

(** Module 21 doubles, the others leave their input as it is. *)
Definition net : network :=
  map (fun name => (name, scale (if String.eqb name "21" then 2 else 1)))
      module_names.

Definition world0 : world := mkWorld (freeze net) 0 [].

Definition args0 (init fmt : string) (steps : Z) : args :=
  mkArgs "content.jpg" "style.jpg" "result.png" init fmt
    (3 # 100) 500 steps 1 (1 # 2) (75 # 10) 100 200.

End Toy.

Module Example1.

Definition one (v : Q) : tensor := mkTensor [1; 1; 1; 1]%nat [v].

(** Features of a target and of a content image that differ at [conv3_2]
    only. *)
Definition target_features : dict tensor :=
  [("conv1_1", one 0); ("conv2_1", one 0); ("conv3_1", one 0);
   ("conv3_2", one 1); ("conv4_1", one 0); ("conv4_2", one 0);
   ("conv5_1", one 0)]%string.

Definition content_features : dict tensor :=
  map (fun kv => (fst kv, one 0)) target_features.

(** The mean squared error at one layer, as the code computes it. *)
Definition layer_mse (layer : string) : res Q :=
  (tf <~ dict_lookup target_features layer ;;
   cf <~ dict_lookup content_features layer ;;
   mse tf cf)%res.

End Example1.

Module Example3.

Definition one (v : Q) : tensor := mkTensor [1; 1; 1; 1]%nat [v].

Definition target_features : dict tensor :=
  [("conv1_1", one 1); ("conv2_1", one 2); ("conv3_1", one 0);
   ("conv4_1", one 0); ("conv5_1", one 0)]%string.

Definition style_features : dict tensor :=
  [("conv1_1", one 0); ("conv2_1", one 1); ("conv3_1", one 0);
   ("conv4_1", one 0); ("conv5_1", one 0)]%string.

(** [style_gms], as the prologue of [stylize] computes it. *)
Definition style_gms : dict tensor :=
  match gram_all (keys style_features) style_features [] with
  | Ok sg => sg
  | Raise _ => []
  end.

Definition feature (f : dict tensor) (layer : string) : tensor :=
  match dict_get f layer with Some x => x | None => one 0 end.

End Example3.

(** ** [im_convert] *)

(** numpy arrays, like tensors, are a shape and a row-major buffer. *)
Module Numpy.

(** [a.squeeze()]: the axes of length one are dropped. *)
Definition squeeze (a : tensor) : tensor :=
  mkTensor (filter (fun n => negb (n =? 1)%nat) (shape a)) (data a).

(** [a[i, j, k]] of a 3-D array. *)
Definition at3 (a : tensor) (i j k : nat) : Q :=
  match shape a with
  | [_; n1; n2] => flat a ((i * n1 + j) * n2 + k)
  | _ => 0
  end.

(** A 3-D buffer laid out from an index function. *)
Definition build3 (n0 n1 n2 : nat) (f : nat -> nat -> nat -> Q) : list Q :=
  flat_map (fun i => flat_map (fun j => map (f i j) (seq 0 n2)) (seq 0 n1))
           (seq 0 n0).

(** [a.transpose(1, 2, 0)]: entry [(j, k, i)] of the result is entry
    [(i, j, k)] of [a]; numpy raises unless [a] has three axes. *)
Definition transpose120 (a : tensor) : res tensor :=
  match shape a with
  | [n0; n1; n2] =>
      Ok (mkTensor [n1; n2; n0] (build3 n1 n2 n0 (fun j k i => at3 a i j k)))
  | _ => Raise (ValueError "axes don't match array")
  end.

(** Entry [c] of a tuple of three values. *)
Definition channel (v : Q * Q * Q) (c : nat) : Q :=
  let '(v0, v1, v2) := v in
  match c with
  | 0%nat => v0
  | 1%nat => v1
  | _ => v2
  end.

(** [a op np.array(v)] for a vector [v] of three values, by numpy's
    broadcasting: the last axis of [a] has length three, or length one
    and is stretched, or [a] is a scalar; any other length raises. *)
Definition broadcast3 (op : Q -> Q -> Q) (a : tensor) (v : Q * Q * Q) : res tensor :=
  match rev (shape a) with
  | K :: lead =>
      let lead := rev lead in
      if (K =? 3)%nat then
        Ok (mkTensor (lead ++ [3%nat])
              (grid (numel lead) 3 (fun i c => op (flat a (i * 3 + c)) (channel v c))))
      else if (K =? 1)%nat then
        Ok (mkTensor (lead ++ [3%nat])
              (grid (numel lead) 3 (fun i c => op (flat a i) (channel v c))))
      else Raise (ValueError "operands could not be broadcast together")
  | [] =>
      Ok (mkTensor [3%nat] (grid 1 3 (fun i c => op (flat a i) (channel v c))))
  end.

(** [a.clip(0, 1)] *)
Definition clip01 (a : tensor) : tensor :=
  mkTensor (shape a) (map (fun v => Qmin (Qmax v 0) 1) (data a)).

End Numpy.

Import Numpy.

(** The constants of the normalisation, as [load_image] and [im_convert]
    spell them. *)
Definition norm_std : Q * Q * Q := (229 # 1000, 224 # 1000, 225 # 1000).
Definition norm_mean : Q * Q * Q := (485 # 1000, 456 # 1000, 406 # 1000).

(** [tensor.to("cpu").clone().detach()] and [.numpy()] keep the values. *)
Definition im_convert (tensor : tensor) : res Torch.tensor :=
  let image := tensor in
  let image := squeeze image in
  image <~ transpose120 image ;;
  image <~ broadcast3 Qmult image norm_std ;;
  image <~ broadcast3 Qplus image norm_mean ;;
  let image := clip01 image in
  Ok image.

(** ** [upload_files] *)

(** The files of the machine by path, with their contents.
    [open(path, 'wb')] followed by [f.write(data)] creates the file or
    replaces what it held. *)
Definition write_file (fs : dict string) (path data : string) : dict string :=
  dict_set fs path data.

(** [uploaded] is what [files.upload()] returned: the contents of the
    chosen files by name. *)
Definition upload_files (uploaded : dict string) (fs : dict string) : dict string :=
  fold_left (fun fs item => write_file fs ("/tmp/" ++ fst item) (snd item))
            uploaded fs.

(** ** More vocabulary of the properties *)


(** Two networks with the same modules, parameter values and flags: they
    differ in the accumulated gradients at most. *)
Definition same_param (p q : param) : Prop :=
  p_data p = p_data q /\ requires_grad p = requires_grad q.

Definition same_layer (a b : string * layer) : Prop :=
  fst a = fst b /\ l_apply (snd a) = l_apply (snd b) /\
  Forall2 same_param (l_params (snd a)) (l_params (snd b)).

Definition same_network (net net' : network) : Prop :=
  Forall2 same_layer net net'.


(** A value between 0 and 1. *)
Definition unit_range (v : Q) : Prop := 0 <= v /\ v <= 1.

(** A banner that announces the weights of the second phase carries the
    weights of the first. *)
Definition banner_first_phase (e : event) : Prop :=
  match e with
  | EPrint (IntermediateSettingConstructingStyle cw sw tw) =>
      (cw, sw, tw) = (1, 1 # 100, 2)
  | _ => True
  end.

(** From the world [w] to the world [w']: the log has been extended by
    events that satisfy [P], and the network differs in the accumulated
    gradients at most. *)
Definition evolves (P : event -> Prop) (w w' : world) : Prop :=
  (exists evs, log w' = log w ++ evs /\ Forall P evs) /\
  same_network (vgg w) (vgg w').

(** The learning rate [stylize] gives to Adam. *)
Definition learning_rate (a : args) : Q :=
  if str_eq (target_init a) "clone" then lr a else Qmin (lr a * 10) (2 # 10).

(** * Properties *)

(** ** Lists and sums *)

Lemma seq_shift_map (a n : nat) :
  seq a n = map (fun x => (a + x)%nat) (seq 0 n).
Proof.
  revert a. induction n as [|n IH]; intro a; simpl; [reflexivity|].
  f_equal; [lia|].
  rewrite (IH (S a)), (IH 1%nat), map_map.
  apply map_ext. intro x. lia.
Qed.

Lemma nth_blocks (g : nat -> list Q) (c : nat) :
  (forall k, length (g k) = c) ->
  forall n a i j, (i < n)%nat -> (j < c)%nat ->
  nth (i * c + j) (flat_map g (seq a n)) 0 = nth j (g (a + i)%nat) 0.
Proof.
  intros Hlen. induction n as [|n IH]; intros a i j Hi Hj; [lia|].
  simpl. destruct i as [|i].
  - simpl. rewrite app_nth1 by (rewrite Hlen; exact Hj).
    now rewrite Nat.add_0_r.
  - rewrite app_nth2 by (rewrite Hlen; simpl; lia).
    rewrite Hlen.
    replace (S i * c + j - c)%nat with (i * c + j)%nat by (simpl; lia).
    rewrite IH by lia. f_equal. f_equal. lia.
Qed.

Lemma nth_map_seq (f : nat -> Q) (n j : nat) :
  (j < n)%nat -> nth j (map f (seq 0 n)) 0 = f j.
Proof.
  intro Hj.
  rewrite (nth_indep _ 0 (f 0%nat)) by (now rewrite length_map, length_seq).
  rewrite map_nth, seq_nth by exact Hj. reflexivity.
Qed.

Lemma nth_grid (rows cols : nat) (f : nat -> nat -> Q) (i j : nat) :
  (i < rows)%nat -> (j < cols)%nat ->
  nth (i * cols + j) (grid rows cols f) 0 = f i j.
Proof.
  intros Hi Hj. unfold grid.
  rewrite (@nth_blocks (fun i => map (f i) (seq 0 cols)) cols); try assumption.
  - now rewrite nth_map_seq.
  - intro k. now rewrite length_map, length_seq.
Qed.

Lemma length_blocks {A} (g : nat -> list A) (c : nat) (l : list nat) :
  (forall k, length (g k) = c) -> length (flat_map g l) = (length l * c)%nat.
Proof.
  intro Hlen. induction l as [|x l IH]; simpl; [reflexivity|].
  now rewrite length_app, Hlen, IH.
Qed.

Lemma length_grid (rows cols : nat) (f : nat -> nat -> Q) :
  length (grid rows cols f) = (rows * cols)%nat.
Proof.
  unfold grid. rewrite (@length_blocks _ _ cols).
  - now rewrite length_seq.
  - intro k. now rewrite length_map, length_seq.
Qed.

(** A grid whose entry depends on the flat index only is the flat list. *)
Lemma grid_flat (F : nat -> Q) (h w : nat) :
  grid h w (fun y x => F (y * w + x)%nat) = map F (seq 0 (h * w)).
Proof.
  unfold grid.
  assert (G : forall n a,
             flat_map (fun y => map (fun x => F (y * w + x)%nat) (seq 0 w)) (seq a n)
             = map F (seq (a * w) (n * w))).
  { induction n as [|n IH]; intro a; simpl; [reflexivity|].
    rewrite seq_app, map_app, IH. f_equal.
    - rewrite (seq_shift_map (a * w) w), map_map. reflexivity.
    - f_equal. f_equal. lia. }
  apply (G h 0%nat).
Qed.

Lemma combine_map_same {A B C} (f : A -> B) (g : A -> C) (l : list A) :
  combine (map f l) (map g l) = map (fun x => (f x, g x)) l.
Proof. induction l; simpl; congruence. Qed.

Lemma combine_app_eq {A B} (l1 l2 : list A) (m1 m2 : list B) :
  length l1 = length m1 ->
  combine (l1 ++ l2) (m1 ++ m2) = combine l1 m1 ++ combine l2 m2.
Proof.
  revert m1. induction l1 as [|x l1 IH]; intros [|y m1] H; simpl in *;
    try discriminate; [reflexivity|].
  f_equal. apply IH. congruence.
Qed.

Lemma combine_flat_map {A B C} (f : A -> list B) (g : A -> list C) (l : list A) :
  (forall x, length (f x) = length (g x)) ->
  combine (flat_map f l) (flat_map g l) = flat_map (fun x => combine (f x) (g x)) l.
Proof.
  intro H. induction l as [|x l IH]; simpl; [reflexivity|].
  now rewrite combine_app_eq, IH by apply H.
Qed.

Lemma sumQ_app (l1 l2 : list Q) : sumQ (l1 ++ l2) == sumQ l1 + sumQ l2.
Proof.
  induction l1 as [|x l1 IH]; simpl; [ring|]. rewrite IH. ring.
Qed.

Lemma sumQ_flat_map {A} (g : A -> list Q) (l : list A) :
  sumQ (flat_map g l) == bigsum l (fun x => sumQ (g x)).
Proof.
  unfold bigsum. induction l as [|x l IH]; simpl; [reflexivity|].
  now rewrite sumQ_app, IH.
Qed.

Lemma bigsum_cons {A} (x : A) (l : list A) (f : A -> Q) :
  bigsum (x :: l) f = f x + bigsum l f.
Proof. reflexivity. Qed.

Lemma bigsum_ext {A} (l : list A) (f g : A -> Q) :
  (forall x, In x l -> f x == g x) -> bigsum l f == bigsum l g.
Proof.
  unfold bigsum. induction l as [|x l IH]; intro H; simpl; [reflexivity|].
  rewrite (H x) by (now left). rewrite IH; [reflexivity|].
  intros y Hy. apply H. now right.
Qed.

Lemma sumQ_build4 (B C H W : nat) (f : nat -> nat -> nat -> nat -> Q) :
  sumQ (build4 B C H W f) ==
  bigsum (seq 0 B) (fun n =>
    bigsum (seq 0 C) (fun c =>
      bigsum (seq 0 H) (fun y =>
        bigsum (seq 0 W) (fun x => f n c y x)))).
Proof.
  unfold build4. rewrite sumQ_flat_map.
  apply bigsum_ext; intros n _. rewrite sumQ_flat_map.
  apply bigsum_ext; intros c _. rewrite sumQ_flat_map.
  apply bigsum_ext; intros y _. reflexivity.
Qed.

Lemma length_build4 (B C H W : nat) (f : nat -> nat -> nat -> nat -> Q) :
  length (build4 B C H W f) = (B * (C * (H * W)))%nat.
Proof.
  unfold build4.
  rewrite (@length_blocks _ _ (C * (H * W))), length_seq; [reflexivity|].
  intro n. rewrite (@length_blocks _ _ (H * W)), length_seq; [reflexivity|].
  intro c. rewrite (@length_blocks _ _ W), length_seq; [reflexivity|].
  intro y. now rewrite length_map, length_seq.
Qed.

Lemma length_rows {A} (W : nat) (f : nat -> nat -> A) (l : list nat) :
  length (flat_map (fun y => map (f y) (seq 0 W)) l) = (length l * W)%nat.
Proof.
  apply length_blocks. intro y. now rewrite length_map, length_seq.
Qed.

Lemma length_planes {A} (H W : nat) (f : nat -> nat -> nat -> A) (l : list nat) :
  length (flat_map (fun c => flat_map (fun y => map (f c y) (seq 0 W)) (seq 0 H)) l)
  = (length l * (H * W))%nat.
Proof.
  apply length_blocks. intro c. now rewrite length_rows, length_seq.
Qed.

Lemma map_flat_map {A B C} (op : B -> C) (g : A -> list B) (l : list A) :
  map op (flat_map g l) = flat_map (fun x => map op (g x)) l.
Proof.
  induction l as [|x l IH]; simpl; [reflexivity|]. now rewrite map_app, IH.
Qed.

(** Entrywise operations commute with the layout. *)
Lemma zip_build4 (op : Q * Q -> Q) (B C H W : nat)
  (f g : nat -> nat -> nat -> nat -> Q) :
  map op (combine (build4 B C H W f) (build4 B C H W g)) =
  build4 B C H W (fun n c y x => op (f n c y x, g n c y x)).
Proof.
  unfold build4.
  rewrite combine_flat_map by (intro n; now rewrite !length_planes).
  rewrite map_flat_map. apply flat_map_ext. intro n.
  rewrite combine_flat_map by (intro c; now rewrite !length_rows).
  rewrite map_flat_map. apply flat_map_ext. intro c.
  rewrite combine_flat_map by (intro y; now rewrite !length_map).
  rewrite map_flat_map. apply flat_map_ext. intro y.
  now rewrite combine_map_same, map_map.
Qed.

Lemma grid_ext (rows cols : nat) (f g : nat -> nat -> Q) :
  (forall i j, (i < rows)%nat -> (j < cols)%nat -> f i j = g i j) ->
  grid rows cols f = grid rows cols g.
Proof.
  intro H. unfold grid. rewrite !flat_map_concat_map. f_equal.
  apply map_ext_in. intros i Hi. apply in_seq in Hi.
  apply map_ext_in. intros j Hj. apply in_seq in Hj.
  apply H; lia.
Qed.

(** ** The Gram matrix *)

Lemma at4_batch1 (T : tensor) (d h w c y x : nat) :
  shape T = [1; d; h; w]%nat ->
  at4 T 0 c y x = flat T (c * (h * w) + (y * w + x)).
Proof.
  intro Hs. unfold at4. rewrite Hs. f_equal. lia.
Qed.

Lemma channel_map_flat (T : tensor) (d h w c : nat) :
  shape T = [1; d; h; w]%nat ->
  channel_map T h w c = map (fun k => flat T (c * (h * w) + k)) (seq 0 (h * w)).
Proof.
  intro Hs. unfold channel_map.
  rewrite <- (grid_flat (fun k => flat T (c * (h * w) + k))).
  apply grid_ext. intros y x _ _. now apply at4_batch1 with (d := d).
Qed.

Lemma inner_map (F G : nat -> Q) (l : list nat) :
  inner (map F l) (map G l) = bigsum l (fun k => F k * G k).
Proof.
  unfold inner, bigsum. now rewrite combine_map_same, map_map.
Qed.

Lemma numel_view (d h w : nat) :
  numel [d; (h * w)%nat] = numel [1%nat; d; h; w].
Proof. simpl. lia. Qed.

(** [gram_matrix] of a batch of one returns the matrix of the inner
    products of the channels. *)
Lemma gram_matrix_ok (T : tensor) (d h w : nat) :
  shape T = [1; d; h; w]%nat ->
  gram_matrix T = Ok (mkTensor [d; d] (grid d d (gram_entry T h w))).
Proof.
  intro Hs. unfold gram_matrix. rewrite Hs.
  unfold view. rewrite Hs, numel_view, Nat.eqb_refl.
  cbn [rbind t shape]. unfold mm. cbn [shape].
  rewrite Nat.eqb_refl. do 2 f_equal.
  apply grid_ext. intros i j Hi Hj.
  unfold gram_entry.
  rewrite !(channel_map_flat _ _ Hs), inner_map.
  unfold bigsum. f_equal. apply map_ext_in. intros k Hk. apply in_seq in Hk.
  f_equal. unfold at2 at 1. cbn [shape data].
  unfold flat at 1. cbn [data].
  rewrite nth_grid by lia. reflexivity.
Qed.

Lemma at2_grid (rows cols : nat) (f : nat -> nat -> Q) (i j : nat) :
  (i < rows)%nat -> (j < cols)%nat ->
  at2 (mkTensor [rows; cols] (grid rows cols f)) i j = f i j.
Proof. intros Hi Hj. unfold at2, flat. cbn [shape data]. now apply nth_grid. Qed.

(** ** Total variation *)

Lemma slice_bounds_tail (len : nat) :
  (1 <= len)%nat -> slice_bounds len (Some 1%Z) None = (1%nat, (len - 1)%nat).
Proof.
  intro H. unfold slice_bounds, clamp_index. cbn [Z.ltb Z.compare].
  f_equal; [lia|]. f_equal. lia.
Qed.

Lemma slice_bounds_init (len : nat) :
  (1 <= len)%nat ->
  slice_bounds len None (Some (Z.of_nat len - 1)%Z) = (0%nat, (len - 1)%nat).
Proof.
  intro H. unfold slice_bounds, clamp_index.
  destruct (Z.ltb_spec (Z.of_nat len - 1) 0); [lia|].
  f_equal. lia.
Qed.

Lemma sub_same_shape (A B : tensor) :
  shape A = shape B ->
  sub A B = Ok (mkTensor (shape A)
                  (map (fun p => fst p - snd p) (combine (data A) (data B)))).
Proof.
  intro H. unfold sub. destruct (list_eq_dec Nat.eq_dec (shape A) (shape B));
    [reflexivity | contradiction].
Qed.

Lemma tv_loss_ok (T : tensor) (b c h w : nat) :
  shape T = [b; c; h; w]%nat -> (1 <= h)%nat -> (1 <= w)%nat ->
  exists tv,
    tv_loss_of T = Ok (tv, h, w) /\
    tv == 2 * (vertical_variation T b c h w / Qnat ((h - 1) * w)
               + horizontal_variation T b c h w / Qnat (h * (w - 1)))
          / Qnat b.
Proof.
  intros Hs Hh Hw. unfold tv_loss_of, size_at. rewrite Hs. cbn [nth_error rbind].
  unfold slice_h, slice_w. rewrite Hs.
  rewrite !slice_bounds_tail, !slice_bounds_init by assumption.
  cbn [rbind]. rewrite !sub_same_shape by reflexivity.
  cbn [rbind shape data]. eexists. split; [reflexivity|].
  unfold sum, abs. cbn [data].
  rewrite !map_map.
  rewrite !(zip_build4 (fun p => Qabs (fst p - snd p))).
  rewrite !sumQ_build4. cbn [fst snd].
  replace ((Z.of_nat h - 1) * Z.of_nat w)%Z with (Z.of_nat ((h - 1) * w))
    by (rewrite Nat2Z.inj_mul, Nat2Z.inj_sub by lia; reflexivity).
  replace (Z.of_nat h * (Z.of_nat w - 1))%Z with (Z.of_nat (h * (w - 1)))
    by (rewrite Nat2Z.inj_mul, Nat2Z.inj_sub by lia; reflexivity).
  reflexivity.
Qed.

(** ** Mean squared errors *)

Lemma list_as_map (l : list Q) :
  l = map (fun k => nth k l 0) (seq 0 (length l)).
Proof.
  induction l as [|x l IH]; simpl; [reflexivity|].
  f_equal. rewrite <- seq_shift, map_map. exact IH.
Qed.

Lemma mse_ok (a b : tensor) :
  shape a = shape b -> wf a -> wf b ->
  mse a b = Ok (mean_squared_error (numel (shape a)) a b).
Proof.
  intros Hs Ha Hb. unfold mse. rewrite sub_same_shape by exact Hs.
  cbn [rbind]. f_equal. unfold mean, sum, sqr, mean_squared_error, bigsum.
  cbn [data shape]. f_equal. f_equal.
  rewrite (list_as_map (data a)) at 1. rewrite (list_as_map (data b)) at 1.
  unfold wf in Ha, Hb. rewrite Ha, Hb, <- Hs.
  rewrite combine_map_same, !map_map. reflexivity.
Qed.

Lemma zip_grid (op : Q * Q -> Q) (rows cols : nat) (f g : nat -> nat -> Q) :
  map op (combine (grid rows cols f) (grid rows cols g)) =
  grid rows cols (fun i j => op (f i j, g i j)).
Proof.
  unfold grid.
  rewrite combine_flat_map by (intro i; now rewrite !length_map).
  rewrite map_flat_map. apply flat_map_ext. intro i.
  now rewrite combine_map_same, map_map.
Qed.

Lemma sumQ_grid (rows cols : nat) (f : nat -> nat -> Q) :
  sumQ (grid rows cols f) ==
  bigsum (seq 0 rows) (fun i => bigsum (seq 0 cols) (fun j => f i j)).
Proof. unfold grid. now rewrite sumQ_flat_map. Qed.

(** The code's mean squared error between two Gram matrices is the one
    of the specification. *)
Lemma gram_mse_ok (Ft Fs : tensor) (d h w : nat) :
  shape Ft = [1; d; h; w]%nat -> shape Fs = [1; d; h; w]%nat ->
  exists Gt Gs m,
    gram_matrix Ft = Ok Gt /\ gram_matrix Fs = Ok Gs /\
    mse Gt Gs = Ok m /\ m == gram_mse Ft Fs d h w.
Proof.
  intros Ht Hs.
  exists (mkTensor [d; d] (grid d d (gram_entry Ft h w))),
         (mkTensor [d; d] (grid d d (gram_entry Fs h w))).
  exists (mean (sqr (mkTensor [d; d]
            (map (fun p => fst p - snd p)
               (combine (grid d d (gram_entry Ft h w))
                        (grid d d (gram_entry Fs h w))))))).
  split; [now apply gram_matrix_ok|].
  split; [now apply gram_matrix_ok|].
  split.
  - unfold mse. rewrite sub_same_shape by reflexivity. reflexivity.
  - unfold mean, sum, sqr, gram_mse. cbn [data shape].
    rewrite map_map.
    rewrite (zip_grid (fun p => Qsqr (fst p - snd p))), sumQ_grid.
    cbn [fst snd numel fold_right]. rewrite Nat.mul_1_r. reflexivity.
Qed.

(** ** Content loss *)

Lemma content_loss_ok (blend : Q) (tf cf : dict tensor) (t3 c3 t4 c4 : tensor) :
  dict_get tf "conv3_2" = Some t3 -> dict_get cf "conv3_2" = Some c3 ->
  dict_get tf "conv4_2" = Some t4 -> dict_get cf "conv4_2" = Some c4 ->
  shape t3 = shape c3 -> shape t4 = shape c4 ->
  wf t3 -> wf c3 -> wf t4 -> wf c4 ->
  content_loss_of (content_weights blend) tf cf
  = Ok (0 + blend * mean_squared_error (numel (shape t3)) t3 c3
          + (1 - blend) * mean_squared_error (numel (shape t4)) t4 c4).
Proof.
  intros Ht3 Hc3 Ht4 Hc4 Hs3 Hs4 W1 W2 W3 W4.
  unfold content_loss_of. cbn. unfold dict_lookup.
  rewrite Ht3, Hc3, Ht4, Hc4. cbn [rbind].
  rewrite !mse_ok by assumption. reflexivity.
Qed.

(** ** Style loss *)

Lemma style_loss_step (layer : string) (ks : list string) (slw : dict Q)
  (tf sg : dict tensor) (acc : Q) (Ft Fs Gs : tensor) (d h w : nat) (wl : Q) :
  dict_get tf layer = Some Ft -> shape Ft = [1; d; h; w]%nat ->
  dict_get sg layer = Some Gs -> gram_matrix Fs = Ok Gs ->
  shape Fs = [1; d; h; w]%nat -> dict_get slw layer = Some wl ->
  exists m,
    m == gram_mse Ft Fs d h w /\
    style_loss_from (layer :: ks) slw tf sg acc =
    style_loss_from ks slw tf sg (acc + wl * m / Qnat (d * h * w)).
Proof.
  intros Htf Ht Hsg Hg Hs Hw.
  destruct (@gram_mse_ok Ft Fs d h w Ht Hs) as (Gt & Gs' & m & E1 & E2 & E3 & E4).
  assert (Gs' = Gs) by congruence. subst Gs'.
  exists m. split; [exact E4|].
  cbn [style_loss_from]. unfold dict_lookup.
  rewrite Htf. cbn [rbind]. rewrite Ht. cbn [unpack4 rbind].
  rewrite E1. cbn [rbind]. rewrite Hsg, Hw. cbn [rbind]. rewrite E3.
  reflexivity.
Qed.

Lemma style_loss_from_ok (slw : dict Q) (tf sg : dict tensor)
  (Ft Fs : string -> tensor) (d h w : string -> nat) (ks : list string) :
  (forall layer, In layer ks ->
     dict_get tf layer = Some (Ft layer) /\
     shape (Ft layer) = [1; d layer; h layer; w layer]%nat /\
     shape (Fs layer) = [1; d layer; h layer; w layer]%nat /\
     (exists Gs, dict_get sg layer = Some Gs /\ gram_matrix (Fs layer) = Ok Gs) /\
     (exists wl, dict_get slw layer = Some wl)) ->
  forall acc, exists q,
    style_loss_from ks slw tf sg acc = Ok q /\
    q == acc + bigsum ks (fun layer =>
                 weight_in slw layer
                 * gram_mse (Ft layer) (Fs layer) (d layer) (h layer) (w layer)
                 / Qnat (d layer * h layer * w layer)).
Proof.
  induction ks as [|layer ks IH]; intros H acc.
  - exists acc. split; [reflexivity|]. unfold bigsum. simpl. ring.
  - destruct (H layer (or_introl eq_refl))
      as (Htf & Ht & Hs & (Gs & Hsg & Hg) & (wl & Hw)).
    destruct (@style_loss_step layer ks slw tf sg acc _ _ _ _ _ _ wl Htf Ht Hsg Hg Hs Hw)
      as (m & Em & Estep).
    destruct (IH (fun l Hl => H l (or_intror Hl))
                 (acc + wl * m / Qnat (d layer * h layer * w layer)))
      as (q & Eq1 & Eq2).
    exists q. split; [now rewrite Estep|].
    rewrite Eq2, bigsum_cons.
    unfold weight_in at 2. rewrite Hw, Em. unfold Qdiv. ring.
Qed.

(** ** Dictionaries *)

Lemma dict_get_set {V} (d : dict V) (k k' : string) (v : V) :
  dict_get (dict_set d k v) k' =
  if String.eqb k' k then Some v else dict_get d k'.
Proof.
  induction d as [|[k0 v0] d IH]; simpl.
  - reflexivity.
  - destruct (String.eqb_spec k k0) as [->|Hk]; simpl.
    + destruct (String.eqb_spec k' k0); reflexivity.
    + destruct (String.eqb_spec k' k0) as [->|Hk'].
      * destruct (String.eqb_spec k0 k); [congruence | reflexivity].
      * exact IH.
Qed.

Lemma dict_get_in {V} (d : dict V) (k : string) :
  In k (keys d) -> exists v, dict_get d k = Some v.
Proof.
  induction d as [|[k0 v0] d IH]; simpl; [contradiction|].
  intros [->|H].
  - rewrite String.eqb_refl. now exists v0.
  - destruct (String.eqb k k0); [now exists v0 | now apply IH].
Qed.

Lemma dict_in_get {V} (d : dict V) (k : string) (v : V) :
  dict_get d k = Some v -> In k (keys d).
Proof.
  induction d as [|[k0 v0] d IH]; simpl; [discriminate|].
  destruct (String.eqb_spec k k0) as [->|Hk]; [now left|].
  intro H. right. now apply IH.
Qed.

(** ** Networks that behave like stacks of convolutions on shapes *)

Lemma alike_set (fx fy : dict tensor) (k : string) (a b : tensor) :
  alike fx fy -> shape b = shape a -> batch1 a ->
  alike (dict_set fx k a) (dict_set fy k b).
Proof.
  intros H Hs Hb. induction H as [|[k1 v1] [k2 v2] fx fy (E & R) H IH]; simpl.
  - constructor; [now repeat split | constructor].
  - simpl in E. subst k2. destruct (String.eqb k k1).
    + constructor; [now repeat split | exact H].
    + constructor; [now repeat split | exact IH].
Qed.

Lemma alike_get (fx fy : dict tensor) (k : string) (a : tensor) :
  alike fx fy -> dict_get fx k = Some a ->
  batch1 a /\ exists b, dict_get fy k = Some b /\ shape b = shape a.
Proof.
  intros H. induction H as [|[k1 v1] [k2 v2] fx fy (E & Hs & Hb) H IH]; simpl;
    [discriminate|].
  simpl in E, Hs, Hb. subst k2. destruct (String.eqb k k1).
  - intro Ha. inversion Ha; subst. split; [exact Hb | now exists v2].
  - exact IH.
Qed.

Lemma get_features_from_alike (L : dict string) (modules : network) :
  (forall nl, In nl modules -> regular_layer (snd nl)) ->
  forall x y fx fy,
    batch1 x -> shape y = shape x -> alike fx fy ->
    alike (get_features_from modules L x fx) (get_features_from modules L y fy).
Proof.
  induction modules as [|[name l] modules IH]; intros Hreg x y fx fy Hx Hxy Hf;
    simpl; [exact Hf|].
  destruct (Hreg (name, l) (or_introl eq_refl) x Hx) as [Hb Hsh]. simpl in Hb, Hsh.
  apply IH.
  - intros nl Hnl. apply Hreg. now right.
  - exact Hb.
  - now apply Hsh.
  - destruct (dict_get L name); [|exact Hf].
    apply alike_set; [exact Hf | now apply Hsh | exact Hb].
Qed.

Lemma get_features_from_keeps (L : dict string) (modules : network)
  (x : tensor) (f : dict tensor) (key : string) :
  In key (keys f) -> In key (keys (get_features_from modules L x f)).
Proof.
  revert x f. induction modules as [|[name l] modules IH]; intros x f H; simpl;
    [exact H|].
  apply IH. destruct (dict_get L name) as [k|]; [|exact H].
  destruct (@dict_get_in _ f key H) as [v Hv].
  apply dict_in_get with (v := if String.eqb key k then layer_call l x else v).
  rewrite dict_get_set. destruct (String.eqb key k); [reflexivity | exact Hv].
Qed.

Lemma get_features_from_has (L : dict string) (modules : network)
  (x : tensor) (f : dict tensor) (name key : string) :
  In name (map fst modules) -> dict_get L name = Some key ->
  In key (keys (get_features_from modules L x f)).
Proof.
  revert x f. induction modules as [|[n l] modules IH]; intros x f H HL; simpl;
    [contradiction|].
  destruct H as [H|H].
  - simpl in H. subst n. rewrite HL. apply get_features_from_keeps.
    apply dict_in_get with (v := layer_call l x).
    now rewrite dict_get_set, String.eqb_refl.
  - now apply IH.
Qed.

Lemma feature_names_layers (key : string) :
  In key feature_names ->
  exists name, In name (keys default_layers) /\
               dict_get default_layers name = Some key.
Proof.
  intro H. simpl in H.
  destruct H as [<-|[<-|[<-|[<-|[<-|[<-|[<-|[]]]]]]]].
  - exists "0"%string. split; [simpl; tauto | reflexivity].
  - exists "5"%string. split; [simpl; tauto | reflexivity].
  - exists "10"%string. split; [simpl; tauto | reflexivity].
  - exists "19"%string. split; [simpl; tauto | reflexivity].
  - exists "12"%string. split; [simpl; tauto | reflexivity].
  - exists "21"%string. split; [simpl; tauto | reflexivity].
  - exists "28"%string. split; [simpl; tauto | reflexivity].
Qed.

Lemma features_of_regular (net : network) (x y : tensor) (key : string) :
  regular net -> batch1 x -> shape y = shape x -> In key feature_names ->
  exists Fx Fy,
    dict_get (get_features x net None) key = Some Fx /\
    dict_get (get_features y net None) key = Some Fy /\
    shape Fy = shape Fx /\ batch1 Fx.
Proof.
  intros [Hreg Hnames] Hx Hxy Hkey.
  assert (Hal : alike (get_features x net None) (get_features y net None)).
  { apply get_features_from_alike; try assumption. constructor. }
  assert (Hin : In key (keys (get_features x net None))).
  { destruct (@feature_names_layers key Hkey) as (name & Hn & Hd).
    unfold get_features. eapply get_features_from_has; [|exact Hd].
    now apply Hnames. }
  destruct (@dict_get_in _ _ key Hin) as [Fx HFx].
  destruct (@alike_get _ _ key Fx Hal HFx) as [Hb (Fy & HFy & Hs)].
  now exists Fx, Fy.
Qed.

Lemma features_all_batch1 (net : network) (x : tensor) (key : string) (F : tensor) :
  regular net -> batch1 x ->
  dict_get (get_features x net None) key = Some F -> batch1 F.
Proof.
  intros [Hreg _] Hx HF.
  assert (Hal : alike (get_features x net None) (get_features x net None)).
  { apply get_features_from_alike; try assumption; [reflexivity | constructor]. }
  now destruct (@alike_get _ _ key F Hal HF).
Qed.

(** ** The Gram matrices of the style image *)

Lemma gram_all_ok (sf : dict tensor) (ks : list string) :
  (forall k, In k ks -> exists F, dict_get sf k = Some F /\ batch1 F) ->
  forall acc, exists sg,
    gram_all ks sf acc = Ok sg /\
    (forall k, In k ks ->
       exists F G, dict_get sf k = Some F /\ gram_matrix F = Ok G /\
                   dict_get sg k = Some G) /\
    (forall k, ~ In k ks -> dict_get sg k = dict_get acc k).
Proof.
  induction ks as [|k0 ks IH]; intros H acc.
  - exists acc. split; [reflexivity|]. split; [intros k []|reflexivity].
  - destruct (H k0 (or_introl eq_refl)) as (F & HF & (c & h & w & Hs)).
    destruct (IH (fun k Hk => H k (or_intror Hk))
                 (dict_set acc k0 (mkTensor [c; c] (grid c c (gram_entry F h w)))))
      as (sg & E & Hin & Hout).
    exists sg. split; [|split].
    + cbn [gram_all]. unfold dict_lookup. rewrite HF. cbn [rbind].
      rewrite (@gram_matrix_ok F c h w Hs). cbn [rbind]. exact E.
    + intros k [<-|Hk]; [|now apply Hin].
      destruct (in_dec string_dec k0 ks) as [Hk|Hk]; [now apply Hin|].
      exists F, (mkTensor [c; c] (grid c c (gram_entry F h w))).
      split; [exact HF|]. split; [now apply gram_matrix_ok|].
      now rewrite (Hout _ Hk), dict_get_set, String.eqb_refl.
    + intros k Hk. rewrite Hout by (intro; apply Hk; now right).
      rewrite dict_get_set. destruct (String.eqb_spec k k0) as [->|]; [|reflexivity].
      exfalso. apply Hk. now left.
Qed.

(** ** The optimiser touches the target only *)

Section Runs.

Context {ext : Externals}.

Lemma mapi_id {A} (f : nat -> A -> A) (l : list A) :
  (forall i x, In x l -> f i x = x) -> mapi f l = l.
Proof.
  unfold mapi. generalize 0%nat.
  induction l as [|x l IH]; intros a H; simpl; [reflexivity|].
  f_equal; [apply H; now left|]. apply IH. intros i y Hy. apply H. now right.
Qed.

Lemma accumulate_frozen (g : tensor) (p : param) :
  requires_grad p = false -> accumulate g p = p.
Proof. intro H. unfold accumulate. now rewrite H. Qed.

Lemma backward_frozen (loss : network * tensor -> Q) (net : network) (p : param) :
  frozen net -> fst (backward loss (net, p)) = net.
Proof.
  intro Hf. unfold backward. cbn [fst snd].
  apply mapi_id. intros i [name [ps ap]] Hin. cbn [fst snd l_params l_apply].
  f_equal. f_equal. apply mapi_id. intros k q Hq.
  apply accumulate_frozen, Hf. unfold parameters.
  apply in_flat_map. exists (name, mkLayer ps ap). now split.
Qed.

Lemma backward_target (loss : network * tensor -> Q) (net : network) (p : param) :
  p_data (snd (backward loss (net, p))) = p_data p.
Proof.
  unfold backward, accumulate. cbn [fst snd]. now destruct (requires_grad p).
Qed.

Lemma zero_grad_target (o : optimizer) (net : network) (p : param) :
  opt_params o = [RTarget] ->
  zero_grad o (net, p) = (net, mkParam (p_data p) (requires_grad p) None).
Proof. intro H. unfold zero_grad. rewrite H. reflexivity. Qed.

Lemma step_target (o : optimizer) (net : network) (p : param) (slot : adam_slot) :
  opt_params o = [RTarget] -> opt_state o = [slot] ->
  exists p' slot',
    step o (net, p) = (net, p', mkOptimizer [RTarget] (opt_lr o) [slot']) /\
    (adam_keeps_shape -> shape (p_data p') = shape (p_data p)).
Proof.
  intros Hp Hs. unfold step. rewrite Hp, Hs. cbn [combine fold_left].
  unfold step_one. cbn [fst snd read_ref].
  destruct (p_grad p) as [g|] eqn:Hg.
  - destruct (adam_update (opt_lr o) slot (p_data p) g) as [d slot'] eqn:Ha.
    cbn [update_ref fst snd app].
    exists (mkParam d (requires_grad p) (p_grad p)), slot'.
    split; [reflexivity|]. intro Hk. cbn [p_data].
    specialize (Hk (opt_lr o) slot (p_data p) g). now rewrite Ha in Hk.
  - exists p, slot. split; [reflexivity | reflexivity].
Qed.

(** ** One iteration, in closed form *)

Lemma logged_nil (w : world) : logged w [] = w.
Proof. destruct w. unfold logged. cbn. now rewrite app_nil_r. Qed.

Lemma logged_logged (w : world) (e1 e2 : list event) :
  logged (logged w e1) e2 = logged w (e1 ++ e2).
Proof. unfold logged. cbn. now rewrite app_assoc. Qed.

Lemma emit_run (e : event) (w : world) : emit e w = (Ok tt, logged w [e]).
Proof. reflexivity. Qed.

Lemma overview_run (a : args) (ii : Z) (cw sw tw : Q) (w : world) :
  overview a ii cw sw tw w = (Ok tt, logged w (overview_events a ii cw sw tw)).
Proof.
  unfold overview, overview_events, print.
  destruct (ii =? 1)%Z.
  - now destruct (str_eq (target_init a) "clone").
  - destruct (5 * ii =? steps a)%Z; [|now rewrite logged_nil].
    destruct (str_eq (target_init a) "random" || str_eq (target_init a) "blank");
      [reflexivity | now rewrite logged_nil].
Qed.

Lemma iteration_eq (a : args) (su : setup) (ii : Z) (s : locals) (w : world) :
  iteration a su ii s w =
  let '(cw, sw, tw) := pick_weights a ii s in
  let tgt := p_data (target s) in
  match compute_losses su cw sw tw (vgg w) tgt with
  | Raise e =>
      (Raise e, logged w (overview_events a ii cw sw tw ++ [EForward tgt]))
  | Ok l =>
      let st := updated su s (vgg w) cw sw tw in
      let w' := mkWorld (fst (fst st)) (rng w)
                  (log w ++ overview_events a ii cw sw tw
                         ++ core_events ii cw sw tw tgt l) in
      if (show_every a =? 0)%Z then (Raise ZeroDivisionError, w')
      else (Ok (mkLocals (snd (fst st)) (snd st) cw sw tw
                  (Some (l_h_x l)) (Some (l_w_x l))),
            logged w' (show_events a ii l (p_data (snd (fst st)))))
  end.
Proof.
  unfold iteration. destruct (pick_weights a ii s) as [[cw sw] tw].
  unfold bind at 1. rewrite overview_run.
  unfold bind at 1. unfold get_vgg at 1. cbn [vgg logged].
  unfold bind at 1. rewrite emit_run, logged_logged.
  unfold bind at 1. unfold lift at 1.
  destruct (compute_losses su cw sw tw (vgg w) (p_data (target s))) as [l|e];
    [|reflexivity].
  unfold updated. cbv zeta.
  destruct (step (optimizer_v s)
              (backward (total_loss_fn su cw sw tw)
                 (zero_grad (optimizer_v s) (vgg w, target s))))
    as [[net' p'] o'].
  unfold show, show_events.
  destruct (show_every a =? 0)%Z; destruct (ii mod show_every a =? 0)%Z;
    cbv [bind emit set_vgg print ret raise logged core_events];
    cbn [vgg rng log fst snd];
    repeat rewrite <- app_assoc; cbn [app]; try rewrite app_nil_r; reflexivity.
Qed.

(** ** When an iteration computes its losses *)

Lemma mse_defined (a b : tensor) :
  shape a = shape b -> exists m, mse a b = Ok m.
Proof.
  intro H. unfold mse. rewrite sub_same_shape by exact H. cbn [rbind]. eauto.
Qed.

Lemma style_loss_from_defined (slw : dict Q) (tf sg : dict tensor)
  (ks : list string) :
  (forall layer, In layer ks ->
     exists Ft Fs Gs d h w wl,
       dict_get tf layer = Some Ft /\ shape Ft = [1; d; h; w]%nat /\
       dict_get sg layer = Some Gs /\ gram_matrix Fs = Ok Gs /\
       shape Fs = [1; d; h; w]%nat /\ dict_get slw layer = Some wl) ->
  forall acc, exists q, style_loss_from ks slw tf sg acc = Ok q.
Proof.
  induction ks as [|layer ks IH]; intros H acc; [now exists acc|].
  destruct (H layer (or_introl eq_refl))
    as (Ft & Fs & Gs & d & h & w & wl & H1 & H2 & H3 & H4 & H5 & H6).
  destruct (@style_loss_step layer ks slw tf sg acc Ft Fs Gs d h w wl
              H1 H2 H3 H4 H5 H6) as (m & _ & E).
  rewrite E. apply IH. intros l Hl. apply H. now right.
Qed.

Lemma style_layers_features (key : string) :
  In key style_layers -> In key feature_names.
Proof. simpl. tauto. Qed.

Lemma compute_losses_ok (a : args) (su : setup) (net : network) (c h w : nat)
  (cw sw tw : Q) (tgt : tensor) :
  regular net -> setup_ok a su net c h w ->
  shape tgt = [1; c; h; w]%nat -> (1 <= h)%nat -> (1 <= w)%nat ->
  exists l, compute_losses su cw sw tw net tgt = Ok l /\
            l_h_x l = h /\ l_w_x l = w.
Proof.
  intros Hreg Hsu Hs Hh Hw.
  assert (Hb : batch1 tgt) by (now exists c, h, w).
  assert (Hc : shape (content su) = shape tgt)
    by (now rewrite (su_content Hsu), Hs).
  assert (Hy : shape (style su) = shape tgt)
    by (now rewrite (su_style Hsu), Hs).
  unfold compute_losses.
  (* content loss *)
  assert (E1 : exists q, content_loss_of (content_layers_weights su)
                           (get_features tgt net None) (content_features su) = Ok q).
  { rewrite (su_clw Hsu), (su_features Hsu).
    destruct (@features_of_regular net tgt (content su) "conv3_2" Hreg Hb Hc)
      as (T3 & C3 & HT3 & HC3 & S3 & _); [simpl; tauto|].
    destruct (@features_of_regular net tgt (content su) "conv4_2" Hreg Hb Hc)
      as (T4 & C4 & HT4 & HC4 & S4 & _); [simpl; tauto|].
    destruct (@mse_defined T3 C3 (eq_sym S3)) as [m3 E3].
    destruct (@mse_defined T4 C4 (eq_sym S4)) as [m4 E4].
    unfold content_loss_of. cbn. unfold dict_lookup.
    rewrite HT3, HC3, HT4, HC4. cbn [rbind]. rewrite E3, E4. cbn [rbind]. eauto. }
  destruct E1 as [q1 E1]. rewrite E1. cbn [rbind].
  (* style loss *)
  assert (E2 : exists q, style_loss_of (style_layers_weights su)
                           (get_features tgt net None) (style_gms su) = Ok q).
  { unfold style_loss_of. apply style_loss_from_defined.
    rewrite (su_slw Hsu). intros layer Hl.
    assert (Hl' : In layer style_layers) by exact Hl.
    destruct (@features_of_regular net tgt (style su) layer Hreg Hb Hy
                (@style_layers_features layer Hl'))
      as (Ft & Fs & HFt & HFs & Hsh & (d & h' & w' & HdFt)).
    destruct (@su_gms _ _ _ _ _ _ Hsu layer Hl') as (Fs' & Gs & HFs' & HG & HGs).
    assert (Fs' = Fs) by congruence. subst Fs'.
    destruct (@dict_get_in _ (style_weights_from style_layers
                                (style_layer_weight_exp a) 1 []) layer Hl)
      as [wl Hwl].
    exists Ft, Fs, Gs, d, h', w', wl. repeat split; try assumption.
    now rewrite Hsh. }
  destruct E2 as [q2 E2]. rewrite E2. cbn [rbind].
  (* total variation *)
  destruct (@tv_loss_ok tgt 1 c h w Hs Hh Hw) as (tv & E3 & _).
  rewrite E3. cbn [rbind]. eexists. split; [reflexivity|]. split; reflexivity.
Qed.

(** ** What a computation adds to the log *)

Lemma grows_silent {A} (P : event -> Prop) (m : M A) :
  (forall w, log (snd (m w)) = log w /\ vgg (snd (m w)) = vgg w) -> grows P m.
Proof.
  intros H w. destruct (H w) as [Hl Hv]. exists [].
  split; [now rewrite app_nil_r|]. split; [constructor | exact Hv].
Qed.

Lemma grows_ret {A} (P : event -> Prop) (x : A) : grows P (ret x).
Proof. now apply grows_silent. Qed.

Lemma grows_raise {A} (P : event -> Prop) (e : exn) : grows P (@raise A e).
Proof. now apply grows_silent. Qed.

Lemma grows_lift {A} (P : event -> Prop) (r : res A) : grows P (lift r).
Proof. now apply grows_silent. Qed.

Lemma grows_get_vgg (P : event -> Prop) : grows P get_vgg.
Proof. now apply grows_silent. Qed.

Lemma grows_emit (P : event -> Prop) (e : event) : P e -> grows P (emit e).
Proof.
  intros H w. exists [e]. split; [reflexivity|]. split; [now constructor|reflexivity].
Qed.

Lemma grows_bind {A B} (P : event -> Prop) (m : M A) (k : A -> M B) :
  grows P m -> (forall x, grows P (k x)) -> grows P (bind m k).
Proof.
  intros Hm Hk w. unfold bind. destruct (Hm w) as (e1 & E1 & F1 & V1).
  destruct (m w) as [[x|e] w1]; cbn [snd] in *.
  - destruct (Hk x w1) as (e2 & E2 & F2 & V2). exists (e1 ++ e2). split.
    + now rewrite E2, E1, app_assoc.
    + split; [now apply Forall_app | congruence].
  - now exists e1.
Qed.

Lemma grows_for_each {S} (P : event -> Prop) (body : Z -> S -> M S) (l : list Z) :
  (forall i s, grows P (body i s)) -> forall s, grows P (for_each body l s).
Proof.
  intro H. induction l as [|i l IH]; intro s; cbn [for_each].
  - apply grows_ret.
  - apply grows_bind; [apply H | exact IH].
Qed.

Lemma grows_load_image (P : event -> Prop) (path : string) (max_size : nat)
  (shp : option (list nat)) :
  P (ELoadImage path) -> grows P (load_image path max_size shp).
Proof.
  intro H. unfold load_image.
  apply grows_bind; [now apply grows_emit|]. intros _.
  apply grows_bind; [apply grows_lift|]. intro x. apply grows_ret.
Qed.

Lemma grows_init_target (P : event -> Prop) (a : args) (content : tensor) :
  grows P (init_target a content).
Proof.
  unfold init_target.
  destruct (str_eq (target_init a) "clone"); [apply grows_ret|].
  destruct (str_eq (target_init a) "blank"); [apply grows_ret|].
  destruct (str_eq (target_init a) "random"); [|apply grows_raise].
  now apply grows_silent.
Qed.

Lemma grows_prologue (a : args) : grows prologue_event (prologue a).
Proof.
  unfold prologue.
  apply grows_bind; [now apply grows_load_image|]. intro content.
  apply grows_bind; [now apply grows_load_image|]. intro style.
  apply grows_bind; [now apply grows_emit|]. intros _.
  apply grows_bind; [apply grows_init_target|]. intro target.
  apply grows_bind; [now apply grows_emit|]. intros _.
  apply grows_bind; [apply grows_lift|]. intro optimizer.
  apply grows_bind; [now apply grows_emit|]. intros _.
  apply grows_bind; [apply grows_get_vgg|]. intro net.
  apply grows_bind; [now apply grows_emit|]. intros _.
  apply grows_bind; [now apply grows_emit|]. intros _.
  apply grows_bind; [apply grows_lift|]. intro gms.
  apply grows_bind; [now apply grows_emit|]. intros _.
  apply grows_ret.
Qed.

Lemma grows_read_local (P : event -> Prop) (name : string) (v : option nat) :
  grows P (read_local name v).
Proof. destruct v; [apply grows_ret | apply grows_raise]. Qed.

Lemma grows_export (a : args) (su : setup) (s : locals) :
  grows export_event (export a su s).
Proof.
  unfold export.
  apply grows_bind.
  - destruct (str_eq (target_init a) "clone"); [|apply grows_ret].
    apply grows_bind; [apply grows_read_local|]. intro h.
    apply grows_bind; [apply grows_read_local|]. intro w.
    apply grows_bind; [apply grows_lift|]. intro t3.
    apply grows_bind; [apply grows_lift|]. intro out.
    apply grows_ret.
  - intros [t3 out].
    destruct (str_eq (out_format a) "image-only");
      [apply grows_bind; [now apply grows_emit | intros _; apply grows_lift]|].
    destruct (str_eq (out_format a) "comparison");
      [apply grows_bind; [now apply grows_emit | intros _; apply grows_lift]|].
    apply grows_raise.
Qed.
(** ** The landmarks of a run *)

Lemma marks_app (e1 e2 : list event) : marks (e1 ++ e2) = marks e1 ++ marks e2.
Proof. apply flat_map_app. Qed.

Lemma marks_overview (a : args) (ii : Z) (cw sw tw : Q) :
  marks (overview_events a ii cw sw tw) = [].
Proof.
  unfold overview_events.
  destruct (ii =? 1)%Z; [reflexivity|].
  destruct (5 * ii =? steps a)%Z; [|reflexivity].
  now destruct (str_eq (target_init a) "random" || str_eq (target_init a) "blank").
Qed.

Lemma marks_show (a : args) (ii : Z) (l : losses) (x : tensor) :
  marks (show_events a ii l x) = [].
Proof. unfold show_events. now destruct (ii mod show_every a =? 0)%Z. Qed.

(** ** The weights in force *)

Lemma pick_weights_in_force (a : args) (ii : Z) (s : locals) :
  caller_weights a s -> pick_weights a ii s = weights_in_force a ii.
Proof.
  intro H. unfold pick_weights, weights_in_force.
  destruct (blank_or_random a) eqn:E; [reflexivity | now apply H].
Qed.

Lemma total_of_compute (su : setup) (cw sw tw : Q) (net : network)
  (tgt : tensor) (l : losses) :
  compute_losses su cw sw tw net tgt = Ok l ->
  total_loss l = total_loss_of cw sw tw (content_loss l) (style_loss l) (tv_loss l).
Proof.
  unfold compute_losses.
  destruct (content_loss_of _ _ _) as [q1|]; cbn [rbind]; [|discriminate].
  destruct (style_loss_of _ _ _) as [q2|]; cbn [rbind]; [|discriminate].
  destruct (tv_loss_of tgt) as [[[tv hx] wx]|]; cbn [rbind]; [|discriminate].
  intro H. inversion H. reflexivity.
Qed.

Lemma updated_ok (su : setup) (s : locals) (net : network) (cw sw tw : Q) :
  frozen net -> trainable s ->
  exists p' o',
    updated su s net cw sw tw = (net, p', o') /\
    opt_params o' = [RTarget] /\ (exists slot, opt_state o' = [slot]) /\
    (adam_keeps_shape -> shape (p_data p') = shape (p_data (target s))).
Proof.
  intros Hf [Hp [slot Hs]]. unfold updated.
  rewrite zero_grad_target by exact Hp.
  pose proof (@backward_frozen (total_loss_fn su cw sw tw) net
                (mkParam (p_data (target s)) (requires_grad (target s)) None) Hf)
    as Hnet.
  pose proof (@backward_target (total_loss_fn su cw sw tw) net
                (mkParam (p_data (target s)) (requires_grad (target s)) None))
    as Htgt.
  destruct (backward _ _) as [net1 p1]. cbn [fst snd p_data] in Hnet, Htgt.
  subst net1.
  destruct (@step_target (optimizer_v s) net p1 slot Hp Hs)
    as (p' & slot' & E & Hsh).
  exists p', (mkOptimizer [RTarget] (opt_lr (optimizer_v s)) [slot']).
  split; [exact E|]. split; [reflexivity|]. split; [now exists slot'|].
  intro Hk. now rewrite (Hsh Hk), Htgt.
Qed.

(** What one iteration does, whether it completes or raises. *)
Lemma iteration_frame (a : args) (su : setup) (ii : Z) (s : locals) (w : world) :
  frozen (vgg w) -> trainable s -> caller_weights a s ->
  exists evs,
    log (snd (iteration a su ii s w)) = log w ++ evs /\
    vgg (snd (iteration a su ii s w)) = vgg w /\
    rng (snd (iteration a su ii s w)) = rng w /\
    Forall (loss_event_ok a) evs /\
    forall s', fst (iteration a su ii s w) = Ok s' ->
      trainable s' /\ caller_weights a s' /\
      (adam_keeps_shape ->
         shape (p_data (target s')) = shape (p_data (target s))) /\
      exists pre post cw sw tw l,
        evs = pre ++ core_events ii cw sw tw (p_data (target s)) l ++ post /\
        marks pre = [] /\ marks post = [] /\
        compute_losses su cw sw tw (vgg w) (p_data (target s)) = Ok l /\
        h_x s' = Some (l_h_x l) /\ w_x s' = Some (l_w_x l).
Proof.
  intros Hf Ht Hc. rewrite iteration_eq.
  pose proof (pick_weights_in_force ii Hc) as Hpw.
  destruct (pick_weights a ii s) as [[cw sw] tw]. cbv zeta.
  destruct (compute_losses su cw sw tw (vgg w) (p_data (target s))) as [l|e] eqn:El.
  - destruct (@updated_ok su s (vgg w) cw sw tw Hf Ht)
      as (p' & o' & E & Ho1 & Ho2 & Hsh).
    rewrite E. cbn [fst snd].
    assert (Hok : Forall (loss_event_ok a)
                    (overview_events a ii cw sw tw
                     ++ core_events ii cw sw tw (p_data (target s)) l
                     ++ show_events a ii l (p_data p'))).
    { apply Forall_forall. intros e He.
      apply in_app_or in He. destruct He as [He|He].
      - unfold overview_events in He.
        destruct (ii =? 1)%Z; [destruct He as [<-|[]]; exact I|].
        destruct (5 * ii =? steps a)%Z; [|destruct He].
        destruct (str_eq (target_init a) "random" || str_eq (target_init a) "blank");
          [destruct He as [<-|[]]; exact I | destruct He].
      - apply in_app_or in He. destruct He as [He|He].
        + cbn in He.
          destruct He as [<-|[<-|[<-|[<-|[<-|[]]]]]]; try exact I.
          cbn. split; [exact Hpw | now apply total_of_compute with (1 := El)].
        + unfold show_events in He. destruct (ii mod show_every a =? 0)%Z.
          * destruct He as [<-|[<-|[<-|[]]]]; exact I.
          * destruct He. }
    destruct (show_every a =? 0)%Z; cbn [fst snd vgg rng log logged].
    + exists (overview_events a ii cw sw tw
              ++ core_events ii cw sw tw (p_data (target s)) l).
      split; [reflexivity|]. split; [reflexivity|]. split; [reflexivity|].
      split.
      * rewrite app_assoc in Hok. now apply Forall_app in Hok.
      * intros s' Hs'. discriminate.
    + exists (overview_events a ii cw sw tw
              ++ core_events ii cw sw tw (p_data (target s)) l
              ++ show_events a ii l (p_data p')).
      split; [now rewrite <- !app_assoc|]. split; [reflexivity|].
      split; [reflexivity|]. split; [exact Hok|].
      intros s' Hs'. inversion Hs'; subst s'; clear Hs'.
      split; [split; assumption|].
      split; [intro Hb; unfold weights_in_force in Hpw; rewrite Hb in Hpw;
              cbn; exact Hpw|].
      split; [exact Hsh|].
      exists (overview_events a ii cw sw tw), (show_events a ii l (p_data p')),
             cw, sw, tw, l.
      split; [reflexivity|]. split; [apply marks_overview|].
      split; [apply marks_show|]. split; [exact El|]. split; reflexivity.
  - cbn [fst snd vgg rng log logged].
    exists (overview_events a ii cw sw tw ++ [EForward (p_data (target s))]).
    split; [reflexivity|]. split; [reflexivity|]. split; [reflexivity|]. split.
    + apply Forall_forall. intros e0 He.
      apply in_app_or in He. destruct He as [He|[<-|[]]]; [|exact I].
      unfold overview_events in He.
      destruct (ii =? 1)%Z; [destruct He as [<-|[]]; exact I|].
      destruct (5 * ii =? steps a)%Z; [|destruct He].
      destruct (str_eq (target_init a) "random" || str_eq (target_init a) "blank");
        [destruct He as [<-|[]]; exact I | destruct He].
    + intros s' Hs'. discriminate.
Qed.

(** ** The loop *)

Lemma loop_frame (a : args) (su : setup) (iis : list Z) :
  forall (s : locals) (w : world),
    frozen (vgg w) -> trainable s -> caller_weights a s ->
    exists evs,
      log (snd (loop a su iis s w)) = log w ++ evs /\
      vgg (snd (loop a su iis s w)) = vgg w /\
      rng (snd (loop a su iis s w)) = rng w /\
      Forall (loss_event_ok a) evs /\
      forall s', fst (loop a su iis s w) = Ok s' ->
        trainable s' /\ caller_weights a s' /\
        marks evs = flat_map (fun _ => iteration_marks) iis.
Proof.
  induction iis as [|ii iis IH]; intros s w Hf Ht Hc.
  - exists []. cbn. rewrite app_nil_r.
    split; [reflexivity|]. split; [reflexivity|]. split; [reflexivity|].
    split; [constructor|].
    intros s' Hs'. inversion Hs'; subst s'.
    split; [exact Ht|]. split; [exact Hc|]. reflexivity.
  - destruct (@iteration_frame a su ii s w Hf Ht Hc)
      as (e1 & L1 & V1 & R1 & F1 & K1).
    unfold loop in *. cbn [for_each]. unfold bind.
    destruct (iteration a su ii s w) as [[s1|e] w1]; cbn [fst snd] in *.
    + destruct (K1 s1 eq_refl)
        as (Ht1 & Hc1 & _ & pre & post & cw & sw & tw & l & E & Mp & Mq & _).
      rewrite <- V1 in Hf.
      destruct (IH s1 w1 Hf Ht1 Hc1) as (e2 & L2 & V2 & R2 & F2 & K2).
      exists (e1 ++ e2).
      split; [now rewrite L2, L1, app_assoc|].
      split; [congruence|]. split; [congruence|].
      split; [now apply Forall_app|].
      intros s' Hs'. destruct (K2 s' Hs') as (Ht2 & Hc2 & M2).
      split; [exact Ht2|]. split; [exact Hc2|].
      rewrite marks_app, M2, E, !marks_app, Mp, Mq. reflexivity.
    + exists e1. split; [exact L1|]. split; [exact V1|]. split; [exact R1|].
      split; [exact F1|]. discriminate.
Qed.

Lemma iteration_succeeds (a : args) (su : setup) (c h wd : nat) (ii : Z)
  (s : locals) (w : world) :
  regular (vgg w) -> frozen (vgg w) -> setup_ok a su (vgg w) c h wd ->
  shape (p_data (target s)) = [1; c; h; wd]%nat ->
  (1 <= h)%nat -> (1 <= wd)%nat -> show_every a <> 0%Z -> trainable s ->
  exists s', fst (iteration a su ii s w) = Ok s' /\
             h_x s' = Some h /\ w_x s' = Some wd.
Proof.
  intros Hreg Hf Hsu Hs Hh Hw Hshow Ht. rewrite iteration_eq.
  destruct (pick_weights a ii s) as [[cw sw] tw]. cbv zeta.
  destruct (@compute_losses_ok a su (vgg w) c h wd cw sw tw (p_data (target s))
              Hreg Hsu Hs Hh Hw) as (l & El & Hx & Hy).
  rewrite El. apply Z.eqb_neq in Hshow. rewrite Hshow. cbn [fst].
  eexists. split; [reflexivity|]. cbn [h_x w_x]. now rewrite Hx, Hy.
Qed.

Lemma loop_succeeds (a : args) (su : setup) (net : network) (c h wd : nat)
  (iis : list Z) :
  regular net -> frozen net -> setup_ok a su net c h wd -> adam_keeps_shape ->
  (1 <= h)%nat -> (1 <= wd)%nat -> show_every a <> 0%Z ->
  forall (s : locals) (w : world),
    vgg w = net -> shape (p_data (target s)) = [1; c; h; wd]%nat ->
    trainable s -> caller_weights a s ->
    exists s', fst (loop a su iis s w) = Ok s' /\
               shape (p_data (target s')) = [1; c; h; wd]%nat /\
               (iis <> [] -> h_x s' = Some h /\ w_x s' = Some wd) /\
               (iis = [] -> s' = s).
Proof.
  intros Hreg Hf Hsu Hk Hh Hw Hshow.
  induction iis as [|ii iis IH]; intros s w Hv Hs Ht Hc.
  - exists s. cbn. repeat split; try assumption; congruence.
  - subst net.
    destruct (@iteration_succeeds a su c h wd ii s w Hreg Hf Hsu Hs Hh Hw Hshow Ht)
      as (s1 & E1 & Hx1 & Hy1).
    destruct (@iteration_frame a su ii s w Hf Ht Hc)
      as (e1 & L1 & V1 & R1 & F1 & K1).
    destruct (K1 s1 E1) as (Ht1 & Hc1 & Hsh1 & _).
    unfold loop in *. cbn [for_each]. unfold bind.
    destruct (iteration a su ii s w) as [[s1'|e] w1]; cbn [fst snd] in *;
      [|discriminate].
    inversion E1; subst s1'; clear E1.
    assert (Hs1 : shape (p_data (target s1)) = [1; c; h; wd]%nat)
      by (now rewrite (Hsh1 Hk)).
    destruct (IH s1 w1 V1 Hs1 Ht1 Hc1) as (s' & E' & Hs' & Hx' & Hnil).
    exists s'. split; [exact E'|]. split; [exact Hs'|]. split; [|discriminate].
    intros _. destruct iis as [|i2 iis]; [|apply Hx'; discriminate].
    rewrite (Hnil eq_refl). now split.
Qed.

(** ** The prologue *)

Lemma load_image_shape (path : string) (max_size : nat)
  (shp : option (list nat)) (w0 : world) (h wd : nat) :
  let image := if contains "http" path then image_fetch path else image_open path in
  let size0 :=
    if (max_size <? Nat.max (fst (image_size image)) (snd (image_size image)))%nat
    then SizeEdge max_size
    else SizeEdge (Nat.max (fst (image_size image)) (snd (image_size image))) in
  let size := match shp with Some s => SizeExact s | None => size0 end in
  shape (in_transform size image) = [3; h; wd]%nat ->
  exists x,
    load_image path max_size shp w0 = (Ok x, logged w0 [ELoadImage path]) /\
    shape x = [1; 3; h; wd]%nat.
Proof.
  intros image size0 size Hs.
  exists (unsqueeze0 (mkTensor [3; h; wd]%nat
                        (firstn (3 * (h * wd)) (data (in_transform size image))))).
  split; [|reflexivity].
  unfold load_image, bind, emit, lift, ret, take3. cbn [fst snd].
  fold image. fold size0. fold size. rewrite Hs. reflexivity.
Qed.

Lemma load_image_edge (path : string) (max_size : nat) (w0 : world) :
  transform_ok ->
  exists x h wd,
    load_image path max_size None w0 = (Ok x, logged w0 [ELoadImage path]) /\
    shape x = [1; 3; h; wd]%nat /\ (1 <= h)%nat /\ (1 <= wd)%nat.
Proof.
  intros [H1 _].
  set (image := if contains "http" path then image_fetch path else image_open path).
  destruct (max_size <? Nat.max (fst (image_size image)) (snd (image_size image)))%nat
    eqn:Hm.
  - destruct (H1 max_size image) as (h & wd & Hs & Hh & Hw).
    destruct (@load_image_shape path max_size None w0 h wd)
      as (x & E & Sx).
    { cbv zeta. fold image. now rewrite Hm. }
    now exists x, h, wd.
  - destruct (H1 (Nat.max (fst (image_size image)) (snd (image_size image))) image)
      as (h & wd & Hs & Hh & Hw).
    destruct (@load_image_shape path max_size None w0 h wd)
      as (x & E & Sx).
    { cbv zeta. fold image. now rewrite Hm. }
    now exists x, h, wd.
Qed.

Lemma load_image_exact (path : string) (max_size : nat) (w0 : world) (h wd : nat) :
  transform_ok -> (1 <= h)%nat -> (1 <= wd)%nat ->
  exists x,
    load_image path max_size (Some [h; wd]) w0 = (Ok x, logged w0 [ELoadImage path]) /\
    shape x = [1; 3; h; wd]%nat.
Proof.
  intros [_ H2] Hh Hw.
  apply load_image_shape. cbv zeta. now apply H2.
Qed.

Lemma init_target_ok (a : args) (content : tensor) (w : world) :
  valid_init a = true ->
  exists p w',
    init_target a content w = (Ok p, w') /\
    shape (p_data p) = shape content /\ vgg w' = vgg w /\ log w' = log w.
Proof.
  unfold valid_init, init_target. intro H.
  destruct (str_eq (target_init a) "clone");
    [eexists; eexists; split; [reflexivity|]; repeat split|].
  destruct (str_eq (target_init a) "blank");
    [eexists; eexists; split; [reflexivity|]; repeat split|].
  destruct (str_eq (target_init a) "random"); [|discriminate].
  eexists; eexists; split; [reflexivity|]; repeat split.
Qed.

Lemma bind_ok {A B} (m : M A) (k : A -> M B) (w w' : world) (y : B) :
  bind m k w = (Ok y, w') ->
  exists x w1, m w = (Ok x, w1) /\ k x w1 = (Ok y, w').
Proof.
  unfold bind. destruct (m w) as [[x|e] w1]; [|discriminate].
  intro H. now exists x, w1.
Qed.

Lemma lift_ok {A} (r : res A) (w w' : world) (x : A) :
  lift r w = (Ok x, w') -> r = Ok x.
Proof. unfold lift. now intros [= ->]. Qed.

(** The optimiser that [Adam] returns, when it returns one. *)
Lemma Adam_ok (params : list ref) (lr : Q) (o : optimizer) :
  Adam params lr = Ok o ->
  o = mkOptimizer params lr (map (fun _ => adam_init) params) /\ 0 <= lr.
Proof.
  unfold Adam. destruct (Qle_bool 0 lr) eqn:E; [|discriminate].
  intros [= <-]. split; [reflexivity | now apply Qle_bool_iff].
Qed.

Lemma Adam_accepts (params : list ref) (lr : Q) :
  0 <= lr -> Adam params lr = Ok (mkOptimizer params lr (map (fun _ => adam_init) params)).
Proof. intro H. unfold Adam. apply Qle_bool_iff in H. now rewrite H. Qed.

(** The learning rate [stylize] passes on is not negative when the
    caller's is not. *)
Lemma learning_rate_nonneg (a : args) :
  0 <= lr a ->
  0 <= (if str_eq (target_init a) "clone" then lr a else Qmin (lr a * 10) (2 # 10)).
Proof.
  intro H. destruct (str_eq (target_init a) "clone"); [exact H|].
  apply Q.min_glb; [|discriminate].
  change 0 with (0 * 10). apply Qmult_le_compat_r; [exact H | discriminate].
Qed.

(** Whatever the prologue returns, the optimiser holds the target only and
    the variables hold the caller's weights. *)
Lemma prologue_result (a : args) (w w0 : world) (su : setup) (s0 : locals) :
  prologue a w = (Ok (su, s0), w0) ->
  trainable s0 /\ caller_weights a s0 /\ h_x s0 = None /\ w_x s0 = None.
Proof.
  unfold prologue. intro H.
  do 5 (apply bind_ok in H; destruct H as (? & ? & _ & H)).
  apply bind_ok in H. destruct H as (o & ? & Eo & H).
  apply lift_ok, Adam_ok in Eo. destruct Eo as [-> _].
  repeat (apply bind_ok in H; destruct H as (? & ? & _ & H)).
  unfold ret in H. inversion H; subst.
  split; [split; [reflexivity | now eexists]|].
  split; [intros _; reflexivity|]. split; reflexivity.
Qed.

Lemma prologue_ok (a : args) (w : world) :
  transform_ok -> regular (vgg w) -> valid_init a = true -> 0 <= lr a ->
  exists su s0 w0 h wd,
    prologue a w = (Ok (su, s0), w0) /\
    setup_ok a su (vgg w) 3 h wd /\
    shape (p_data (target s0)) = [1; 3; h; wd]%nat /\
    (1 <= h)%nat /\ (1 <= wd)%nat /\
    vgg w0 = vgg w /\
    exists evs, log w0 = log w ++ evs /\ marks evs = [MForward; MForward].
Proof.
  intros Htr Hreg Hv Hlr. unfold prologue.
  destruct (@load_image_edge (content_path a) 400 w Htr)
    as (cimg & h & wd & E1 & Sc & Hh & Hw).
  unfold bind at 1. rewrite E1.
  destruct (@load_image_exact (style_path a) 400
              (logged w [ELoadImage (content_path a)]) h wd Htr Hh Hw)
    as (simg & E2 & Ss).
  unfold bind at 1. rewrite Sc. cbn [last2 length Nat.sub skipn]. rewrite E2.
  unfold bind at 1. unfold print at 1. rewrite emit_run.
  unfold bind at 1.
  match goal with |- context [init_target a cimg ?w1] =>
    destruct (@init_target_ok a cimg w1 Hv) as (p & w2 & E3 & Sp & V2 & L2)
  end.
  rewrite E3.
  unfold bind at 1. unfold print at 1. rewrite emit_run.
  unfold bind at 1. unfold lift at 1.
  rewrite (Adam_accepts [RTarget] (learning_rate_nonneg a Hlr)).
  unfold bind at 1. unfold print at 1. rewrite emit_run.
  unfold bind at 1. unfold get_vgg at 1. cbn [fst snd].
  unfold bind at 1. rewrite emit_run.
  unfold bind at 1. rewrite emit_run.
  assert (Hnet : vgg (logged (logged w2
                   [EPrint (TargetDefinitionCompleted (target_init a))])
                   [EPrint (OptimizerAdam
                      (if str_eq (target_init a) "clone" then lr a
                       else Qmin (lr a * 10) (2 # 10)))]) = vgg w).
  { cbn [vgg logged]. exact V2. }
  rewrite Hnet.
  assert (Hbs : batch1 simg) by (now exists 3%nat, h, wd).
  destruct (@gram_all_ok (get_features simg (vgg w) None)
              (keys (get_features simg (vgg w) None)))
    with (acc := @nil (string * tensor)) as (sg & Eg & Hin & _).
  { intros k Hk. destruct (@dict_get_in _ _ k Hk) as [F HF]. exists F.
    split; [exact HF|]. now apply (@features_all_batch1 (vgg w) simg k F). }
  unfold bind at 1. unfold lift at 1. rewrite Eg.
  unfold bind at 1. unfold print at 1. rewrite emit_run.
  unfold ret.
  eexists. eexists. eexists. exists h, wd.
  split; [reflexivity|].
  split; [|split; [cbn [target]; now rewrite Sp, Sc|]].
  2:{ split; [exact Hh|]. split; [exact Hw|]. split; [exact V2|].
      cbn [log logged]. rewrite L2. cbn [log logged].
      eexists. split; [repeat rewrite <- app_assoc; reflexivity | reflexivity]. }
  constructor; cbn [content style content_features style_gms
                    style_layers_weights content_layers_weights];
    try reflexivity; try assumption.
  intros key Hkey.
  destruct (@features_of_regular (vgg w) simg simg key Hreg Hbs eq_refl
              (@style_layers_features key Hkey)) as (Fs & _ & HFs & _).
  destruct (Hin key (@dict_in_get _ _ key Fs HFs)) as (F & G & HF & HG & HsG).
  exists F, G. now repeat split.
Qed.

(** ** The export *)

Lemma view_planes_ok (T : tensor) (h w : nat) :
  shape T = [1; 3; h; w]%nat -> (1 <= h)%nat -> (1 <= w)%nat ->
  view_planes T h w = Ok (mkTensor [3; h; w]%nat (data T)).
Proof.
  intros Hs Hh Hw. unfold view_planes. rewrite Hs.
  replace (numel [1; 3; h; w]%nat) with (3 * (h * w))%nat by (simpl; lia).
  destruct (Nat.eqb_spec (h * w) 0) as [E|E]; [nia|].
  rewrite Nat.Div0.mod_mul, Nat.div_mul by exact E. reflexivity.
Qed.

Lemma unnormalize_ok (T : tensor) (h w : nat) :
  uninitialized_ok -> shape T = [3; h; w]%nat ->
  exists out, unnormalize T = Ok out.
Proof.
  intros Hu Hs. unfold unnormalize, plane, set_plane.
  rewrite Hs. specialize (Hu [3; h; w]%nat).
  destruct (uninitialized [3; h; w]%nat) as [ush udata]. cbn [shape] in Hu.
  subst ush. cbn. eauto.
Qed.

Lemma export_ok (a : args) (su : setup) (s : locals) (w : world) (h wd : nat) :
  uninitialized_ok ->
  shape (p_data (target s)) = [1; 3; h; wd]%nat -> (1 <= h)%nat -> (1 <= wd)%nat ->
  (str_eq (target_init a) "clone" = true -> h_x s = Some h /\ w_x s = Some wd) ->
  exists t3 out, export a su s w = export_outcome a su t3 out w.
Proof.
  intros Hu Hs Hh Hw Hloc. unfold export.
  destruct (str_eq (target_init a) "clone").
  - destruct (Hloc eq_refl) as [Hx Hy]. rewrite Hx, Hy.
    destruct (@unnormalize_ok (mkTensor [3; h; wd]%nat (data (p_data (target s))))
                h wd Hu eq_refl) as [out Eo].
    exists (mkTensor [3; h; wd]%nat (data (p_data (target s)))), out.
    unfold bind at 1. unfold bind at 1. unfold read_local at 1. unfold ret at 1.
    unfold bind at 1. unfold read_local at 1. unfold ret at 1.
    unfold bind at 1. unfold lift at 1.
    rewrite (view_planes_ok _ Hs Hh Hw).
    unfold bind at 1. unfold lift at 1. rewrite Eo. unfold ret at 1.
    unfold export_outcome, raise.
    destruct (str_eq (out_format a) "image-only"); [reflexivity|].
    destruct (str_eq (out_format a) "comparison"); reflexivity.
  - exists (p_data (target s)), (p_data (target s)).
    unfold bind at 1. unfold ret at 1.
    unfold export_outcome, raise.
    destruct (str_eq (out_format a) "image-only"); [reflexivity|].
    destruct (str_eq (out_format a) "comparison"); reflexivity.
Qed.

End Runs.

(** * The claims of the specification *)

(** ** Gram matrix *)

(** C2. For every tensor of shape [(1, d, h, w)], [gram_matrix] returns
    the [d] by [d] matrix whose entry [(i, j)] is the inner product of the
    flattened feature maps of the channels [i] and [j]; it is the product
    of the tensor reshaped to [(d, h * w)] with its own transpose. *)
Theorem gram_matrix_inner_products (T : tensor) (d h w : nat) :
  shape T = [1; d; h; w]%nat ->
  exists G V Vt,
    gram_matrix T = Ok G /\
    shape G = [d; d] /\ wf G /\
    (forall i j, (i < d)%nat -> (j < d)%nat ->
       at2 G i j = inner (channel_map T h w i) (channel_map T h w j)) /\
    view T [d; (h * w)%nat] = Ok V /\ t V = Ok Vt /\ mm V Vt = Ok G.
Proof.
  intro Hs.
  exists (mkTensor [d; d] (grid d d (gram_entry T h w))),
         (mkTensor [d; (h * w)%nat] (data T)),
         (mkTensor [(h * w)%nat; d]
            (grid (h * w) d
               (fun j i => at2 (mkTensor [d; (h * w)%nat] (data T)) i j))).
  pose proof (@gram_matrix_ok T d h w Hs) as HG.
  split; [exact HG|]. split; [reflexivity|].
  split; [unfold wf; cbn [data shape numel fold_right];
          rewrite length_grid; lia|].
  split; [intros i j Hi Hj; now rewrite at2_grid|].
  assert (Hv : view T [d; (h * w)%nat] = Ok (mkTensor [d; (h * w)%nat] (data T))).
  { unfold view. now rewrite Hs, numel_view, Nat.eqb_refl. }
  split; [exact Hv|]. split; [reflexivity|].
  unfold gram_matrix in HG. rewrite Hs, Hv in HG. exact HG.
Qed.

Lemma gram_matrix_inner_products_witness :
  exists G,
    gram_matrix (mkTensor [1; 2; 1; 2]%nat [1; 2; 3; 4]) = Ok G /\
    at2 G 0 1 = inner [1; 2] [3; 4].
Proof.
  destruct (@gram_matrix_inner_products
              (mkTensor [1; 2; 1; 2]%nat [1; 2; 3; 4]) 2 1 2 eq_refl)
    as (G & V & Vt & HG & _ & _ & Hent & _).
  exists G. split; [exact HG|].
  exact (Hent 0%nat 1%nat (le_S _ _ (le_n 1)) (le_n 2)).
Defined.

(** ** Total variation *)

(** C4. For a target of shape [(b, c, h, w)] the total-variation loss is
    [2 * (H / ((h - 1) * w) + W / (h * (w - 1))) / b], with [H] the sum of
    the absolute differences between vertically adjacent pixels and [W]
    the same for horizontally adjacent pixels. *)
Theorem tv_loss_formula (T : tensor) (b c h w : nat) :
  shape T = [b; c; h; w]%nat ->
  (1 <= b)%nat -> (2 <= h)%nat -> (2 <= w)%nat ->
  exists tv,
    tv_loss_of T = Ok (tv, h, w) /\
    tv == 2 * (vertical_variation T b c h w / Qnat ((h - 1) * w)
               + horizontal_variation T b c h w / Qnat (h * (w - 1)))
          / Qnat b.
Proof.
  intros Hs _ Hh Hw. apply tv_loss_ok; [exact Hs | lia | lia].
Qed.

Lemma tv_loss_formula_witness :
  exists tv,
    tv_loss_of (mkTensor [1; 1; 2; 2]%nat [0; 1; 3; 6]) = Ok (tv, 2%nat, 2%nat) /\
    tv == 12.
Proof.
  destruct (@tv_loss_formula (mkTensor [1; 1; 2; 2]%nat [0; 1; 3; 6]) 1 1 2 2
              eq_refl (le_n 1) (le_n 2) (le_n 2)) as (tv & E & Htv).
  exists tv. split; [exact E|].
  rewrite Htv. vm_compute. reflexivity.
Defined.

(** ** Content loss *)

(** C1, as the code has it.  The content loss blends the mean squared
    errors of two layers, [conv3_2] and [conv4_2], with the weights
    [content_weight_blend] and [1 - content_weight_blend]; when
    [content_weight_blend] is 1, its default, it is the mean squared error
    at [conv3_2] alone. *)
Theorem content_loss_blend (blend : Q) (tf cf : dict tensor)
  (t3 c3 t4 c4 : tensor) :
  dict_get tf "conv3_2" = Some t3 -> dict_get cf "conv3_2" = Some c3 ->
  dict_get tf "conv4_2" = Some t4 -> dict_get cf "conv4_2" = Some c4 ->
  shape t3 = shape c3 -> shape t4 = shape c4 ->
  wf t3 -> wf c3 -> wf t4 -> wf c4 ->
  (1 <= numel (shape t3))%nat -> (1 <= numel (shape t4))%nat ->
  exists q,
    content_loss_of (content_weights blend) tf cf = Ok q /\
    q == blend * mean_squared_error (numel (shape t3)) t3 c3
         + (1 - blend) * mean_squared_error (numel (shape t4)) t4 c4 /\
    (blend == 1 -> q == mean_squared_error (numel (shape t3)) t3 c3).
Proof.
  intros H1 H2 H3 H4 H5 H6 H7 H8 H9 H10 _ _.
  exists (0 + blend * mean_squared_error (numel (shape t3)) t3 c3
            + (1 - blend) * mean_squared_error (numel (shape t4)) t4 c4).
  split; [apply content_loss_ok; assumption|].
  split; [ring|]. intro Hb. rewrite Hb. ring.
Qed.

Lemma content_loss_blend_witness :
  exists q,
    content_loss_of (content_weights (1 # 2))
      Example1.target_features Example1.content_features = Ok q /\
    q == 1 # 2.
Proof.
  destruct (@content_loss_blend (1 # 2)
              Example1.target_features Example1.content_features
              (Example1.one 1) (Example1.one 0) (Example1.one 0) (Example1.one 0)
              eq_refl eq_refl eq_refl eq_refl eq_refl eq_refl
              eq_refl eq_refl eq_refl eq_refl (le_n 1) (le_n 1))
    as (q & E & Hq & _).
  exists q. split; [exact E|]. rewrite Hq. vm_compute. reflexivity.
Defined.

(** C1, as stated, fails: with [content_weight_blend = 1/2] the content
    loss is 1/2, while the mean squared error is 1 at [conv3_2] and 0 at
    every other layer. *)
Lemma content_loss_single_layer_counterexample :
  exists q,
    content_loss_of (content_weights (1 # 2))
      Example1.target_features Example1.content_features = Ok q /\
    forall layer m,
      In layer (keys Example1.target_features) ->
      Example1.layer_mse layer = Ok m -> ~ q == m.
Proof.
  eexists. split; [vm_compute; reflexivity|].
  intros layer m Hl Hm. simpl in Hl.
  destruct Hl as [<-|[<-|[<-|[<-|[<-|[<-|[<-|[]]]]]]]];
    vm_compute in Hm; inversion Hm; subst m; vm_compute; discriminate.
Qed.

(** ** Style loss *)

(** C3. The style loss is the sum, over the layers [conv1_1], [conv2_1],
    [conv3_1], [conv4_1] and [conv5_1], of the mean squared error between
    the Gram matrix of the target features and that of the style features
    at the layer, weighted by the weight of the layer (the [k]-th power of
    [style_layer_weight_exp] for the [k]-th layer) and divided by the
    size [d * h * w] of the layer. *)
Theorem style_loss_weighted_gram_mse (e : Q) (tf sg : dict tensor)
  (Ft Fs : string -> tensor) (d h w : string -> nat) :
  (forall layer, In layer style_layers ->
     dict_get tf layer = Some (Ft layer) /\
     shape (Ft layer) = [1; d layer; h layer; w layer]%nat /\
     shape (Fs layer) = [1; d layer; h layer; w layer]%nat /\
     (1 <= d layer)%nat /\ (1 <= h layer)%nat /\ (1 <= w layer)%nat /\
     exists Gs, dict_get sg layer = Some Gs /\ gram_matrix (Fs layer) = Ok Gs) ->
  exists q,
    style_loss_of (style_weights_from style_layers e 1 []) tf sg = Ok q /\
    q == bigsum (combine style_layers (seq 0 5)) (fun lk =>
           Qpow e (snd lk)
           * gram_mse (Ft (fst lk)) (Fs (fst lk))
               (d (fst lk)) (h (fst lk)) (w (fst lk))
           / Qnat (d (fst lk) * h (fst lk) * w (fst lk))).
Proof.
  intro H.
  destruct (@style_loss_from_ok (style_weights_from style_layers e 1 []) tf sg
              Ft Fs d h w style_layers) with (acc := 0) as (q & E & Hq).
  { intros layer Hl. destruct (H layer Hl) as (H1 & H2 & H3 & _ & _ & _ & H4).
    repeat split; try assumption.
    now apply dict_get_in. }
  exists q. split; [exact E|].
  rewrite Hq. unfold bigsum, weight_in. cbn. unfold Qdiv. ring.
Qed.

Lemma style_loss_weighted_gram_mse_witness :
  exists q,
    style_loss_of (style_weights_from style_layers 2 1 [])
      Example3.target_features Example3.style_gms = Ok q /\
    q == 19.
Proof.
  destruct (@style_loss_weighted_gram_mse 2
              Example3.target_features Example3.style_gms
              (Example3.feature Example3.target_features)
              (Example3.feature Example3.style_features)
              (fun _ => 1%nat) (fun _ => 1%nat) (fun _ => 1%nat))
    as (q & E & Hq).
  { intros layer Hl. simpl in Hl.
    destruct Hl as [<-|[<-|[<-|[<-|[<-|[]]]]]];
      (split; [reflexivity|]; split; [reflexivity|]; split; [reflexivity|];
       split; [apply le_n|]; split; [apply le_n|]; split; [apply le_n|];
       eexists; split; vm_compute; reflexivity). }
  exists q. split; [exact E|]. rewrite Hq. vm_compute. reflexivity.
Defined.

(** ** Whole runs *)

Section Claims.

Context {ext : Externals}.

Lemma freeze_frozen (net : network) : frozen (freeze net).
Proof.
  intros p Hp. unfold parameters, freeze in Hp.
  apply in_flat_map in Hp. destruct Hp as ([name l] & Hnl & Hp).
  apply in_map_iff in Hnl. destruct Hnl as ([name0 l0] & E & _).
  inversion E; subst. cbn [snd l_params] in Hp.
  apply in_map_iff in Hp. destruct Hp as (p0 & <- & _). reflexivity.
Qed.

Lemma weights_freeze (net : network) : weights (freeze net) = weights net.
Proof.
  unfold weights, freeze. rewrite map_map. apply map_ext. intros [name l].
  cbn [snd l_params]. rewrite map_map. now apply map_ext.
Qed.

Lemma layer_call_freeze (l : layer) (x : tensor) :
  layer_call (mkLayer (map (requires_grad_ false) (l_params l)) (l_apply l)) x
  = layer_call l x.
Proof.
  unfold layer_call. cbn [l_params l_apply]. now rewrite map_map.
Qed.

Lemma regular_freeze (net : network) : regular net -> regular (freeze net).
Proof.
  intros [Hl Hn]. split.
  - intros nl Hnl. unfold freeze in Hnl. apply in_map_iff in Hnl.
    destruct Hnl as ([name l] & <- & Hin). cbn [fst snd].
    intros x Hx. rewrite layer_call_freeze.
    destruct (Hl (name, l) Hin x Hx) as [Hb Hs]. cbn [snd] in Hb, Hs.
    split; [exact Hb|]. intros y Hy. rewrite layer_call_freeze. now apply Hs.
  - intros name Hname. unfold freeze. rewrite map_map. cbn [fst].
    now apply Hn.
Qed.

Lemma Forall_prologue_loss (a : args) (evs : list event) :
  Forall prologue_event evs -> Forall (loss_event_ok a) evs.
Proof. apply Forall_impl. now intros []. Qed.

Lemma Forall_export_loss (a : args) (evs : list event) :
  Forall export_event evs -> Forall (loss_event_ok a) evs.
Proof. apply Forall_impl. now intros []. Qed.

(** Stopped after any number of iterations, a run has left a frozen
    network as it was, and its optimiser holds the target only. *)
Lemma run_iterations_frame (a : args) (k : nat) (w : world) :
  frozen (vgg w) ->
  vgg (snd (run_iterations a k w)) = vgg w /\
  match fst (run_iterations a k w) with
  | Ok sus => trainable (snd sus)
  | Raise _ => True
  end.
Proof.
  intro Hf. unfold run_iterations, bind.
  destruct (grows_prologue a w) as (e0 & L0 & F0 & V0).
  destruct (prologue a w) as [[[su s0]|e] w0] eqn:Ep; cbn [fst snd] in *;
    [|now split].
  destruct (@prologue_result ext a w w0 su s0 Ep) as (Ht & Hc & _).
  rewrite <- V0 in Hf.
  destruct (@loop_frame ext a su (firstn k (range 1 (steps a + 1))) s0 w0 Hf Ht Hc)
    as (e1 & L1 & V1 & R1 & F1 & K1).
  destruct (loop a su (firstn k (range 1 (steps a + 1))) s0 w0) as [[s|e] w1];
    cbn [fst snd ret] in *.
  - split; [congruence|]. now destruct (K1 s eq_refl).
  - split; [congruence | exact I].
Qed.

(** A run leaves a frozen network as it was, and every loss computation
    it logs used the weights in force and summed the three losses. *)
Lemma stylize_frame (a : args) (w : world) :
  frozen (vgg w) ->
  exists evs,
    log (snd (stylize a w)) = log w ++ evs /\
    vgg (snd (stylize a w)) = vgg w /\
    Forall (loss_event_ok a) evs.
Proof.
  intro Hf. unfold stylize, bind.
  destruct (grows_prologue a w) as (e0 & L0 & F0 & V0).
  destruct (prologue a w) as [[[su s0]|e] w0] eqn:Ep; cbn [fst snd] in *.
  - destruct (@prologue_result ext a w w0 su s0 Ep) as (Ht & Hc & _).
    rewrite <- V0 in Hf.
    destruct (@loop_frame ext a su (range 1 (steps a + 1)) s0 w0 Hf Ht Hc)
      as (e1 & L1 & V1 & R1 & F1 & K1).
    destruct (loop a su (range 1 (steps a + 1)) s0 w0) as [[s|e] w1];
      cbn [fst snd] in *.
    + destruct (grows_export a su s w1) as (e2 & L2 & F2 & V2).
      exists (e0 ++ e1 ++ e2).
      split; [now rewrite L2, L1, L0, <- !app_assoc|].
      split; [congruence|].
      apply Forall_app. split; [now apply Forall_prologue_loss|].
      apply Forall_app. split; [exact F1 | now apply Forall_export_loss].
    + exists (e0 ++ e1).
      split; [now rewrite L1, L0, <- !app_assoc|].
      split; [congruence|].
      apply Forall_app. split; [now apply Forall_prologue_loss | exact F1].
  - exists e0. split; [exact L0|]. split; [exact V0|].
    now apply Forall_prologue_loss.
Qed.

(** [ii <= 0.2 * steps], in exact arithmetic, is [5 * ii <= steps]. *)
Lemma Qle_fifth (ii n : Z) :
  inject_Z ii <= (2 # 10) * inject_Z n <-> (5 * ii <= n)%Z.
Proof.
  unfold Qle, Qmult, inject_Z. cbn [Qnum Qden].
  change (Z.pos (10 * 1)) with 10%Z. lia.
Qed.

Lemma str_eq_refl (x : string) : str_eq x x = true.
Proof. apply String.eqb_refl. Qed.

(** ** Only the target is optimised *)

(** C6. Every parameter of the frozen network has its gradient disabled,
    the optimiser holds the target and nothing else, and after any number
    of iterations, and at the end of [stylize], the weights of the network
    are the loaded ones. *)
Theorem network_weights_never_updated (net : network) (a : args) (r : nat)
  (lg : list event) (k : nat) :
  Forall (fun p => requires_grad p = false) (parameters (freeze net)) /\
  match fst (run_iterations a k (mkWorld (freeze net) r lg)) with
  | Ok sus => opt_params (optimizer_v (snd sus)) = [RTarget]
  | Raise _ => True
  end /\
  vgg (snd (run_iterations a k (mkWorld (freeze net) r lg))) = freeze net /\
  weights (vgg (snd (run_iterations a k (mkWorld (freeze net) r lg))))
  = weights net /\
  weights (vgg (snd (stylize a (mkWorld (freeze net) r lg)))) = weights net.
Proof.
  split; [apply Forall_forall; apply freeze_frozen|].
  destruct (@run_iterations_frame a k (mkWorld (freeze net) r lg)
              (freeze_frozen net)) as [V T].
  destruct (@stylize_frame a (mkWorld (freeze net) r lg) (freeze_frozen net))
    as (evs & _ & V' & _).
  cbn [vgg] in V, V'.
  split.
  - destruct (fst (run_iterations a k (mkWorld (freeze net) r lg)));
      [apply T | exact I].
  - split; [exact V|]. split.
    + rewrite V. apply weights_freeze.
    + rewrite V'. apply weights_freeze.
Qed.

(** ** Weights by initialisation *)

(** C9. When the target starts blank or random, the weights of iteration
    [ii] are 1, 0.01 and 2 while [ii <= 0.2 * steps] and 10, 100 and 20
    afterwards, whatever the caller passed; when it starts as a clone of
    the content image, they are the caller's in every iteration. *)
Theorem weights_by_initialisation (net : network) (a : args) (r : nat)
  (lg : list event) :
  exists evs,
    log (snd (stylize a (mkWorld (freeze net) r lg))) = lg ++ evs /\
    forall ii cw sw tw cl sl tv tot,
      In (ELoss ii cw sw tw cl sl tv tot) evs ->
      (target_init a = "blank"%string \/ target_init a = "random"%string ->
         (inject_Z ii <= (2 # 10) * inject_Z (steps a) ->
            cw = 1 /\ sw = 1 # 100 /\ tw = 2) /\
         (~ inject_Z ii <= (2 # 10) * inject_Z (steps a) ->
            cw = 10 /\ sw = 100 /\ tw = 20)) /\
      (target_init a = "clone"%string ->
         cw = content_weight a /\ sw = style_weight a /\ tw = tv_weight a).
Proof.
  destruct (@stylize_frame a (mkWorld (freeze net) r lg) (freeze_frozen net))
    as (evs & L & _ & F).
  exists evs. split; [exact L|].
  intros ii cw sw tw cl sl tv tot Hin.
  rewrite Forall_forall in F. destruct (F _ Hin) as [Hw _].
  unfold weights_in_force, blank_or_random in Hw.
  split.
  - intros Hmode.
    assert (Hb : str_eq (target_init a) "blank" || str_eq (target_init a) "random"
                 = true).
    { destruct Hmode as [-> | ->]; reflexivity. }
    rewrite Hb in Hw. split; intro Hii.
    + apply Qle_fifth in Hii. apply Z.leb_le in Hii. rewrite Hii in Hw.
      inversion Hw. now repeat split.
    + destruct (Z.leb_spec (5 * ii) (steps a)) as [Hle|Hgt].
      * exfalso. apply Hii. now apply Qle_fifth.
      * inversion Hw. now repeat split.
  - intros Hc. rewrite Hc in Hw. cbn in Hw. inversion Hw. now repeat split.
Qed.

(** ** Runs that complete *)

Lemma range_length (n : Z) : length (range 1 (n + 1)) = Z.to_nat n.
Proof.
  unfold range. rewrite length_map, length_seq. f_equal. lia.
Qed.

Lemma flat_map_const {A B} (l : list A) (c : list B) :
  flat_map (fun _ => c) l = concat (repeat c (length l)).
Proof. induction l as [|x l IH]; simpl; [reflexivity | now rewrite IH]. Qed.

Lemma iteration_log (a : args) (su : setup) (ii : Z) (s s' : locals)
  (w w' : world) :
  iteration a su ii s w = (Ok s', w') ->
  exists pre post cw sw tw l,
    log w' = log w ++ pre ++ core_events ii cw sw tw (p_data (target s)) l ++ post /\
    marks pre = [] /\ marks post = [].
Proof.
  rewrite iteration_eq. destruct (pick_weights a ii s) as [[cw sw] tw]. cbv zeta.
  destruct (compute_losses su cw sw tw (vgg w) (p_data (target s))) as [l|e];
    [|discriminate].
  destruct (show_every a =? 0)%Z; [discriminate|].
  intro H. inversion H; subst; clear H.
  exists (overview_events a ii cw sw tw),
         (show_events a ii l
            (p_data (snd (fst (updated su s (vgg w) cw sw tw))))),
         cw, sw, tw, l.
  split; [cbn [log logged]; now rewrite <- !app_assoc|].
  split; [apply marks_overview | apply marks_show].
Qed.

(** Under the usual conditions a run reaches its export after [steps]
    iterations. *)
Lemma stylize_run (net : network) (a : args) (r : nat) (lg : list event) :
  regular net -> transform_ok -> adam_keeps_shape -> uninitialized_ok ->
  valid_init a = true -> show_every a <> 0%Z -> 0 <= lr a ->
  ((1 <= steps a)%Z \/ str_eq (target_init a) "clone" = false) ->
  exists su w1 t3 out pro its,
    stylize a (mkWorld (freeze net) r lg) = export_outcome a su t3 out w1 /\
    log w1 = lg ++ pro ++ its /\
    marks pro = [MForward; MForward] /\
    marks its = concat (repeat iteration_marks (Z.to_nat (steps a))).
Proof.
  intros Hreg Htr Hk Hu Hv Hshow Hlr Hsteps.
  set (w := mkWorld (freeze net) r lg).
  assert (Hreg' : regular (vgg w)) by (now apply regular_freeze).
  assert (Hf : frozen (vgg w)) by apply freeze_frozen.
  destruct (@prologue_ok ext a w Htr Hreg' Hv Hlr)
    as (su & s0 & w0 & h & wd & Ep & Hsu & Hs0 & Hh & Hw & V0 & pro & L0 & M0).
  destruct (@prologue_result ext a w w0 su s0 Ep) as (Ht & Hc & Hx0 & Hy0).
  destruct (@loop_succeeds ext a su (vgg w) 3 h wd (range 1 (steps a + 1))
              Hreg' Hf Hsu Hk Hh Hw Hshow s0 w0 V0 Hs0 Ht Hc)
    as (s & Es & Hs & Hloc & _).
  rewrite <- V0 in Hf.
  destruct (@loop_frame ext a su (range 1 (steps a + 1)) s0 w0 Hf Ht Hc)
    as (its & L1 & _ & _ & _ & K1).
  destruct (K1 s Es) as (_ & _ & M1).
  destruct (loop a su (range 1 (steps a + 1)) s0 w0) as [rs w1] eqn:El.
  cbn [fst snd] in *. subst rs.
  destruct (@export_ok ext a su s w1 h wd Hu Hs Hh Hw) as (t3 & out & Ex).
  { intro Hclone. apply Hloc. destruct Hsteps as [H1|H1]; [|congruence].
    intro Hnil. pose proof (range_length (steps a)) as Hlen.
    rewrite Hnil in Hlen. cbn in Hlen. lia. }
  exists su, w1, t3, out, pro, its.
  split.
  - unfold stylize. unfold bind at 1. rewrite Ep. cbn [fst snd].
    unfold bind at 1. rewrite El. exact Ex.
  - split; [now rewrite L1, L0, <- app_assoc|]. split; [exact M0|].
    now rewrite M1, flat_map_const, range_length.
Qed.

(** ** What an iteration does, and how a run chains its iterations *)

(** An iteration that returns has computed the losses of its target
    under the weights in force, cleared the gradients, differentiated
    the total loss and let the optimiser step, and logged all of it. *)
Lemma iteration_computes (a : args) (su : setup) (ii : Z) (s s' : locals)
  (w w' : world) :
  iteration a su ii s w = (Ok s', w') ->
  exists cw sw tw l pre post,
    pick_weights a ii s = (cw, sw, tw) /\
    compute_losses su cw sw tw (vgg w) (p_data (target s)) = Ok l /\
    step (optimizer_v s)
      (backward (total_loss_fn su cw sw tw)
         (zero_grad (optimizer_v s) (vgg w, target s)))
    = (vgg w', target s', optimizer_v s') /\
    log w' = log w ++ pre
             ++ core_events ii cw sw tw (p_data (target s)) l ++ post /\
    marks pre = [] /\ marks post = [] /\
    h_x s' = Some (l_h_x l) /\ w_x s' = Some (l_w_x l).
Proof.
  rewrite iteration_eq. destruct (pick_weights a ii s) as [[cw sw] tw]. cbv zeta.
  destruct (compute_losses su cw sw tw (vgg w) (p_data (target s))) as [l|e] eqn:El;
    [|discriminate].
  destruct (show_every a =? 0)%Z; [discriminate|].
  intro H. inversion H; subst; clear H.
  exists cw, sw, tw, l, (overview_events a ii cw sw tw),
         (show_events a ii l
            (p_data (snd (fst (updated su s (vgg w) cw sw tw))))).
  split; [reflexivity|]. split; [exact El|].
  split.
  { cbn [vgg logged target optimizer_v]. unfold updated.
    now destruct (step _ _) as [[n p] o]. }
  split; [cbn [log logged]; now rewrite <- !app_assoc|].
  split; [apply marks_overview|]. split; [apply marks_show|].
  split; reflexivity.
Qed.

(** An iteration that raises: the losses could not be computed, and
    nothing was updated; or they were, the optimiser has stepped, and
    [ii % show_every] divides by zero. *)
Lemma iteration_raises (a : args) (su : setup) (ii : Z) (s : locals)
  (w w' : world) (e : exn) :
  iteration a su ii s w = (Raise e, w') ->
  exists cw sw tw,
    pick_weights a ii s = (cw, sw, tw) /\
    ((compute_losses su cw sw tw (vgg w) (p_data (target s)) = Raise e /\
      vgg w' = vgg w /\ marks (skipn (length (log w)) (log w')) = [MForward]) \/
     (exists l,
        compute_losses su cw sw tw (vgg w) (p_data (target s)) = Ok l /\
        show_every a = 0%Z /\ e = ZeroDivisionError /\
        marks (skipn (length (log w)) (log w')) = iteration_marks)).
Proof.
  rewrite iteration_eq. destruct (pick_weights a ii s) as [[cw sw] tw]. cbv zeta.
  intro H. exists cw, sw, tw. split; [reflexivity|].
  destruct (compute_losses su cw sw tw (vgg w) (p_data (target s))) as [l|e0] eqn:El.
  - right. exists l. split; [reflexivity|].
    destruct (show_every a =? 0)%Z eqn:Es; [|discriminate].
    apply Z.eqb_eq in Es. inversion H; subst; clear H.
    split; [exact Es|]. split; [reflexivity|].
    cbn [log]. rewrite skipn_app, skipn_all, Nat.sub_diag. cbn [skipn app].
    now rewrite marks_app, marks_overview.
  - left. inversion H; subst; clear H. split; [reflexivity|].
    split; [reflexivity|].
    cbn [log logged]. rewrite skipn_app, skipn_all, Nat.sub_diag. cbn [skipn app].
    now rewrite marks_app, marks_overview.
Qed.

Lemma for_each_app {S} (body : Z -> S -> M S) (l1 l2 : list Z) :
  forall (s : S) (w : world),
    for_each body (l1 ++ l2) s w = bind (for_each body l1 s) (for_each body l2) w.
Proof.
  induction l1 as [|i l1 IH]; intros s w; cbn [app for_each]; [reflexivity|].
  unfold bind. destruct (body i s w) as [[s1|e] w1]; [|reflexivity].
  rewrite IH. reflexivity.
Qed.

Lemma firstn_seq_le (k : nat) :
  forall a m, (k <= m)%nat -> firstn k (seq a m) = seq a k.
Proof.
  induction k as [|k IH]; intros a m H; [reflexivity|].
  destruct m as [|m]; [lia|]. cbn [seq firstn]. f_equal. apply IH. lia.
Qed.

Lemma firstn_range_succ (n : Z) (k : nat) :
  (k < Z.to_nat n)%nat ->
  firstn (S k) (range 1 (n + 1))
  = firstn k (range 1 (n + 1)) ++ [(Z.of_nat k + 1)%Z].
Proof.
  intro H. unfold range. rewrite !firstn_map, !firstn_seq_le by lia.
  rewrite seq_S, map_app. cbn [map Nat.add]. do 2 f_equal. lia.
Qed.

(** The run stopped before its first iteration is the prologue. *)
Lemma run_iterations_zero (a : args) (w : world) :
  run_iterations a 0 w = prologue a w.
Proof.
  unfold run_iterations, bind, loop. cbn [firstn for_each]. unfold ret.
  now destruct (prologue a w) as [[[su s0]|e] w0].
Qed.

(** Iteration [k + 1] of a run starts from what the first [k] iterations
    have left, and a run that has raised is over. *)
Lemma run_iterations_next (a : args) (k : nat) (w : world) :
  (k < Z.to_nat (steps a))%nat ->
  run_iterations a (S k) w =
  match run_iterations a k w with
  | (Ok (su, s), w1) =>
      match iteration a su (Z.of_nat k + 1) s w1 with
      | (Ok s', w2) => (Ok (su, s'), w2)
      | (Raise e, w2) => (Raise e, w2)
      end
  | (Raise e, w1) => (Raise e, w1)
  end.
Proof.
  intro H. unfold run_iterations, bind.
  destruct (prologue a w) as [[[su s0]|e] w0]; [|reflexivity].
  cbn [fst snd]. unfold loop. rewrite firstn_range_succ by exact H.
  rewrite for_each_app. unfold bind.
  destruct (for_each (iteration a su) (firstn k (range 1 (steps a + 1))) s0 w0)
    as [[s|e] w1]; [|reflexivity].
  cbn [for_each]. unfold bind, ret.
  now destruct (iteration a su (Z.of_nat k + 1) s w1) as [[s'|e] w2].
Qed.

(** [stylize] is the run of all its iterations, followed by the export. *)
Lemma stylize_after_iterations (a : args) (w : world) :
  stylize a w =
  match run_iterations a (Z.to_nat (steps a)) w with
  | (Ok (su, s), w1) => export a su s w1
  | (Raise e, w1) => (Raise e, w1)
  end.
Proof.
  unfold stylize, run_iterations, bind.
  destruct (prologue a w) as [[[su s0]|e] w0]; [|reflexivity].
  cbn [fst snd]. rewrite firstn_all2 by (rewrite range_length; apply le_n).
  now destruct (loop a su (range 1 (steps a + 1)) s0 w0) as [[s|e] w1].
Qed.

(** Under the usual conditions the first [k] iterations of a run
    complete, whatever [k]. *)
Lemma run_iterations_succeeds (net : network) (a : args) (r : nat)
  (lg : list event) (k : nat) :
  regular net -> transform_ok -> adam_keeps_shape ->
  valid_init a = true -> show_every a <> 0%Z -> 0 <= lr a ->
  exists su s w1,
    run_iterations a k (mkWorld (freeze net) r lg) = (Ok (su, s), w1).
Proof.
  intros Hreg Htr Hk Hv Hshow Hlr.
  set (w := mkWorld (freeze net) r lg).
  assert (Hreg' : regular (vgg w)) by (now apply regular_freeze).
  assert (Hf : frozen (vgg w)) by apply freeze_frozen.
  destruct (@prologue_ok ext a w Htr Hreg' Hv Hlr)
    as (su & s0 & w0 & h & wd & Ep & Hsu & Hs0 & Hh & Hw & V0 & _).
  destruct (@prologue_result ext a w w0 su s0 Ep) as (Ht & Hc & _).
  destruct (@loop_succeeds ext a su (vgg w) 3 h wd
              (firstn k (range 1 (steps a + 1)))
              Hreg' Hf Hsu Hk Hh Hw Hshow s0 w0 V0 Hs0 Ht Hc)
    as (s & Es & _).
  destruct (loop a su (firstn k (range 1 (steps a + 1))) s0 w0) as [rs w1] eqn:El.
  cbn [fst] in Es. subst rs.
  exists su, s, w1. unfold run_iterations, bind. rewrite Ep. cbn [fst snd].
  now rewrite El.
Qed.

(** Every iteration of such a run completes. *)
Lemma run_iterations_iterate (net : network) (a : args) (r : nat)
  (lg : list event) (k : nat) :
  regular net -> transform_ok -> adam_keeps_shape ->
  valid_init a = true -> show_every a <> 0%Z -> 0 <= lr a ->
  (k < Z.to_nat (steps a))%nat ->
  exists su s w1 s' w2,
    run_iterations a k (mkWorld (freeze net) r lg) = (Ok (su, s), w1) /\
    iteration a su (Z.of_nat k + 1) s w1 = (Ok s', w2) /\
    run_iterations a (S k) (mkWorld (freeze net) r lg) = (Ok (su, s'), w2).
Proof.
  intros Hreg Htr Hk Hv Hshow Hlr Hlt.
  destruct (@run_iterations_succeeds net a r lg k Hreg Htr Hk Hv Hshow Hlr)
    as (su & s & w1 & E1).
  destruct (@run_iterations_succeeds net a r lg (S k) Hreg Htr Hk Hv Hshow Hlr)
    as (su' & s' & w2 & E2).
  rewrite (run_iterations_next a _ Hlt), E1 in E2.
  destruct (iteration a su (Z.of_nat k + 1) s w1) as [[s1|e] w3] eqn:Ei;
    [|discriminate].
  inversion E2; subst. exists su', s, w1, s', w2.
  split; [exact E1|]. split; [exact Ei|].
  now rewrite (run_iterations_next a _ Hlt), E1, Ei.
Qed.

(** ** Where the exception for the output format can come from *)

Ltac not_format :=
  let H := fresh in
  intros [? H]; cbn in H; solve [discriminate H | inversion H].

Ltac quiet_leaf :=
  let e := fresh "e" in
  let H := fresh "H" in
  intros e H;
  repeat match type of H with
         | context [match ?x with _ => _ end] => destruct x
         | context [if ?x then _ else _] => destruct x
         end;
  try discriminate H; inversion H; not_format.

Lemma quiet_ok {A} (x : A) : quiet (Ok x).
Proof. intros e H. discriminate H. Qed.

Lemma quiet_bind {A B} (r : res A) (k : A -> res B) :
  quiet r -> (forall x, quiet (k x)) -> quiet (rbind r k).
Proof.
  intros Hr Hk e H. destruct r as [x|e0]; cbn in H.
  - now apply (Hk x).
  - inversion H; subst. now apply Hr.
Qed.

Lemma quiet_lookup {V} (d : dict V) (k : string) : quiet (dict_lookup d k).
Proof. unfold dict_lookup. quiet_leaf. Qed.

Lemma quiet_view (T : tensor) (shp : list nat) : quiet (view T shp).
Proof. unfold view. quiet_leaf. Qed.

Lemma quiet_t (T : tensor) : quiet (t T).
Proof. unfold t. quiet_leaf. Qed.

Lemma quiet_mm (A B : tensor) : quiet (mm A B).
Proof. unfold mm. quiet_leaf. Qed.

Lemma quiet_sub (A B : tensor) : quiet (sub A B).
Proof. unfold sub. quiet_leaf. Qed.

Lemma quiet_size_at (T : tensor) (k : nat) : quiet (size_at T k).
Proof. unfold size_at. quiet_leaf. Qed.

Lemma quiet_slice_h (T : tensor) (lo hi : option Z) : quiet (slice_h T lo hi).
Proof. unfold slice_h. quiet_leaf. Qed.

Lemma quiet_slice_w (T : tensor) (lo hi : option Z) : quiet (slice_w T lo hi).
Proof. unfold slice_w. quiet_leaf. Qed.

Lemma quiet_unpack4 (shp : list nat) : quiet (unpack4 shp).
Proof. unfold unpack4. quiet_leaf. Qed.

Lemma quiet_take3 (T : tensor) : quiet (take3 T).
Proof. unfold take3. quiet_leaf. Qed.

Lemma quiet_gram_matrix (T : tensor) : quiet (gram_matrix T).
Proof.
  unfold gram_matrix.
  destruct (shape T) as [|b [|d [|h [|w [|x l]]]]]; try quiet_leaf.
  apply quiet_bind; [apply quiet_view|]. intro V.
  apply quiet_bind; [apply quiet_t|]. intro Vt. apply quiet_mm.
Qed.

Lemma quiet_mse (a b : tensor) : quiet (mse a b).
Proof.
  unfold mse. apply quiet_bind; [apply quiet_sub|]. intro d. apply quiet_ok.
Qed.

Lemma quiet_content_loss (clw : dict Q) (tf cf : dict tensor) :
  quiet (content_loss_of clw tf cf).
Proof.
  unfold content_loss_of. generalize 0. generalize (keys clw).
  induction l as [|layer ks IH]; intro acc; cbn [content_loss_from];
    [apply quiet_ok|].
  apply quiet_bind; [apply quiet_lookup|]. intro wl.
  apply quiet_bind; [apply quiet_lookup|]. intro x.
  apply quiet_bind; [apply quiet_lookup|]. intro y.
  apply quiet_bind; [apply quiet_mse|]. intro m. apply IH.
Qed.

Lemma quiet_style_loss (slw : dict Q) (tf sg : dict tensor) :
  quiet (style_loss_of slw tf sg).
Proof.
  unfold style_loss_of. generalize 0. generalize (keys slw).
  induction l as [|layer ks IH]; intro acc; cbn [style_loss_from];
    [apply quiet_ok|].
  apply quiet_bind; [apply quiet_lookup|]. intro x.
  apply quiet_bind; [apply quiet_unpack4|]. intros [[[b d] h] w].
  apply quiet_bind; [apply quiet_gram_matrix|]. intro g.
  apply quiet_bind; [apply quiet_lookup|]. intro g'.
  apply quiet_bind; [apply quiet_lookup|]. intro wl.
  apply quiet_bind; [apply quiet_mse|]. intro m. apply IH.
Qed.

Lemma quiet_tv_loss (T : tensor) : quiet (tv_loss_of T).
Proof.
  unfold tv_loss_of.
  apply quiet_bind; [apply quiet_size_at|]. intro b.
  apply quiet_bind; [apply quiet_size_at|]. intro h.
  apply quiet_bind; [apply quiet_size_at|]. intro w.
  apply quiet_bind; [apply quiet_slice_h|]. intro a1.
  apply quiet_bind; [apply quiet_slice_h|]. intro a0.
  apply quiet_bind; [apply quiet_sub|]. intro dh.
  apply quiet_bind; [apply quiet_slice_w|]. intro b1.
  apply quiet_bind; [apply quiet_slice_w|]. intro b0.
  apply quiet_bind; [apply quiet_sub|]. intro dw. apply quiet_ok.
Qed.

Lemma quiet_compute_losses (su : setup) (cw sw tw : Q) (net : network)
  (tgt : tensor) :
  quiet (compute_losses su cw sw tw net tgt).
Proof.
  unfold compute_losses.
  apply quiet_bind; [apply quiet_content_loss|]. intro q1.
  apply quiet_bind; [apply quiet_style_loss|]. intro q2.
  apply quiet_bind; [apply quiet_tv_loss|]. intros [[tv h] w]. apply quiet_ok.
Qed.

Lemma quiet_Adam (params : list ref) (lr : Q) : quiet (Adam params lr).
Proof. unfold Adam. quiet_leaf. Qed.

Lemma quiet_gram_all (sf : dict tensor) (ks : list string) (acc : dict tensor) :
  quiet (gram_all ks sf acc).
Proof.
  revert acc. induction ks as [|layer ks IH]; intro acc; cbn [gram_all];
    [apply quiet_ok|].
  apply quiet_bind; [apply quiet_lookup|]. intro f.
  apply quiet_bind; [apply quiet_gram_matrix|]. intro g. apply IH.
Qed.

Lemma calm_ret {A} (x : A) : calm (ret x).
Proof. intros w e w' H. discriminate H. Qed.

Lemma calm_emit (e : event) : calm (emit e).
Proof. intros w e0 w' H. discriminate H. Qed.

Lemma calm_get_vgg : calm get_vgg.
Proof. intros w e0 w' H. discriminate H. Qed.

Lemma calm_lift {A} (r : res A) : quiet r -> calm (lift r).
Proof. intros Hr w e w' H. unfold lift in H. inversion H. now apply Hr. Qed.

Lemma calm_bind {A B} (m : M A) (k : A -> M B) :
  calm m -> (forall x, calm (k x)) -> calm (bind m k).
Proof.
  intros Hm Hk w e w' H. unfold bind in H.
  destruct (m w) as [[x|e0] w1] eqn:E.
  - now apply (Hk x w1 e w').
  - inversion H; subst. now apply (Hm w e w').
Qed.

Lemma calm_for_each {S} (body : Z -> S -> M S) (l : list Z) :
  (forall i s, calm (body i s)) -> forall s, calm (for_each body l s).
Proof.
  intro H. induction l as [|i l IH]; intro s; cbn [for_each].
  - apply calm_ret.
  - apply calm_bind; [apply H | exact IH].
Qed.

Lemma calm_load_image (path : string) (max_size : nat) (shp : option (list nat)) :
  calm (load_image path max_size shp).
Proof.
  unfold load_image.
  apply calm_bind; [apply calm_emit|]. intros _.
  apply calm_bind; [apply calm_lift, quiet_take3|]. intro x. apply calm_ret.
Qed.

Lemma calm_init_target (a : args) (x : tensor) : calm (init_target a x).
Proof.
  unfold init_target.
  destruct (str_eq (target_init a) "clone"); [apply calm_ret|].
  destruct (str_eq (target_init a) "blank"); [apply calm_ret|].
  destruct (str_eq (target_init a) "random").
  - intros w e w' H. discriminate H.
  - intros w e w' H. unfold raise in H. inversion H. not_format.
Qed.

Lemma calm_prologue (a : args) : calm (prologue a).
Proof.
  unfold prologue.
  apply calm_bind; [apply calm_load_image|]. intro cimg.
  apply calm_bind; [apply calm_load_image|]. intro simg.
  apply calm_bind; [apply calm_emit|]. intros _.
  apply calm_bind; [apply calm_init_target|]. intro p.
  apply calm_bind; [apply calm_emit|]. intros _.
  apply calm_bind; [apply calm_lift, quiet_Adam|]. intro o.
  apply calm_bind; [apply calm_emit|]. intros _.
  apply calm_bind; [apply calm_get_vgg|]. intro net.
  apply calm_bind; [apply calm_emit|]. intros _.
  apply calm_bind; [apply calm_emit|]. intros _.
  apply calm_bind; [apply calm_lift, quiet_gram_all|]. intro gms.
  apply calm_bind; [apply calm_emit|]. intros _.
  apply calm_ret.
Qed.

Lemma calm_iteration (a : args) (su : setup) (ii : Z) (s : locals) :
  calm (iteration a su ii s).
Proof.
  intros w e w' H. rewrite iteration_eq in H.
  destruct (pick_weights a ii s) as [[cw sw] tw]. cbv zeta in H.
  destruct (compute_losses su cw sw tw (vgg w) (p_data (target s))) as [l|e0] eqn:E.
  - destruct (show_every a =? 0)%Z; [|discriminate H].
    inversion H. not_format.
  - inversion H; subst.
    now apply (@quiet_compute_losses su cw sw tw (vgg w) (p_data (target s))).
Qed.

Lemma calm_loop (a : args) (su : setup) (iis : list Z) (s : locals) :
  calm (loop a su iis s).
Proof. apply calm_for_each. intros i s1. apply calm_iteration. Qed.

(** The exception for the output format is raised by the export: the
    prologue and the loop have completed. *)
Lemma format_error_from_export (a : args) (w w' : world) (e : exn) :
  stylize a w = (Raise e, w') -> format_error e ->
  exists su s0 w0 s w1,
    prologue a w = (Ok (su, s0), w0) /\
    loop a su (range 1 (steps a + 1)) s0 w0 = (Ok s, w1) /\
    export a su s w1 = (Raise e, w').
Proof.
  intros H Hf. unfold stylize in H. unfold bind at 1 in H.
  destruct (prologue a w) as [[[su s0]|e0] w0] eqn:Ep.
  - cbn [fst snd] in H. unfold bind at 1 in H.
    destruct (loop a su (range 1 (steps a + 1)) s0 w0) as [[s|e1] w1] eqn:El.
    + now exists su, s0, w0, s, w1.
    + inversion H; subst. exfalso.
      now apply (@calm_loop a su (range 1 (steps a + 1)) s0 w0 e w').
  - inversion H; subst. exfalso. now apply (@calm_prologue a w e w').
Qed.

Lemma load_image_log (path : string) (max_size : nat) (shp : option (list nat))
  (w w1 : world) (x : tensor) :
  load_image path max_size shp w = (Ok x, w1) -> w1 = logged w [ELoadImage path].
Proof.
  unfold load_image, bind, emit, lift, ret. cbn [fst snd].
  destruct (take3 _); intro H; inversion H. reflexivity.
Qed.

Lemma init_target_log (a : args) (x : tensor) (w w1 : world) (p : param) :
  init_target a x w = (Ok p, w1) -> log w1 = log w /\ vgg w1 = vgg w.
Proof.
  unfold init_target, ret, raise.
  destruct (str_eq (target_init a) "clone"); [intro H; inversion H; now subst|].
  destruct (str_eq (target_init a) "blank"); [intro H; inversion H; now subst|].
  destruct (str_eq (target_init a) "random"); intro H; inversion H. now split.
Qed.

(** A prologue that completes has logged the two forward passes of the
    content and the style image, and no other landmark. *)
Lemma prologue_log (a : args) (w w0 : world) (su : setup) (s0 : locals) :
  prologue a w = (Ok (su, s0), w0) ->
  exists evs, log w0 = log w ++ evs /\ marks evs = [MForward; MForward].
Proof.
  unfold prologue. intro H.
  apply bind_ok in H. destruct H as (cimg & w1 & H1 & H).
  apply bind_ok in H. destruct H as (simg & w2 & H2 & H).
  apply bind_ok in H. destruct H as (u3 & w3 & H3 & H).
  apply bind_ok in H. destruct H as (p & w4 & H4 & H).
  apply bind_ok in H. destruct H as (u5 & w5 & H5 & H).
  apply bind_ok in H. destruct H as (o & wo & Ho & H).
  apply bind_ok in H. destruct H as (u6 & w6 & H6 & H).
  apply bind_ok in H. destruct H as (net & w7 & H7 & H).
  apply bind_ok in H. destruct H as (u8 & w8 & H8 & H).
  apply bind_ok in H. destruct H as (u9 & w9 & H9 & H).
  apply bind_ok in H. destruct H as (gms & w10 & H10 & H).
  apply bind_ok in H. destruct H as (u11 & w11 & H11 & H).
  apply load_image_log in H1, H2. apply init_target_log in H4.
  destruct H4 as [L4 _].
  unfold print in *. rewrite emit_run in H3, H5, H6, H8, H9, H11.
  unfold get_vgg in H7. unfold lift in Ho, H10. unfold ret in H.
  inversion H3; inversion H5; inversion Ho; inversion H6; inversion H7;
    inversion H8; inversion H9; inversion H10; inversion H11; inversion H; subst.
  cbn [log logged]. rewrite L4. cbn [log logged].
  eexists. split; [repeat rewrite <- app_assoc; reflexivity | reflexivity].
Qed.

(** With an output format it does not know, the export logs nothing. *)
Lemma export_invalid_log (a : args) (su : setup) (s : locals) (w : world) :
  str_eq (out_format a) "image-only" = false ->
  str_eq (out_format a) "comparison" = false ->
  log (snd (export a su s w)) = log w.
Proof.
  intros H1 H2. unfold export. rewrite H1, H2.
  destruct (str_eq (target_init a) "clone"); [|reflexivity].
  unfold bind, read_local, lift, ret, raise.
  destruct (h_x s); [|reflexivity]. destruct (w_x s); [|reflexivity].
  destruct (view_planes _ _ _); [|reflexivity].
  destruct (unnormalize _); reflexivity.
Qed.

(** ** Total loss *)

Lemma total_loss_fn_sum (su : setup) (cw sw tw : Q) (netw : network)
  (tgt : tensor) :
  total_loss_fn su cw sw tw (netw, tgt) =
  match compute_losses su cw sw tw netw tgt with
  | Ok l => cw * content_loss l + sw * style_loss l + tw * tv_loss l
  | Raise _ => 0
  end.
Proof.
  unfold total_loss_fn. cbn [fst snd].
  destruct (compute_losses su cw sw tw netw tgt) as [l|e] eqn:E; [|reflexivity].
  now apply total_of_compute with (1 := E).
Qed.

(** C5. Every iteration computes the content, the style and the
    total-variation loss of its target, and the total loss that is
    optimised is the sum of the three, each multiplied by its weight:
    an iteration that returns has computed the three losses from the
    features of its current target under the weights in force, logged
    them with their weighted sum, and replaced the target by what
    [zero_grad], [backward] on that weighted sum and [step] make of it;
    the function [backward] differentiates is the weighted sum of the
    three losses at every point; iteration [k + 1] of a run starts from
    what the first [k] have left; and under the usual conditions every
    iteration of a run returns. *)
Theorem total_loss_weighted_sum (net : network) (a : args) (r : nat)
  (lg : list event) :
  (forall su ii s w s' w',
     iteration a su ii s w = (Ok s', w') ->
     exists cw sw tw l pre post,
       pick_weights a ii s = (cw, sw, tw) /\
       compute_losses su cw sw tw (vgg w) (p_data (target s)) = Ok l /\
       total_loss l = cw * content_loss l + sw * style_loss l + tw * tv_loss l /\
       total_loss_fn su cw sw tw (vgg w, p_data (target s)) = total_loss l /\
       step (optimizer_v s)
         (backward (total_loss_fn su cw sw tw)
            (zero_grad (optimizer_v s) (vgg w, target s)))
       = (vgg w', target s', optimizer_v s') /\
       log w' = log w ++ pre
                ++ [EForward (p_data (target s));
                    ELoss ii cw sw tw (content_loss l) (style_loss l)
                      (tv_loss l) (total_loss l);
                    EZeroGrad; EBackward; EStep]
                ++ post /\
       marks pre = [] /\ marks post = []) /\
  (forall su cw sw tw netw tgt l,
     compute_losses su cw sw tw netw tgt = Ok l ->
     content_loss_of (content_layers_weights su) (get_features tgt netw None)
       (content_features su) = Ok (content_loss l) /\
     style_loss_of (style_layers_weights su) (get_features tgt netw None)
       (style_gms su) = Ok (style_loss l) /\
     tv_loss_of tgt = Ok (tv_loss l, l_h_x l, l_w_x l) /\
     total_loss l = cw * content_loss l + sw * style_loss l + tw * tv_loss l /\
     total_loss_fn su cw sw tw (netw, tgt) = total_loss l) /\
  (forall su cw sw tw netw tgt,
     total_loss_fn su cw sw tw (netw, tgt) =
     match compute_losses su cw sw tw netw tgt with
     | Ok l => cw * content_loss l + sw * style_loss l + tw * tv_loss l
     | Raise _ => 0
     end) /\
  (exists evs,
     log (snd (stylize a (mkWorld (freeze net) r lg))) = lg ++ evs /\
     forall ii cw sw tw cl sl tv tot,
       In (ELoss ii cw sw tw cl sl tv tot) evs ->
       tot = cw * cl + sw * sl + tw * tv) /\
  (forall k, (k < Z.to_nat (steps a))%nat ->
     run_iterations a (S k) (mkWorld (freeze net) r lg) =
     match run_iterations a k (mkWorld (freeze net) r lg) with
     | (Ok (su, s), w1) =>
         match iteration a su (Z.of_nat k + 1) s w1 with
         | (Ok s', w2) => (Ok (su, s'), w2)
         | (Raise e, w2) => (Raise e, w2)
         end
     | (Raise e, w1) => (Raise e, w1)
     end) /\
  (regular net -> transform_ok -> adam_keeps_shape ->
   (target_init a = "clone" \/ target_init a = "blank"
    \/ target_init a = "random")%string ->
   show_every a <> 0%Z -> 0 <= lr a ->
   forall k, (k < Z.to_nat (steps a))%nat ->
     exists su s w1 s' w2,
       run_iterations a k (mkWorld (freeze net) r lg) = (Ok (su, s), w1) /\
       iteration a su (Z.of_nat k + 1) s w1 = (Ok s', w2) /\
       run_iterations a (S k) (mkWorld (freeze net) r lg) = (Ok (su, s'), w2)).
Proof.
  assert (Hcomp : forall su cw sw tw netw tgt l,
            compute_losses su cw sw tw netw tgt = Ok l ->
            content_loss_of (content_layers_weights su) (get_features tgt netw None)
              (content_features su) = Ok (content_loss l) /\
            style_loss_of (style_layers_weights su) (get_features tgt netw None)
              (style_gms su) = Ok (style_loss l) /\
            tv_loss_of tgt = Ok (tv_loss l, l_h_x l, l_w_x l) /\
            total_loss l = cw * content_loss l + sw * style_loss l + tw * tv_loss l /\
            total_loss_fn su cw sw tw (netw, tgt) = total_loss l).
  { intros su cw sw tw netw tgt l H.
    unfold total_loss_fn. cbn [fst snd]. rewrite H.
    unfold compute_losses in H.
    destruct (content_loss_of _ _ _) as [q1|]; cbn [rbind] in H; [|discriminate].
    destruct (style_loss_of _ _ _) as [q2|]; cbn [rbind] in H; [|discriminate].
    destruct (tv_loss_of tgt) as [[[tv hx] wx]|]; cbn [rbind] in H; [|discriminate].
    inversion H; subst l; clear H. cbn. now repeat split. }
  split; [|split; [exact Hcomp|split; [|split; [|split]]]].
  - intros su ii s w s' w' H.
    destruct (@iteration_computes a su ii s s' w w' H)
      as (cw & sw & tw & l & pre & post & Hp & Hl & Hst & Hlog & Mp & Mq & _).
    destruct (Hcomp su cw sw tw (vgg w) (p_data (target s)) l Hl)
      as (_ & _ & _ & Htot & Hfn).
    exists cw, sw, tw, l, pre, post. now repeat split.
  - intros su cw sw tw netw tgt. apply total_loss_fn_sum.
  - destruct (@stylize_frame a (mkWorld (freeze net) r lg) (freeze_frozen net))
      as (evs & L & _ & F).
    exists evs. split; [exact L|].
    intros ii cw sw tw cl sl tv tot Hin.
    rewrite Forall_forall in F. now destruct (F _ Hin).
  - intros k Hk. now apply run_iterations_next.
  - intros Hreg Htr Hk Hinit Hshow Hlr k Hlt.
    assert (Hv : valid_init a = true).
    { unfold valid_init. destruct Hinit as [-> | [-> | ->]]; reflexivity. }
    now apply run_iterations_iterate.
Qed.

(** ** Termination and the shape of a run *)

(** An export that returns has logged one call that saves. *)
Lemma export_ok_log (a : args) (su : setup) (s : locals) (w w' : world) :
  export a su s w = (Ok tt, w') ->
  exists out, log w' = log w ++ [out] /\ marks [out] = [MExport].
Proof.
  unfold export. intro H.
  apply bind_ok in H. destruct H as ([t3 out] & w1 & H1 & H).
  assert (L1 : log w1 = log w).
  { destruct (str_eq (target_init a) "clone").
    - repeat (apply bind_ok in H1; destruct H1 as (? & ? & ?H & H1)).
      unfold read_local in *. unfold lift, ret in *.
      destruct (h_x s); [|discriminate]. destruct (w_x s); [|discriminate].
      unfold ret in *.
      repeat match goal with
             | E : (_, _) = (_, _) |- _ => inversion E; clear E; subst
             end.
      reflexivity.
    - unfold ret in H1. now inversion H1. }
  destruct (str_eq (out_format a) "image-only").
  - apply bind_ok in H. destruct H as (u & w2 & H2 & H).
    rewrite emit_run in H2. unfold lift in H. inversion H2; inversion H; subst.
    eexists. split; [cbn [log logged]; now rewrite L1 | reflexivity].
  - destruct (str_eq (out_format a) "comparison"); [|discriminate H].
    apply bind_ok in H. destruct H as (u & w2 & H2 & H).
    rewrite emit_run in H2. unfold lift in H. inversion H2; inversion H; subst.
    eexists. split; [cbn [log logged]; now rewrite L1 | reflexivity].
Qed.

(** C7, as the code has it.  For every [steps >= 1], a [target_init] among
    ["clone"], ["blank"] and ["random"], an [out_format] among
    ["image-only"] and ["comparison"], a [show_every] other than zero
    and a learning rate that is not negative, the loop of [stylize] runs
    exactly [steps] iterations and ends; each iteration runs one forward
    pass, on the current target, computes the losses once and lets the
    optimiser step once; and the export runs once, after the loop.

    A run is the prologue, the iterations 1 to [steps], each from what
    the one before has left, and the export.  An iteration that returns
    has computed the losses from the features of its target, updated the
    target with [zero_grad], [backward] and [step], and logged a forward
    pass, a loss computation and a step, in this order and once each.
    Under the conditions every iteration returns, and the run ends as
    the call that saves ends; a run that returns has logged the
    prologue, [steps] iterations and one export. *)
Theorem stylize_runs_steps_iterations (net : network) (a : args) (r : nat)
  (lg : list event) :
  (forall w',
     stylize a (mkWorld (freeze net) r lg) = (Ok tt, w') ->
     exists pro its out,
       log w' = lg ++ pro ++ its ++ [out] /\
       marks pro = [MForward; MForward] /\
       marks its = concat (repeat [MForward; MLoss; MStep] (Z.to_nat (steps a))) /\
       marks [out] = [MExport]) /\
  (regular net -> transform_ok -> adam_keeps_shape -> uninitialized_ok ->
   (1 <= steps a)%Z -> show_every a <> 0%Z -> 0 <= lr a ->
   (target_init a = "clone" \/ target_init a = "blank"
    \/ target_init a = "random")%string ->
   (out_format a = "image-only" \/ out_format a = "comparison")%string ->
   (forall k, (k < Z.to_nat (steps a))%nat ->
      exists su s w1 s' w2,
        run_iterations a k (mkWorld (freeze net) r lg) = (Ok (su, s), w1) /\
        iteration a su (Z.of_nat k + 1) s w1 = (Ok s', w2) /\
        run_iterations a (S k) (mkWorld (freeze net) r lg) = (Ok (su, s'), w2)) /\
   exists su t3 img w' pro its out,
     stylize a (mkWorld (freeze net) r lg)
     = (if str_eq (out_format a) "image-only"
        then save_image (out_path a) img
        else save_figure (out_path a) t3 (content su) (style su),
        w') /\
     log w' = lg ++ pro ++ its ++ [out] /\
     marks pro = [MForward; MForward] /\
     marks its = concat (repeat [MForward; MLoss; MStep] (Z.to_nat (steps a))) /\
     marks [out] = [MExport]) /\
  (forall su ii s w s' w',
     iteration a su ii s w = (Ok s', w') ->
     exists cw sw tw l pre post,
       pick_weights a ii s = (cw, sw, tw) /\
       compute_losses su cw sw tw (vgg w) (p_data (target s)) = Ok l /\
       step (optimizer_v s)
         (backward (total_loss_fn su cw sw tw)
            (zero_grad (optimizer_v s) (vgg w, target s)))
       = (vgg w', target s', optimizer_v s') /\
       log w' = log w ++ pre
                ++ [EForward (p_data (target s));
                    ELoss ii cw sw tw (content_loss l) (style_loss l)
                      (tv_loss l) (total_loss l);
                    EZeroGrad; EBackward; EStep]
                ++ post /\
       marks pre = [] /\ marks post = [] /\
       h_x s' = Some (l_h_x l) /\ w_x s' = Some (l_w_x l)) /\
  (run_iterations a 0 (mkWorld (freeze net) r lg)
   = prologue a (mkWorld (freeze net) r lg) /\
   (forall k, (k < Z.to_nat (steps a))%nat ->
      run_iterations a (S k) (mkWorld (freeze net) r lg) =
      match run_iterations a k (mkWorld (freeze net) r lg) with
      | (Ok (su, s), w1) =>
          match iteration a su (Z.of_nat k + 1) s w1 with
          | (Ok s', w2) => (Ok (su, s'), w2)
          | (Raise e, w2) => (Raise e, w2)
          end
      | (Raise e, w1) => (Raise e, w1)
      end) /\
   stylize a (mkWorld (freeze net) r lg) =
   match run_iterations a (Z.to_nat (steps a)) (mkWorld (freeze net) r lg) with
   | (Ok (su, s), w1) => export a su s w1
   | (Raise e, w1) => (Raise e, w1)
   end) /\
  (forall su s w w',
     export a su s w = (Ok tt, w') ->
     exists out, log w' = log w ++ [out] /\ marks [out] = [MExport]).
Proof.
  split; [|split; [|split; [|split]]].
  - intros w' H. unfold stylize in H.
    apply bind_ok in H. destruct H as ([su s0] & w0 & Ep & H).
    apply bind_ok in H. destruct H as (s & w1 & El & Ex). cbn [fst snd] in El, Ex.
    destruct (@prologue_log a _ w0 su s0 Ep) as (pro & L0 & Mp).
    destruct (@prologue_result ext a _ w0 su s0 Ep) as (Ht & Hc & _).
    destruct (grows_prologue a (mkWorld (freeze net) r lg)) as (e0 & _ & _ & V0).
    rewrite Ep in V0. cbn [snd vgg] in V0.
    assert (Hfr : frozen (vgg w0)) by (rewrite V0; apply freeze_frozen).
    destruct (@loop_frame ext a su (range 1 (steps a + 1)) s0 w0 Hfr Ht Hc)
      as (its & L1 & _ & _ & _ & K1).
    rewrite El in L1, K1. cbn [fst snd] in L1, K1.
    destruct (K1 s eq_refl) as (_ & _ & Mi).
    rewrite flat_map_const, range_length in Mi.
    destruct (@export_ok_log a su s w1 w' Ex) as (out & Lx & Mo).
    exists pro, its, out.
    split; [now rewrite Lx, L1, L0, <- !app_assoc|]. now repeat split.
  - intros Hreg Htr Hk Hu Hsteps Hshow Hlr Hinit Hfmt.
    assert (Hv : valid_init a = true).
    { unfold valid_init. destruct Hinit as [-> | [-> | ->]]; reflexivity. }
    split.
    { intros k Hlt. now apply run_iterations_iterate. }
    destruct (@stylize_run net a r lg Hreg Htr Hk Hu Hv Hshow Hlr (or_introl Hsteps))
      as (su & w1 & t3 & out & pro & its & E & L & Mp & Mi).
    unfold export_outcome in E.
    destruct Hfmt as [Hf | Hf]; rewrite Hf in *; cbn [str_eq String.eqb] in *.
    + exists su, t3, out, (logged w1 [ESaveImage (out_path a) out]), pro, its,
             (ESaveImage (out_path a) out).
      split; [exact E|]. split; [cbn [log logged]; now rewrite L, <- !app_assoc|].
      split; [exact Mp|]. split; [exact Mi | reflexivity].
    + exists su, t3, out,
             (logged w1 [ESaveFigure (out_path a) t3 (content su) (style su)]),
             pro, its, (ESaveFigure (out_path a) t3 (content su) (style su)).
      split; [exact E|]. split; [cbn [log logged]; now rewrite L, <- !app_assoc|].
      split; [exact Mp|]. split; [exact Mi | reflexivity].
  - intros su ii s w s' w' H. now apply iteration_computes.
  - split; [apply run_iterations_zero|].
    split; [intros k Hlt; now apply run_iterations_next|].
    apply stylize_after_iterations.
  - intros su s w w' H. now apply export_ok_log with (1 := H).
Qed.

(** ** An invalid output format *)

(** C10. When [out_format] is neither ["image-only"] nor ["comparison"],
    [stylize] raises [ValueError] for it only after its [steps]
    iterations: whenever the exception is raised the log holds the
    prologue and [steps] complete iterations and no export, and under the
    usual conditions, which include a learning rate that [Adam] accepts,
    it is raised. *)
Theorem invalid_format_rejected_after_loop (net : network) (a : args) (r : nat)
  (lg : list event) :
  out_format a <> "image-only"%string -> out_format a <> "comparison"%string ->
  (forall w',
     stylize a (mkWorld (freeze net) r lg)
     = (Raise (ValueError ("Unexpected Output Format" ++ out_format a)), w') ->
     exists pro its,
       log w' = lg ++ pro ++ its /\
       marks pro = [MForward; MForward] /\
       marks its = concat (repeat [MForward; MLoss; MStep] (Z.to_nat (steps a))) /\
       ~ In MExport (marks (pro ++ its))) /\
  (regular net -> transform_ok -> adam_keeps_shape -> uninitialized_ok ->
   ((1 <= steps a)%Z \/ target_init a <> "clone"%string) ->
   show_every a <> 0%Z -> 0 <= lr a ->
   (target_init a = "clone" \/ target_init a = "blank"
    \/ target_init a = "random")%string ->
   exists w',
     stylize a (mkWorld (freeze net) r lg)
     = (Raise (ValueError ("Unexpected Output Format" ++ out_format a)), w')).
Proof.
  intros Hf1 Hf2. apply String.eqb_neq in Hf1, Hf2. split.
  - intros w' H.
    destruct (@format_error_from_export a _ w' _ H)
      as (su & s0 & w0 & s & w1 & Ep & El & Ex); [now eexists|].
    destruct (@prologue_log a _ w0 su s0 Ep) as (pro & L0 & Mp).
    destruct (@prologue_result ext a _ w0 su s0 Ep) as (Ht & Hc & _).
    destruct (grows_prologue a (mkWorld (freeze net) r lg)) as (e0 & _ & _ & V0).
    rewrite Ep in V0. cbn [snd vgg] in V0.
    assert (Hfr : frozen (vgg w0)) by (rewrite V0; apply freeze_frozen).
    destruct (@loop_frame ext a su (range 1 (steps a + 1)) s0 w0 Hfr Ht Hc)
      as (its & L1 & _ & _ & _ & K1).
    rewrite El in L1, K1. cbn [fst snd] in L1, K1.
    destruct (K1 s eq_refl) as (_ & _ & Mi).
    pose proof (@export_invalid_log a su s w1 Hf1 Hf2) as Lx.
    rewrite Ex in Lx. cbn [snd] in Lx.
    rewrite flat_map_const, range_length in Mi.
    exists pro, its. split; [now rewrite Lx, L1, L0, <- app_assoc|].
    split; [exact Mp|]. split; [exact Mi|].
    rewrite marks_app, Mp, Mi. intro Hin.
    apply in_app_or in Hin. destruct Hin as [Hin|Hin].
    + cbn in Hin. intuition discriminate.
    + apply in_concat in Hin. destruct Hin as (blk & Hb & Hin).
      apply repeat_spec in Hb. subst blk. cbn in Hin. intuition discriminate.
  - intros Hreg Htr Hk Hu Hsteps Hshow Hlr Hinit.
    assert (Hv : valid_init a = true).
    { unfold valid_init. destruct Hinit as [-> | [-> | ->]]; reflexivity. }
    assert (Hsteps' : (1 <= steps a)%Z \/ str_eq (target_init a) "clone" = false).
    { destruct Hsteps as [H|H]; [now left | right]. now apply String.eqb_neq. }
    destruct (@stylize_run net a r lg Hreg Htr Hk Hu Hv Hshow Hlr Hsteps')
      as (su & w1 & t3 & out & pro & its & E & L & Mp & Mi).
    unfold export_outcome in E. unfold str_eq in E. rewrite Hf1, Hf2 in E.
    now exists w1.
Qed.

(** ** The initial target *)

Lemma prologue_invalid (a : args) (w : world) :
  transform_ok -> valid_init a = false ->
  exists w' evs,
    prologue a w
    = (Raise (ValueError ("Unexpected Initialization Method" ++ target_init a)), w') /\
    log w' = log w ++ evs /\ marks evs = [].
Proof.
  intros Htr Hv. unfold prologue.
  destruct (@load_image_edge ext (content_path a) 400 w Htr)
    as (cimg & h & wd & E1 & Sc & Hh & Hw).
  unfold bind at 1. rewrite E1.
  destruct (@load_image_exact ext (style_path a) 400
              (logged w [ELoadImage (content_path a)]) h wd Htr Hh Hw)
    as (simg & E2 & Ss).
  unfold bind at 1. rewrite Sc. cbn [last2 length Nat.sub skipn]. rewrite E2.
  unfold bind at 1. unfold print at 1. rewrite emit_run.
  unfold bind at 1. unfold init_target.
  unfold valid_init in Hv.
  destruct (str_eq (target_init a) "clone"); [discriminate|].
  destruct (str_eq (target_init a) "blank"); [discriminate|].
  destruct (str_eq (target_init a) "random"); [discriminate|].
  unfold raise. eexists. eexists. split; [reflexivity|].
  cbn [log logged]. split; [now rewrite <- !app_assoc | reflexivity].
Qed.

(** C8. The target is an exact copy of the content tensor for
    ["clone"], a tensor of the same shape filled with 0.5 for ["blank"]
    and a tensor of the same shape drawn from the random generator for
    ["random"]; [stylize] builds it from the content image it loaded; for
    any other value it raises [ValueError] before any forward pass, loss
    computation or optimiser step. *)
Theorem target_initialisation (a : args) (w : world) (x : tensor) :
  (target_init a = "clone"%string ->
     init_target a x w = (Ok (mkParam x true None), w)) /\
  (target_init a = "blank"%string ->
     exists p,
       init_target a x w = (Ok p, w) /\ requires_grad p = true /\
       shape (p_data p) = shape x /\
       length (data (p_data p)) = numel (shape x) /\
       Forall (fun v => v = 1 # 2) (data (p_data p))) /\
  (target_init a = "random"%string ->
     exists p,
       init_target a x w
       = (Ok p, mkWorld (vgg w) (rng w + numel (shape x)) (log w)) /\
       requires_grad p = true /\
       shape (p_data p) = shape x /\
       length (data (p_data p)) = numel (shape x) /\
       data (p_data p) = map rand_entry (seq (rng w) (numel (shape x)))) /\
  (forall su s0 w0,
     prologue a w = (Ok (su, s0), w0) ->
     exists w1 w2, init_target a (content su) w1 = (Ok (target s0), w2)) /\
  (target_init a <> "clone"%string -> target_init a <> "blank"%string ->
   target_init a <> "random"%string -> transform_ok ->
     exists w' evs,
       stylize a w
       = (Raise (ValueError ("Unexpected Initialization Method" ++ target_init a)),
          w') /\
       log w' = log w ++ evs /\ marks evs = []).
Proof.
  split; [|split; [|split; [|split]]].
  - intro H. unfold init_target. now rewrite H.
  - intro H. unfold init_target. rewrite H. cbn [str_eq String.eqb Ascii.eqb Bool.eqb].
    eexists. split; [reflexivity|]. cbn [requires_grad p_data full shape data].
    split; [reflexivity|]. split; [reflexivity|].
    split; [apply repeat_length|].
    apply Forall_forall. intros v Hv. now apply repeat_spec in Hv.
  - intro H. unfold init_target. rewrite H. cbn [str_eq String.eqb Ascii.eqb Bool.eqb].
    eexists. split; [reflexivity|]. cbn [requires_grad p_data shape data].
    split; [reflexivity|]. split; [reflexivity|].
    split; [now rewrite length_map, length_seq | reflexivity].
  - intros su s0 w0 H. unfold prologue in H.
    apply bind_ok in H. destruct H as (cimg & w1 & _ & H).
    apply bind_ok in H. destruct H as (simg & w2 & _ & H).
    apply bind_ok in H. destruct H as (u1 & w3 & _ & H).
    apply bind_ok in H. destruct H as (p & w4 & Hinit & H).
    repeat (apply bind_ok in H; destruct H as (? & ? & _ & H)).
    unfold ret in H. inversion H; subst. cbn [content target].
    now exists w3, w4.
  - intros H1 H2 H3 Htr.
    assert (Hv : valid_init a = false).
    { unfold valid_init, str_eq. apply String.eqb_neq in H1, H2, H3.
      now rewrite H1, H2, H3. }
    destruct (@prologue_invalid a w Htr Hv) as (w' & evs & E & L & Mk).
    exists w', evs. split; [|now split].
    unfold stylize. unfold bind at 1. now rewrite E.
Qed.

End Claims.

(** ** The small instance meets the assumptions *)

Lemma toy_scale_regular (v : Q) : regular_layer (Toy.scale v).
Proof.
  intros x Hx. unfold layer_call, Toy.scale. cbn [l_params l_apply map shape].
  split; [exact Hx|]. intros y Hy. exact Hy.
Qed.

Lemma toy_net_regular : regular Toy.net.
Proof.
  split.
  - intros nl Hnl. unfold Toy.net in Hnl. apply in_map_iff in Hnl.
    destruct Hnl as (name & <- & _). apply toy_scale_regular.
  - intros name Hname. simpl in Hname.
    destruct Hname as [<-|[<-|[<-|[<-|[<-|[<-|[<-|[]]]]]]]];
      vm_compute; repeat (first [left; reflexivity | right]).
Qed.

Lemma toy_transform_ok : @transform_ok Toy.ext.
Proof.
  split.
  - intros n im. exists 2%nat, 2%nat. repeat split; lia.
  - intros h w im _ _. reflexivity.
Qed.

Lemma toy_adam_keeps_shape : @adam_keeps_shape Toy.ext.
Proof. intros lr slot p g. reflexivity. Qed.

Lemma toy_uninitialized_ok : @uninitialized_ok Toy.ext.
Proof. intro shp. reflexivity. Qed.

Lemma loss_events_In (evs : list event) (n : nat) (e : event) :
  nth_error (loss_events evs) n = Some e -> In e evs.
Proof.
  intro H. apply nth_error_In in H. unfold loss_events in H.
  now apply filter_In in H.
Qed.

(** ** The claims on the small instance *)

Lemma total_loss_weighted_sum_witness :
  (exists e,
     nth_error (loss_events
                  (log (snd (@stylize Toy.ext (Toy.args0 "clone" "image-only" 2)
                               Toy.world0)))) 1 = Some e /\
     match e with
     | ELoss ii cw sw tw cl sl tv tot =>
         ii = 2%Z /\ tot = cw * cl + sw * sl + tw * tv
     | _ => False
     end) /\
  (exists su (s s' : @locals Toy.ext) w1 w2 cw sw tw l,
     @run_iterations Toy.ext (Toy.args0 "clone" "image-only" 2) 1 Toy.world0
     = (Ok (su, s), w1) /\
     @iteration Toy.ext (Toy.args0 "clone" "image-only" 2) su 2 s w1
     = (Ok s', w2) /\
     pick_weights (Toy.args0 "clone" "image-only" 2) 2 s = (cw, sw, tw) /\
     compute_losses su cw sw tw (vgg w1) (p_data (target s)) = Ok l /\
     total_loss l = cw * content_loss l + sw * style_loss l + tw * tv_loss l /\
     step (optimizer_v s)
       (@backward Toy.ext (total_loss_fn su cw sw tw)
          (zero_grad (optimizer_v s) (vgg w1, target s)))
     = (vgg w2, target s', optimizer_v s')).
Proof.
  destruct (@total_loss_weighted_sum Toy.ext Toy.net
              (Toy.args0 "clone" "image-only" 2) 0 [])
    as (Hit & _ & _ & (evs & L & H) & _ & Hlive).
  change (mkWorld (freeze Toy.net) 0 []) with Toy.world0 in L, Hlive.
  cbn [app] in L.
  split.
  - eassert (E : nth_error (loss_events
                   (log (snd (@stylize Toy.ext (Toy.args0 "clone" "image-only" 2)
                                Toy.world0)))) 1 = Some _)
      by (vm_compute; reflexivity).
    eexists. split; [exact E|].
    rewrite L in E. apply loss_events_In in E.
    split; [reflexivity|]. exact (H _ _ _ _ _ _ _ _ E).
  - assert (H1 : show_every (Toy.args0 "clone" "image-only" 2) <> 0%Z)
      by discriminate.
    assert (H2 : 0 <= lr (Toy.args0 "clone" "image-only" 2)) by discriminate.
    assert (H3 : (1 < Z.to_nat (steps (Toy.args0 "clone" "image-only" 2)))%nat)
      by (vm_compute; lia).
    destruct (Hlive toy_net_regular toy_transform_ok toy_adam_keeps_shape
                (or_introl eq_refl) H1 H2 1%nat H3)
      as (su & s & w1 & s' & w2 & E1 & E2 & _).
    change (Z.of_nat 1 + 1)%Z with 2%Z in E2.
    destruct (Hit su 2%Z s w1 s' w2 E2)
      as (cw & sw & tw & l & pre & post & Hp & Hl & Htot & _ & Hst & _).
    exists su, s, s', w1, w2, cw, sw, tw, l.
    split; [exact E1|]. split; [exact E2|]. split; [exact Hp|].
    split; [exact Hl|]. split; [exact Htot | exact Hst].
Defined.

Lemma network_weights_never_updated_witness :
  weights (vgg (snd (@run_iterations Toy.ext (Toy.args0 "blank" "comparison" 3) 2
                       Toy.world0)))
  = weights Toy.net.
Proof.
  pose proof (@network_weights_never_updated Toy.ext Toy.net
                (Toy.args0 "blank" "comparison" 3) 0 [] 2) as H.
  destruct H as (_ & _ & _ & H & _). exact H.
Defined.

Lemma weights_by_initialisation_witness :
  exists e,
    nth_error (loss_events
                 (log (snd (@stylize Toy.ext (Toy.args0 "blank" "comparison" 5)
                              Toy.world0)))) 1 = Some e /\
    match e with
    | ELoss ii cw sw tw _ _ _ _ => ii = 2%Z /\ cw = 10 /\ sw = 100 /\ tw = 20
    | _ => False
    end.
Proof.
  destruct (@weights_by_initialisation Toy.ext Toy.net
              (Toy.args0 "blank" "comparison" 5) 0 [])
    as (evs & L & H).
  change (mkWorld (freeze Toy.net) 0 []) with Toy.world0 in L.
  cbn [app] in L.
  eassert (E : nth_error (loss_events
                 (log (snd (@stylize Toy.ext (Toy.args0 "blank" "comparison" 5)
                              Toy.world0)))) 1 = Some _)
    by (vm_compute; reflexivity).
  eexists. split; [exact E|].
  rewrite L in E. apply loss_events_In in E.
  split; [reflexivity|].
  destruct (H _ _ _ _ _ _ _ _ E) as [Hblank _].
  destruct (Hblank (or_introl eq_refl)) as [_ Hlater].
  apply Hlater. vm_compute. intro Hle. apply Hle. reflexivity.
Defined.

Lemma stylize_runs_steps_iterations_witness :
  (exists w',
     @stylize Toy.ext (Toy.args0 "clone" "image-only" 2) Toy.world0 = (Ok tt, w') /\
     marks (log w')
     = [MForward; MForward; MForward; MLoss; MStep; MForward; MLoss; MStep;
        MExport]) /\
  (exists su (s s' : @locals Toy.ext) w1 w2,
     @run_iterations Toy.ext (Toy.args0 "clone" "image-only" 2) 1 Toy.world0
     = (Ok (su, s), w1) /\
     @iteration Toy.ext (Toy.args0 "clone" "image-only" 2) su 2 s w1
     = (Ok s', w2) /\
     @run_iterations Toy.ext (Toy.args0 "clone" "image-only" 2) 2 Toy.world0
     = (Ok (su, s'), w2) /\
     @stylize Toy.ext (Toy.args0 "clone" "image-only" 2) Toy.world0
     = @export Toy.ext (Toy.args0 "clone" "image-only" 2) su s' w2).
Proof.
  assert (H1 : (1 <= steps (Toy.args0 "clone" "image-only" 2))%Z)
    by (vm_compute; discriminate).
  assert (H2 : show_every (Toy.args0 "clone" "image-only" 2) <> 0%Z)
    by discriminate.
  assert (H3 : 0 <= lr (Toy.args0 "clone" "image-only" 2)) by discriminate.
  destruct (@stylize_runs_steps_iterations Toy.ext Toy.net
              (Toy.args0 "clone" "image-only" 2) 0 [])
    as (Hreturned & Hreached & _ & (_ & _ & Hafter) & _).
  destruct (Hreached toy_net_regular toy_transform_ok toy_adam_keeps_shape
              toy_uninitialized_ok H1 H2 H3 (or_introl eq_refl) (or_introl eq_refl))
    as (Hiter & su & t3 & img & w' & pro & its & out & E & _).
  change (mkWorld (freeze Toy.net) 0 []) with Toy.world0 in *.
  split.
  - assert (E' : fst (@stylize Toy.ext (Toy.args0 "clone" "image-only" 2)
                        Toy.world0) = Ok tt) by (vm_compute; reflexivity).
    rewrite E in E'. cbn [fst] in E'. rewrite E' in E.
    exists w'. split; [exact E|].
    destruct (Hreturned w' E) as (pro' & its' & out' & L & Mp & Mi & Mo).
    rewrite L. cbn [app]. rewrite !marks_app, Mp, Mi, Mo. reflexivity.
  - assert (H4 : (1 < Z.to_nat (steps (Toy.args0 "clone" "image-only" 2)))%nat)
      by (vm_compute; lia).
    destruct (Hiter 1%nat H4) as (su1 & s & w1 & s' & w2 & E1 & E2 & E3).
    change (Z.of_nat 1 + 1)%Z with 2%Z in E2.
    exists su1, s, s', w1, w2.
    split; [exact E1|]. split; [exact E2|]. split; [exact E3|].
    rewrite Hafter.
    change (Z.to_nat (steps (Toy.args0 "clone" "image-only" 2))) with 2%nat.
    now rewrite E3.
Defined.

(** C7, as stated for every [steps >= 1], fails: with two steps asked
    for, a [target_init] that is not known or a negative
    learning rate ends the run before its first iteration, a
    [show_every] of zero ends it in its first iteration, after the
    step of the optimiser, and an [out_format] that is not known ends it
    after the two iterations without any export. *)
Lemma stylize_runs_steps_iterations_counterexample :
  (fst (@stylize Toy.ext (Toy.args0 "nope" "image-only" 2) Toy.world0)
   = Raise (ValueError "Unexpected Initialization Methodnope") /\
   marks (log (snd (@stylize Toy.ext (Toy.args0 "nope" "image-only" 2)
                      Toy.world0))) = []) /\
  (fst (@stylize Toy.ext
          (mkArgs "content.jpg" "style.jpg" "result.png" "clone" "image-only"
             (- (3 # 100)) 500 2 1 (1 # 2) (75 # 10) 100 200)
          Toy.world0)
   = Raise (ValueError "Invalid learning rate") /\
   marks (log (snd (@stylize Toy.ext
                      (mkArgs "content.jpg" "style.jpg" "result.png" "clone"
                         "image-only" (- (3 # 100)) 500 2 1 (1 # 2) (75 # 10)
                         100 200)
                      Toy.world0))) = []) /\
  (fst (@stylize Toy.ext
          (mkArgs "content.jpg" "style.jpg" "result.png" "clone" "image-only"
             (3 # 100) 0 2 1 (1 # 2) (75 # 10) 100 200)
          Toy.world0)
   = Raise ZeroDivisionError /\
   marks (log (snd (@stylize Toy.ext
                      (mkArgs "content.jpg" "style.jpg" "result.png" "clone"
                         "image-only" (3 # 100) 0 2 1 (1 # 2) (75 # 10) 100 200)
                      Toy.world0)))
   = [MForward; MForward; MForward; MLoss; MStep]) /\
  (fst (@stylize Toy.ext (Toy.args0 "clone" "oops" 2) Toy.world0)
   = Raise (ValueError "Unexpected Output Formatoops") /\
   marks (log (snd (@stylize Toy.ext (Toy.args0 "clone" "oops" 2) Toy.world0)))
   = [MForward; MForward; MForward; MLoss; MStep; MForward; MLoss; MStep]).
Proof.
  repeat split; vm_compute; reflexivity.
Qed.

Lemma invalid_format_rejected_after_loop_witness :
  exists w',
    @stylize Toy.ext (Toy.args0 "blank" "oops" 3) Toy.world0
    = (Raise (ValueError "Unexpected Output Formatoops"), w') /\
    marks (log w')
    = [MForward; MForward; MForward; MLoss; MStep; MForward; MLoss; MStep;
       MForward; MLoss; MStep].
Proof.
  assert (H1 : (1 <= steps (Toy.args0 "blank" "oops" 3))%Z
               \/ target_init (Toy.args0 "blank" "oops" 3) <> "clone"%string)
    by (right; discriminate).
  assert (H2 : show_every (Toy.args0 "blank" "oops" 3) <> 0%Z) by discriminate.
  assert (H3 : out_format (Toy.args0 "blank" "oops" 3) <> "image-only"%string)
    by discriminate.
  assert (H4 : out_format (Toy.args0 "blank" "oops" 3) <> "comparison"%string)
    by discriminate.
  destruct (@invalid_format_rejected_after_loop Toy.ext Toy.net
              (Toy.args0 "blank" "oops" 3) 0 [] H3 H4) as [Hafter Hraised].
  assert (H5 : 0 <= lr (Toy.args0 "blank" "oops" 3)) by discriminate.
  destruct (Hraised toy_net_regular toy_transform_ok toy_adam_keeps_shape
              toy_uninitialized_ok H1 H2 H5 (or_intror (or_introl eq_refl)))
    as (w' & E).
  destruct (Hafter w' E) as (pro & its & L & Mp & Mi & _).
  exists w'. split; [exact E|].
  rewrite L. cbn [app]. rewrite !marks_app, Mp, Mi. reflexivity.
Defined.

Lemma target_initialisation_witness :
  @init_target Toy.ext (Toy.args0 "clone" "image-only" 2)
    (mkTensor [1; 1; 1; 2]%nat [3; 4]) Toy.world0
  = (Ok (mkParam (mkTensor [1; 1; 1; 2]%nat [3; 4]) true None), Toy.world0) /\
  (exists p,
     @init_target Toy.ext (Toy.args0 "blank" "image-only" 2)
       (mkTensor [1; 1; 1; 2]%nat [3; 4]) Toy.world0 = (Ok p, Toy.world0) /\
     Forall (fun v => v = 1 # 2) (data (p_data p))) /\
  (exists p w',
     @init_target Toy.ext (Toy.args0 "random" "image-only" 2)
       (mkTensor [1; 1; 1; 2]%nat [3; 4]) Toy.world0 = (Ok p, w') /\
     shape (p_data p) = [1; 1; 1; 2]%nat) /\
  (exists w',
     @stylize Toy.ext (Toy.args0 "nope" "image-only" 2) Toy.world0
     = (Raise (ValueError "Unexpected Initialization Methodnope"), w') /\
     marks (log w') = []).
Proof.
  split; [|split; [|split]].
  - exact (proj1 (@target_initialisation Toy.ext
                    (Toy.args0 "clone" "image-only" 2) Toy.world0
                    (mkTensor [1; 1; 1; 2]%nat [3; 4])) eq_refl).
  - destruct (proj1 (proj2 (@target_initialisation Toy.ext
                    (Toy.args0 "blank" "image-only" 2) Toy.world0
                    (mkTensor [1; 1; 1; 2]%nat [3; 4]))) eq_refl)
      as (p & E & _ & _ & _ & F).
    now exists p.
  - destruct (proj1 (proj2 (proj2 (@target_initialisation Toy.ext
                    (Toy.args0 "random" "image-only" 2) Toy.world0
                    (mkTensor [1; 1; 1; 2]%nat [3; 4])))) eq_refl)
      as (p & E & _ & S & _).
    exists p. eexists. split; [exact E | exact S].
  - assert (N1 : target_init (Toy.args0 "nope" "image-only" 2) <> "clone"%string)
      by discriminate.
    assert (N2 : target_init (Toy.args0 "nope" "image-only" 2) <> "blank"%string)
      by discriminate.
    assert (N3 : target_init (Toy.args0 "nope" "image-only" 2) <> "random"%string)
      by discriminate.
    destruct (proj2 (proj2 (proj2 (proj2 (@target_initialisation Toy.ext
                    (Toy.args0 "nope" "image-only" 2) Toy.world0
                    (mkTensor [1; 1; 1; 2]%nat [3; 4])))))
                N1 N2 N3 toy_transform_ok)
      as (w' & evs & E & L & Mk).
    exists w'. split; [exact E|]. rewrite L. exact Mk.
Defined.

(** * Further properties of the code *)

(** ** Sums of non-negative terms *)

Lemma Qplus_nonneg (x y : Q) : 0 <= x -> 0 <= y -> 0 <= x + y.
Proof. intros Hx Hy. exact (Qplus_le_compat 0 x 0 y Hx Hy). Qed.

Lemma sumQ_nonneg (l : list Q) : Forall (fun v => 0 <= v) l -> 0 <= sumQ l.
Proof.
  induction 1 as [|v l Hv _ IH]; cbn; [apply Qle_refl|].
  now apply Qplus_nonneg.
Qed.

Lemma bigsum_nonneg {A} (l : list A) (f : A -> Q) :
  (forall x, In x l -> 0 <= f x) -> 0 <= bigsum l f.
Proof.
  intro H. apply sumQ_nonneg. apply Forall_forall. intros v Hv.
  apply in_map_iff in Hv. destruct Hv as (x & <- & Hx). now apply H.
Qed.

Lemma bigsum_zero {A} (l : list A) (f : A -> Q) :
  (forall x, In x l -> f x == 0) -> bigsum l f == 0.
Proof.
  intro H. induction l as [|x l IH]; [reflexivity|].
  rewrite bigsum_cons, H, IH by (try (intros; apply H); now (left + right)).
  reflexivity.
Qed.

Lemma Qsqr_nonneg (v : Q) : 0 <= Qsqr v.
Proof.
  unfold Qsqr. destruct (Qlt_le_dec v 0) as [Hn|Hp].
  - setoid_replace (v * v) with ((- v) * (- v)) by ring.
    apply Qmult_le_0_compat; apply (Qopp_le_compat v 0); now apply Qlt_le_weak.
  - now apply Qmult_le_0_compat.
Qed.

Lemma Qnat_nonneg (n : nat) : 0 <= Qnat n.
Proof. unfold Qnat, Qle. cbn. lia. Qed.

Lemma Qdiv_nonneg (x y : Q) : 0 <= x -> 0 <= y -> 0 <= x / y.
Proof.
  intros Hx Hy. unfold Qdiv. apply Qmult_le_0_compat; [exact Hx|].
  now apply Qinv_le_0_compat.
Qed.

(** ** The Gram matrix, continued *)

Lemma inner_cons (a b : Q) (u v : list Q) :
  inner (a :: u) (b :: v) = a * b + inner u v.
Proof. reflexivity. Qed.

Lemma inner_comm (u v : list Q) : inner u v == inner v u.
Proof.
  revert v. induction u as [|a u IH]; intros [|b v]; try reflexivity.
  rewrite !inner_cons, IH. ring.
Qed.

Lemma inner_self_nonneg (u : list Q) : 0 <= inner u u.
Proof.
  induction u as [|a u IH]; [apply Qle_refl|].
  rewrite inner_cons.
  apply Qplus_nonneg; [apply Qsqr_nonneg | exact IH].
Qed.

(** X1. The Gram matrix that [gram_matrix] returns for a batch of one
    image is symmetric, and the entries of its diagonal are not
    negative. *)
Theorem gram_matrix_symmetric (T : tensor) (d h w : nat) :
  shape T = [1; d; h; w]%nat ->
  exists G,
    gram_matrix T = Ok G /\
    (forall i j, (i < d)%nat -> (j < d)%nat -> at2 G i j == at2 G j i) /\
    (forall i, (i < d)%nat -> 0 <= at2 G i i).
Proof.
  intro Hs. exists (mkTensor [d; d] (grid d d (gram_entry T h w))).
  split; [exact (@gram_matrix_ok T d h w Hs)|]. split.
  - intros i j Hi Hj. rewrite !at2_grid by assumption. apply inner_comm.
  - intros i Hi. rewrite at2_grid by assumption. apply inner_self_nonneg.
Qed.

Lemma gram_matrix_symmetric_witness :
  exists G,
    gram_matrix (mkTensor [1; 2; 1; 2]%nat [1; 2; 3; 4]) = Ok G /\
    at2 G 0 1 == at2 G 1 0 /\ 0 <= at2 G 1 1.
Proof.
  destruct (@gram_matrix_symmetric (mkTensor [1; 2; 1; 2]%nat [1; 2; 3; 4]) 2 1 2)
    as (G & E & Hsym & Hdiag); [reflexivity|].
  exists G. split; [exact E|]. split; [apply Hsym; lia | apply Hdiag; lia].
Defined.

(** X2. [gram_matrix] takes one image at a time: a tensor that does not
    have four dimensions cannot be unpacked, and a batch of none or of
    several feature maps that are not empty cannot be viewed as [d] rows
    of [h * w] entries. *)
Theorem gram_matrix_rejects (T : tensor) :
  (length (shape T) <> 4%nat ->
   gram_matrix T = Raise (ValueError "wrong number of values to unpack")) /\
  (forall b d h w,
     shape T = [b; d; h; w]%nat -> b <> 1%nat ->
     (1 <= d)%nat -> (1 <= h)%nat -> (1 <= w)%nat ->
     gram_matrix T = Raise (RuntimeError "shape is invalid for input size")).
Proof.
  split.
  - intro H. unfold gram_matrix.
    destruct (shape T) as [|b [|d [|h [|w [|x s]]]]]; try reflexivity.
    now contradiction H.
  - intros b d h w Hs Hb Hd Hh Hw. unfold gram_matrix. rewrite Hs.
    unfold view. rewrite Hs.
    replace (numel [d; (h * w)%nat] =? numel [b; d; h; w])%nat with false;
      [reflexivity|].
    symmetry. apply Nat.eqb_neq. cbn [numel fold_right]. nia.
Qed.

Lemma gram_matrix_rejects_witness :
  gram_matrix (mkTensor [2; 1; 1; 2]%nat [1; 2; 3; 4])
  = Raise (RuntimeError "shape is invalid for input size").
Proof.
  apply (proj2 (gram_matrix_rejects (mkTensor [2; 1; 1; 2]%nat [1; 2; 3; 4]))
           2%nat 1%nat 1%nat 2%nat); [reflexivity | lia | lia | lia | lia].
Defined.

(** ** The losses are distances *)

Lemma mean_squared_error_nonneg (n : nat) (a b : tensor) :
  0 <= mean_squared_error n a b.
Proof.
  unfold mean_squared_error. apply Qdiv_nonneg; [|apply Qnat_nonneg].
  apply bigsum_nonneg. intros k _. apply Qsqr_nonneg.
Qed.

Lemma mean_squared_error_same (n : nat) (a : tensor) :
  mean_squared_error n a a == 0.
Proof.
  unfold mean_squared_error. rewrite bigsum_zero.
  - unfold Qdiv. ring.
  - intros k _. unfold Qsqr. ring.
Qed.

(** X3. The content loss of [stylize] is not negative when the blend is
    within [0, 1], and it is zero when the features of the target are
    those of the content image, as they are when the loop starts from a
    clone. *)
Theorem content_loss_distance (blend : Q) (tf cf : dict tensor)
  (t3 c3 t4 c4 : tensor) :
  dict_get tf "conv3_2" = Some t3 -> dict_get cf "conv3_2" = Some c3 ->
  dict_get tf "conv4_2" = Some t4 -> dict_get cf "conv4_2" = Some c4 ->
  shape t3 = shape c3 -> shape t4 = shape c4 ->
  wf t3 -> wf c3 -> wf t4 -> wf c4 ->
  (1 <= numel (shape t3))%nat -> (1 <= numel (shape t4))%nat ->
  exists q,
    content_loss_of (content_weights blend) tf cf = Ok q /\
    (0 <= blend -> blend <= 1 -> 0 <= q) /\
    (t3 = c3 -> t4 = c4 -> q == 0).
Proof.
  intros Ht3 Hc3 Ht4 Hc4 Hs3 Hs4 W1 W2 W3 W4 _ _.
  eexists. split; [exact (@content_loss_ok blend tf cf t3 c3 t4 c4
                            Ht3 Hc3 Ht4 Hc4 Hs3 Hs4 W1 W2 W3 W4)|]. split.
  - intros H0 H1.
    apply Qplus_nonneg.
    + apply Qplus_nonneg; [apply Qle_refl|].
      apply Qmult_le_0_compat; [exact H0 | apply mean_squared_error_nonneg].
    + apply Qmult_le_0_compat; [|apply mean_squared_error_nonneg].
      unfold Qminus. now apply -> Qle_minus_iff.
  - intros -> ->. rewrite !mean_squared_error_same. ring.
Qed.

Lemma content_loss_distance_witness :
  exists q,
    content_loss_of (content_weights (1 # 4))
      Example1.target_features Example1.content_features = Ok q /\
    0 <= q.
Proof.
  destruct (@content_loss_distance (1 # 4)
              Example1.target_features Example1.content_features
              (Example1.one 1) (Example1.one 0) (Example1.one 0) (Example1.one 0))
    as (q & E & Hq & _);
    try reflexivity; try (cbn; lia).
  exists q. split; [exact E|]. apply Hq; unfold Qle; cbn; lia.
Defined.

Lemma gram_mse_nonneg (Ft Fs : tensor) (d h w : nat) : 0 <= gram_mse Ft Fs d h w.
Proof.
  unfold gram_mse. apply Qdiv_nonneg; [|apply Qnat_nonneg].
  apply bigsum_nonneg. intros i _. apply bigsum_nonneg. intros j _.
  apply Qsqr_nonneg.
Qed.

Lemma gram_mse_same (F : tensor) (d h w : nat) : gram_mse F F d h w == 0.
Proof.
  unfold gram_mse. rewrite bigsum_zero.
  - unfold Qdiv. ring.
  - intros i _. apply bigsum_zero. intros j _. unfold Qsqr. ring.
Qed.

Lemma Qpow_nonneg (e : Q) (k : nat) : 0 <= e -> 0 <= Qpow e k.
Proof.
  intro He. induction k as [|k IH]; cbn [Qpow]; [discriminate|].
  now apply Qmult_le_0_compat.
Qed.

(** X4. The style loss of [stylize] is not negative when
    [style_layer_weight_exp] is not, and it is zero when the target has
    the features of the style image at the five style layers. *)
Theorem style_loss_distance (e : Q) (tf sg : dict tensor)
  (Ft Fs : string -> tensor) (d h w : string -> nat) :
  (forall layer, In layer style_layers ->
     dict_get tf layer = Some (Ft layer) /\
     shape (Ft layer) = [1; d layer; h layer; w layer]%nat /\
     shape (Fs layer) = [1; d layer; h layer; w layer]%nat /\
     (1 <= d layer)%nat /\ (1 <= h layer)%nat /\ (1 <= w layer)%nat /\
     exists Gs, dict_get sg layer = Some Gs /\ gram_matrix (Fs layer) = Ok Gs) ->
  exists q,
    style_loss_of (style_weights_from style_layers e 1 []) tf sg = Ok q /\
    (0 <= e -> 0 <= q) /\
    ((forall layer, In layer style_layers -> Ft layer = Fs layer) -> q == 0).
Proof.
  intro H.
  destruct (@style_loss_from_ok (style_weights_from style_layers e 1 []) tf sg
              Ft Fs d h w style_layers) with (acc := 0) as (q & E & Hq).
  { intros layer Hl. destruct (H layer Hl) as (H1 & H2 & H3 & _ & _ & _ & H4).
    repeat split; try assumption.
    now apply dict_get_in. }
  exists q. split; [exact E|]. split.
  - intro He. rewrite Hq, Qplus_0_l. apply bigsum_nonneg. intros layer Hl.
    apply Qdiv_nonneg; [|apply Qnat_nonneg].
    apply Qmult_le_0_compat; [|apply gram_mse_nonneg].
    assert (P1 : 0 <= e * e) by now apply Qmult_le_0_compat.
    assert (P2 : 0 <= 1 * e) by now rewrite Qmult_1_l.
    assert (P3 : 0 <= 1 * e * e) by now apply Qmult_le_0_compat.
    assert (P4 : 0 <= 1 * e * e * e) by now apply Qmult_le_0_compat.
    assert (P5 : 0 <= 1 * e * e * e * e) by now apply Qmult_le_0_compat.
    simpl in Hl.
    destruct Hl as [<-|[<-|[<-|[<-|[<-|[]]]]]]; unfold weight_in; cbn;
      first [discriminate | assumption].
  - intro Hsame. rewrite Hq, Qplus_0_l. apply bigsum_zero. intros layer Hl.
    rewrite (Hsame layer Hl), gram_mse_same. unfold Qdiv. ring.
Qed.

Lemma style_loss_distance_witness :
  exists q,
    style_loss_of (style_weights_from style_layers 2 1 [])
      Example3.target_features Example3.style_gms = Ok q /\
    0 <= q.
Proof.
  destruct (@style_loss_distance 2
              Example3.target_features Example3.style_gms
              (Example3.feature Example3.target_features)
              (Example3.feature Example3.style_features)
              (fun _ => 1%nat) (fun _ => 1%nat) (fun _ => 1%nat))
    as (q & E & Hq & _).
  { intros layer Hl. simpl in Hl.
    destruct Hl as [<-|[<-|[<-|[<-|[<-|[]]]]]];
      (split; [reflexivity|]; split; [reflexivity|]; split; [reflexivity|];
       split; [apply le_n|]; split; [apply le_n|]; split; [apply le_n|];
       eexists; split; vm_compute; reflexivity). }
  exists q. split; [exact E|]. apply Hq. discriminate.
Defined.

Lemma vertical_variation_nonneg (T : tensor) (b c h w : nat) :
  0 <= vertical_variation T b c h w.
Proof.
  unfold vertical_variation.
  repeat (apply bigsum_nonneg; intros ? _). apply Qabs_nonneg.
Qed.

Lemma horizontal_variation_nonneg (T : tensor) (b c h w : nat) :
  0 <= horizontal_variation T b c h w.
Proof.
  unfold horizontal_variation.
  repeat (apply bigsum_nonneg; intros ? _). apply Qabs_nonneg.
Qed.

Lemma Qabs_diff_zero (x y : Q) : x == y -> Qabs (x - y) == 0.
Proof. intro H. rewrite H. setoid_replace (y - y) with 0 by ring. reflexivity. Qed.

(** X5. The total-variation loss is not negative, and it is zero for an
    image whose planes are constant.  (The image has at least two rows
    and two columns, so that the loss divides by counts that are not
    zero.) *)
Theorem tv_loss_distance (T : tensor) (b c h w : nat) :
  shape T = [b; c; h; w]%nat ->
  (1 <= b)%nat -> (2 <= h)%nat -> (2 <= w)%nat ->
  exists tv,
    tv_loss_of T = Ok (tv, h, w) /\
    0 <= tv /\
    ((forall n ch y x y' x',
        (n < b)%nat -> (ch < c)%nat -> (y < h)%nat -> (x < w)%nat ->
        (y' < h)%nat -> (x' < w)%nat ->
        at4 T n ch y x == at4 T n ch y' x') ->
     tv == 0).
Proof.
  intros Hs Hb Hh Hw.
  destruct (@tv_loss_ok T b c h w Hs) as (tv & E & Htv); [lia | lia |].
  exists tv. split; [exact E|]. split.
  - rewrite Htv. apply Qdiv_nonneg; [|apply Qnat_nonneg].
    apply Qmult_le_0_compat; [discriminate|].
    apply Qplus_nonneg;
      (apply Qdiv_nonneg; [|apply Qnat_nonneg]);
      [apply vertical_variation_nonneg | apply horizontal_variation_nonneg].
  - intro Hflat. rewrite Htv.
    assert (V : vertical_variation T b c h w == 0).
    { unfold vertical_variation.
      apply bigsum_zero; intros n Hn; apply bigsum_zero; intros ch Hch;
        apply bigsum_zero; intros y Hy; apply bigsum_zero; intros x Hx.
      apply in_seq in Hn, Hch, Hy, Hx.
      apply Qabs_diff_zero, Hflat; lia. }
    assert (Hz : horizontal_variation T b c h w == 0).
    { unfold horizontal_variation.
      apply bigsum_zero; intros n Hn; apply bigsum_zero; intros ch Hch;
        apply bigsum_zero; intros y Hy; apply bigsum_zero; intros x Hx.
      apply in_seq in Hn, Hch, Hy, Hx.
      apply Qabs_diff_zero, Hflat; lia. }
    rewrite V, Hz. unfold Qdiv. ring.
Qed.

Lemma tv_loss_distance_witness :
  exists tv,
    tv_loss_of (mkTensor [1; 1; 2; 2]%nat [0; 1; 3; 6]) = Ok (tv, 2%nat, 2%nat) /\
    0 <= tv.
Proof.
  destruct (@tv_loss_distance (mkTensor [1; 1; 2; 2]%nat [0; 1; 3; 6]) 1 1 2 2)
    as (tv & E & Hq & _); [reflexivity | lia | lia | lia |].
  exists tv. split; [exact E | exact Hq].
Defined.

(** ** What [get_features] returns *)

Lemma keys_dict_set {V} (d : dict V) (k k' : string) (v : V) :
  In k' (keys (dict_set d k v)) <-> k' = k \/ In k' (keys d).
Proof.
  induction d as [|[k0 v0] d IH]; cbn.
  - intuition congruence.
  - destruct (String.eqb_spec k k0) as [->|Hne]; cbn.
    + intuition congruence.
    + rewrite IH. intuition congruence.
Qed.

Lemma get_features_from_untouched (L : dict string) (modules : network)
  (key : string) :
  (forall name, In name (map fst modules) -> dict_get L name <> Some key) ->
  forall x f,
    dict_get (get_features_from modules L x f) key = dict_get f key.
Proof.
  induction modules as [|[n l] rest IH]; intros H x f; cbn; [reflexivity|].
  rewrite IH by (intros name Hn; apply H; now right).
  specialize (H n (or_introl eq_refl)).
  destruct (dict_get L n) as [k|]; [|reflexivity].
  rewrite dict_get_set.
  destruct (String.eqb_spec key k) as [->|_]; [now contradiction H | reflexivity].
Qed.


Lemma default_layers_injective (n name key : string) :
  dict_get default_layers name = Some key ->
  dict_get default_layers n = Some key -> n = name.
Proof.
  unfold default_layers. cbn [dict_get].
  repeat match goal with
         | |- context [String.eqb ?a ?b] =>
             destruct (String.eqb_spec a b) as [->|?]
         end;
    intros H1 H2; try discriminate; try reflexivity;
    rewrite <- H1 in H2; discriminate.
Qed.


Lemma get_features_from_keys (L : dict string) (modules : network) :
  forall x f key,
    In key (keys (get_features_from modules L x f)) ->
    In key (keys f) \/
    exists name, In name (map fst modules) /\ dict_get L name = Some key.
Proof.
  induction modules as [|[n l] rest IH]; intros x f key H; cbn in H; [now left|].
  apply IH in H. destruct H as [H|(name & Hn & E)].
  - destruct (dict_get L n) as [k|] eqn:E; [|now left].
    apply keys_dict_set in H. destruct H as [->|H]; [|now left].
    right. exists n. split; [now left | exact E].
  - right. exists name. split; [now right | exact E].
Qed.

(** X7. The keys of the dictionary that [get_features] returns are the
    layer names of the modules that the model has: a key is there if and
    only if [layers] gives it to a module of the model. *)
Theorem get_features_keys (image : tensor) (model : network)
  (layers : option (dict string)) (key : string) :
  In key (keys (get_features image model layers)) <->
  exists name,
    In name (map fst model) /\
    dict_get (match layers with Some l => l | None => default_layers end) name
    = Some key.
Proof.
  unfold get_features. split.
  - intro H. apply get_features_from_keys in H.
    destruct H as [[]|H]. exact H.
  - intros (name & Hn & E). now apply get_features_from_has with (name := name).
Qed.

(** X8. With a model that has no module ["12"], the features have no
    entry for [conv3_2], and the loss computation of [stylize] raises
    [KeyError] for it; the iteration ends there, after its forward pass
    and before any step of the optimiser. *)
Theorem missing_module_key_error {ext : Externals} (a : args) (su : setup)
  (ii : Z) (s : locals) (w : world) :
  ~ In "12"%string (map fst (vgg w)) ->
  content_layers_weights su = content_weights (content_weight_blend a) ->
  (forall x, dict_get (get_features x (vgg w) None) "conv3_2" = None) /\
  (forall cw sw tw x,
     compute_losses su cw sw tw (vgg w) x = Raise (KeyError "conv3_2")) /\
  exists evs,
    iteration a su ii s w = (Raise (KeyError "conv3_2"), logged w evs) /\
    marks evs = [MForward].
Proof.
  intros Hno Hclw.
  assert (Hnone : forall x, dict_get (get_features x (vgg w) None) "conv3_2" = None).
  { intro x. unfold get_features. rewrite get_features_from_untouched; [reflexivity|].
    intros name Hn E. apply Hno.
    now rewrite (@default_layers_injective name "12" "conv3_2" eq_refl E) in Hn. }
  assert (Hraise : forall cw sw tw x,
            compute_losses su cw sw tw (vgg w) x = Raise (KeyError "conv3_2")).
  { intros cw sw tw x. unfold compute_losses. rewrite Hclw.
    unfold content_loss_of. cbn. unfold dict_lookup at 1. cbn.
    unfold dict_lookup at 1. now rewrite Hnone. }
  split; [exact Hnone|]. split; [exact Hraise|].
  rewrite iteration_eq. destruct (pick_weights a ii s) as [[cw sw] tw].
  cbv zeta. rewrite Hraise. eexists. split; [reflexivity|].
  now rewrite marks_app, marks_overview.
Qed.

Lemma missing_module_key_error_witness :
  fst (@iteration Toy.ext (Toy.args0 "clone" "image-only" 2)
         (mkSetup (full [1; 1; 1; 1]%nat 0) (full [1; 1; 1; 1]%nat 0) [] []
            [] (content_weights (1 # 2)))
         1
         (mkLocals (mkParam (full [1; 1; 1; 1]%nat 0) true None)
            (@mkOptimizer Toy.ext [RTarget] (3 # 100) [0%nat]) 1 1 1 None None)
         (mkWorld [("0"%string, Toy.scale 1)] 0 []))
  = Raise (KeyError "conv3_2").
Proof.
  destruct (@missing_module_key_error Toy.ext (Toy.args0 "clone" "image-only" 2)
              (mkSetup (full [1; 1; 1; 1]%nat 0) (full [1; 1; 1; 1]%nat 0) [] []
                 [] (content_weights (1 # 2)))
              1
              (mkLocals (mkParam (full [1; 1; 1; 1]%nat 0) true None)
                 (@mkOptimizer Toy.ext [RTarget] (3 # 100) [0%nat]) 1 1 1 None None)
              (mkWorld [("0"%string, Toy.scale 1)] 0 []))
    as (_ & _ & evs & E & _).
  - cbn. intros [H|[]]. discriminate H.
  - reflexivity.
  - now rewrite E.
Defined.


(** ** Freezing *)

Lemma get_features_from_freeze (L : dict string) (modules : network) :
  forall x f,
    get_features_from (freeze modules) L x f = get_features_from modules L x f.
Proof.
  induction modules as [|[n l] rest IH]; intros x f; [reflexivity|].
  cbn [freeze map get_features_from fst snd].
  fold (freeze rest). rewrite layer_call_freeze. apply IH.
Qed.

(** X9. Freezing the parameters of the network does not change what it
    computes: [get_features] returns the same features before and after
    the loop that freezes, and freezing again changes nothing. *)
Theorem freeze_keeps_features (image : tensor) (model : network)
  (layers : option (dict string)) :
  get_features image (freeze model) layers = get_features image model layers /\
  freeze (freeze model) = freeze model.
Proof.
  split.
  - unfold get_features. apply get_features_from_freeze.
  - induction model as [|[n l] rest IH]; [reflexivity|].
    unfold freeze in *. cbn [map fst snd l_params l_apply].
    rewrite IH, map_map. reflexivity.
Qed.

(** ** [load_image] *)

Lemma substring_app (pre s : string) (n : nat) :
  substring (String.length pre) n (pre ++ s) = substring 0 n s.
Proof. induction pre as [|c pre IH]; [reflexivity | exact IH]. Qed.

Lemma contains_http (pre post : string) :
  contains "http" (pre ++ "http" ++ post) = true.
Proof.
  unfold contains.
  destruct (index 0 "http" (pre ++ "http" ++ post)) as [k|] eqn:E; [reflexivity|].
  exfalso.
  apply (@index_correct3 0 (String.length pre) "http" (pre ++ "http" ++ post) E);
    [discriminate | lia |].
  rewrite substring_app. cbn. now destruct post.
Qed.

(** X10. [load_image] takes a path as a URL as soon as the characters
    [http] occur in it, wherever they are: the image is then the body of
    the response, not the file of that name.  Without a [shape], it is
    resized to the smaller of [max_size] and its longer edge. *)
Theorem load_image_url (ext : Externals) (pre post : string) (max_size : nat)
  (w : world) :
  let path := (pre ++ "http" ++ post)%string in
  let image := image_fetch path in
  let edge := Nat.min max_size
                (Nat.max (fst (image_size image)) (snd (image_size image))) in
  load_image path max_size None w
  = (match take3 (in_transform (SizeEdge edge) image) with
     | Ok x => Ok (unsqueeze0 x)
     | Raise e => Raise e
     end,
     logged w [ELoadImage path]).
Proof.
  intros path image edge. unfold load_image, bind, emit, lift, ret.
  pose proof (contains_http pre post) as Hc. fold path in Hc. rewrite Hc.
  fold image.
  replace (if (max_size <? Nat.max (fst (image_size image)) (snd (image_size image)))%nat
           then SizeEdge max_size
           else SizeEdge (Nat.max (fst (image_size image)) (snd (image_size image))))
    with (SizeEdge edge).
  - unfold logged.
    now destruct (take3 (in_transform (SizeEdge edge) image)).
  - unfold edge.
    destruct (Nat.ltb_spec max_size
                (Nat.max (fst (image_size image)) (snd (image_size image))));
      f_equal; lia.
Qed.

Lemma load_image_world (ext : Externals) (path : string) (max_size : nat)
  (shp : option (list nat)) (w : world) :
  snd (load_image path max_size shp w) = logged w [ELoadImage path].
Proof.
  unfold load_image, bind, emit, lift, ret. cbn [fst snd].
  match goal with
  | |- context [take3 ?T] => generalize T
  end.
  intro T. now destruct (take3 T).
Qed.


(** ** Runs, whatever the network and the arguments *)

Section MoreRuns.

Context {ext : Externals}.

Lemma same_param_refl (p : param) : same_param p p.
Proof. now split. Qed.

Lemma same_layer_refl (nl : string * layer) : same_layer nl nl.
Proof.
  split; [reflexivity|]. split; [reflexivity|].
  induction (l_params (snd nl)); constructor; [apply same_param_refl | assumption].
Qed.

Lemma same_network_refl (net : network) : same_network net net.
Proof. induction net; constructor; [apply same_layer_refl | assumption]. Qed.

Lemma Forall2_trans {A} (R : A -> A -> Prop) :
  (forall x y z, R x y -> R y z -> R x z) ->
  forall l1 l2 l3, Forall2 R l1 l2 -> Forall2 R l2 l3 -> Forall2 R l1 l3.
Proof.
  intros HR l1 l2 l3 H12. revert l3.
  induction H12 as [|x y l1 l2 Hxy _ IH]; intros l3 H23;
    inversion H23; subst; constructor; eauto.
Qed.

Lemma same_network_trans (n1 n2 n3 : network) :
  same_network n1 n2 -> same_network n2 n3 -> same_network n1 n3.
Proof.
  apply Forall2_trans. intros x y z (N1 & A1 & P1) (N2 & A2 & P2).
  split; [congruence|]. split; [congruence|].
  revert P1 P2. apply Forall2_trans.
  intros p q r [D1 G1] [D2 G2]. split; congruence.
Qed.

Lemma same_params_data (ps qs : list param) :
  Forall2 same_param ps qs -> map p_data ps = map p_data qs.
Proof.
  induction 1 as [|p q ps qs [Hd _] _ IH]; [reflexivity|].
  cbn [map]. now rewrite Hd, IH.
Qed.

Lemma same_network_weights (net net' : network) :
  same_network net net' -> weights net = weights net'.
Proof.
  induction 1 as [|x y l l' (_ & _ & Hp) _ IH]; [reflexivity|].
  unfold weights in *. cbn [map]. now rewrite (same_params_data Hp), IH.
Qed.

Lemma same_network_features (L : dict string) (net net' : network) :
  same_network net net' ->
  forall x f, get_features_from net L x f = get_features_from net' L x f.
Proof.
  induction 1 as [|[n l] [n' l'] rest rest' (Hn & Ha & Hp) _ IH];
    intros x f; [reflexivity|].
  cbn [fst snd] in Hn, Ha, Hp. subst n'.
  cbn [get_features_from]. unfold layer_call.
  rewrite Ha, (same_params_data Hp). apply IH.
Qed.

Lemma Forall2_mapi {A} (R : A -> A -> Prop) (f : nat -> A -> A) (l : list A) :
  (forall i x, R x (f i x)) -> Forall2 R l (mapi f l).
Proof.
  intro H. unfold mapi. generalize 0%nat.
  induction l as [|x l IH]; intro a; cbn; constructor; [apply H | apply IH].
Qed.

Lemma accumulate_same (g : tensor) (p : param) : same_param p (accumulate g p).
Proof.
  unfold accumulate, same_param.
  destruct (requires_grad p) eqn:E; cbn; now rewrite ?E.
Qed.

Lemma backward_same (loss : network * tensor -> Q) (st : network * param) :
  same_network (fst st) (fst (backward loss st)) /\
  requires_grad (snd (backward loss st)) = requires_grad (snd st).
Proof.
  unfold backward. cbn [fst snd]. split.
  - apply Forall2_mapi. intros i nl.
    split; [reflexivity|]. split; [reflexivity|]. cbn [snd l_params].
    apply Forall2_mapi. intros k p. apply accumulate_same.
  - unfold accumulate. now destruct (requires_grad (snd st)) eqn:E.
Qed.

Lemma step_target_flag (o : optimizer) (net : network) (p : param)
  (slot : adam_slot) :
  opt_params o = [RTarget] -> opt_state o = [slot] ->
  exists p' slot',
    step o (net, p) = (net, p', mkOptimizer [RTarget] (opt_lr o) [slot']) /\
    requires_grad p' = requires_grad p.
Proof.
  intros Hp Hs. unfold step. rewrite Hp, Hs. cbn [combine fold_left].
  unfold step_one. cbn [fst snd read_ref].
  destruct (p_grad p) as [g|] eqn:Hg.
  - destruct (adam_update (opt_lr o) slot (p_data p) g) as [d slot'] eqn:Ha.
    cbn [update_ref fst snd app].
    exists (mkParam d (requires_grad p) (p_grad p)), slot'.
    split; reflexivity.
  - exists p, slot. split; reflexivity.
Qed.

(** The three calls that update: the network keeps its values, the
    optimiser its tensor and its learning rate, the target its flag. *)
Lemma updated_target_only (su : setup) (s : locals) (net : network)
  (cw sw tw : Q) :
  trainable s ->
  exists net' p' o',
    updated su s net cw sw tw = (net', p', o') /\
    same_network net net' /\
    opt_params o' = [RTarget] /\ (exists slot, opt_state o' = [slot]) /\
    opt_lr o' = opt_lr (optimizer_v s) /\
    requires_grad p' = requires_grad (target s).
Proof.
  intros [Hp [slot Hs]]. unfold updated.
  rewrite zero_grad_target by exact Hp.
  destruct (backward_same (total_loss_fn su cw sw tw)
              (net, mkParam (p_data (target s)) (requires_grad (target s)) None))
    as [Hnet Hflag].
  destruct (backward _ _) as [net1 p1]. cbn [fst snd requires_grad] in Hnet, Hflag.
  destruct (@step_target_flag (optimizer_v s) net1 p1 slot Hp Hs)
    as (p' & slot' & E & Hf).
  exists net1, p', (mkOptimizer [RTarget] (opt_lr (optimizer_v s)) [slot']).
  split; [exact E|]. split; [exact Hnet|]. split; [reflexivity|].
  split; [now exists slot'|]. split; [reflexivity | congruence].
Qed.

Lemma evolves_refl (P : event -> Prop) (w : world) : evolves P w w.
Proof.
  split; [|apply same_network_refl].
  exists []. split; [now rewrite app_nil_r | constructor].
Qed.

Lemma evolves_trans (P : event -> Prop) (w1 w2 w3 : world) :
  evolves P w1 w2 -> evolves P w2 w3 -> evolves P w1 w3.
Proof.
  intros [(e1 & L1 & F1) N1] [(e2 & L2 & F2) N2]. split.
  - exists (e1 ++ e2). split; [now rewrite L2, L1, app_assoc|].
    now apply Forall_app.
  - now apply same_network_trans with (n2 := vgg w2).
Qed.

Lemma grows_evolves {A} (P : event -> Prop) (m : M A) (w : world) :
  grows P m -> evolves P w (snd (m w)).
Proof.
  intro H. destruct (H w) as (evs & L & F & V). split.
  - now exists evs.
  - rewrite V. apply same_network_refl.
Qed.

Lemma overview_first_phase (a : args) (ii : Z) (s : locals) (cw sw tw : Q) :
  pick_weights a ii s = (cw, sw, tw) ->
  Forall banner_first_phase (overview_events a ii cw sw tw).
Proof.
  intro H. unfold overview_events.
  destruct (ii =? 1)%Z.
  { constructor; [|constructor].
    now destruct (str_eq (target_init a) "clone"). }
  destruct (5 * ii =? steps a)%Z eqn:E5; [|constructor].
  destruct (str_eq (target_init a) "random" || str_eq (target_init a) "blank")
    eqn:Eb; [|constructor].
  constructor; [|constructor]. cbn.
  unfold pick_weights, blank_or_random in H.
  rewrite orb_comm, Eb in H.
  apply Z.eqb_eq in E5.
  replace (5 * ii <=? steps a)%Z with true in H by (symmetry; apply Z.leb_le; lia).
  now symmetry.
Qed.

Lemma Forall_first_phase_core (ii : Z) (cw sw tw : Q) (x : tensor) (l : losses) :
  Forall banner_first_phase (core_events ii cw sw tw x l).
Proof. repeat constructor. Qed.

Lemma Forall_first_phase_show (a : args) (ii : Z) (l : losses) (x : tensor) :
  Forall banner_first_phase (show_events a ii l x).
Proof. unfold show_events. destruct (ii mod show_every a =? 0)%Z; repeat constructor. Qed.

(** One iteration, without any assumption on the network. *)
Lemma iteration_evolves (a : args) (su : setup) (ii : Z) (s : locals) (w : world) :
  trainable s ->
  evolves banner_first_phase w (snd (iteration a su ii s w)) /\
  rng (snd (iteration a su ii s w)) = rng w /\
  forall s', fst (iteration a su ii s w) = Ok s' ->
    trainable s' /\
    opt_lr (optimizer_v s') = opt_lr (optimizer_v s) /\
    requires_grad (target s') = requires_grad (target s).
Proof.
  intro Ht. rewrite iteration_eq.
  pose proof (@overview_first_phase a ii s) as Hov.
  destruct (pick_weights a ii s) as [[cw sw] tw]. cbv zeta.
  specialize (Hov cw sw tw eq_refl).
  destruct (compute_losses su cw sw tw (vgg w) (p_data (target s))) as [l|e].
  - destruct (@updated_target_only su s (vgg w) cw sw tw Ht)
      as (net' & p' & o' & E & Hn & Ho1 & Ho2 & Hlr & Hfl).
    rewrite E. cbn [fst snd].
    destruct (show_every a =? 0)%Z; cbn [fst snd vgg rng log logged].
    + split; [|split; [reflexivity | discriminate]].
      split; [|exact Hn]. eexists. split; [reflexivity|].
      apply Forall_app. split; [exact Hov | apply Forall_first_phase_core].
    + split; [|split; [reflexivity|]].
      * split; [|exact Hn].
        exists (overview_events a ii cw sw tw
                ++ core_events ii cw sw tw (p_data (target s)) l
                ++ show_events a ii l (p_data p')).
        split; [cbn [log logged]; now rewrite <- !app_assoc|].
        apply Forall_app. split; [exact Hov|].
        apply Forall_app. split;
          [apply Forall_first_phase_core | apply Forall_first_phase_show].
      * intros s' Hs'. inversion Hs'; subst s'; clear Hs'.
        cbn [target optimizer_v]. now repeat split.
  - cbn [fst snd vgg rng log logged].
    split; [|split; [reflexivity | discriminate]].
    split; [|apply same_network_refl]. eexists. split; [reflexivity|].
    apply Forall_app. split; [exact Hov | repeat constructor].
Qed.

Lemma loop_evolves (a : args) (su : setup) (iis : list Z) :
  forall (s : locals) (w : world),
    trainable s ->
    evolves banner_first_phase w (snd (loop a su iis s w)) /\
    rng (snd (loop a su iis s w)) = rng w /\
    forall s', fst (loop a su iis s w) = Ok s' ->
      trainable s' /\
      opt_lr (optimizer_v s') = opt_lr (optimizer_v s) /\
      requires_grad (target s') = requires_grad (target s).
Proof.
  unfold loop. induction iis as [|ii iis IH]; intros s w Ht; cbn [for_each].
  - unfold ret. cbn [fst snd]. split; [apply evolves_refl|].
    split; [reflexivity|]. intros s' E. inversion E; subst.
    split; [exact Ht|]. split; reflexivity.
  - unfold bind.
    destruct (@iteration_evolves a su ii s w Ht) as (E1 & R1 & K1).
    destruct (iteration a su ii s w) as [[s1|e] w1]; cbn [fst snd] in *.
    + destruct (K1 s1 eq_refl) as (Ht1 & Hlr1 & Hfl1).
      destruct (IH s1 w1 Ht1) as (E2 & R2 & K2).
      split; [now apply evolves_trans with (w2 := w1)|].
      split; [congruence|].
      intros s' Hs'. destruct (K2 s' Hs') as (Ht2 & Hlr2 & Hfl2).
      split; [exact Ht2|]. split; congruence.
    + split; [exact E1|]. split; [exact R1 | discriminate].
Qed.

Lemma grows_prologue_first_phase (a : args) :
  grows banner_first_phase (prologue a).
Proof.
  unfold prologue.
  apply grows_bind; [now apply grows_load_image|]. intro content.
  apply grows_bind; [now apply grows_load_image|]. intro style.
  apply grows_bind; [now apply grows_emit|]. intros _.
  apply grows_bind; [apply grows_init_target|]. intro target.
  apply grows_bind; [now apply grows_emit|]. intros _.
  apply grows_bind; [apply grows_lift|]. intro optimizer.
  apply grows_bind; [now apply grows_emit|]. intros _.
  apply grows_bind; [apply grows_get_vgg|]. intro net.
  apply grows_bind; [now apply grows_emit|]. intros _.
  apply grows_bind; [now apply grows_emit|]. intros _.
  apply grows_bind; [apply grows_lift|]. intro gms.
  apply grows_bind; [now apply grows_emit|]. intros _.
  apply grows_ret.
Qed.

Lemma export_evolves (a : args) (su : setup) (s : locals) (w : world) :
  evolves banner_first_phase w (snd (export a su s w)).
Proof.
  destruct (grows_export a su s w) as (evs & L & F & V). split.
  - exists evs. split; [exact L|].
    apply Forall_forall. intros e He.
    rewrite Forall_forall in F. specialize (F e He). now destruct e.
  - rewrite V. apply same_network_refl.
Qed.

(** No draw from the random generator *)
Lemma rng_bind {A B} (m : M A) (k : A -> M B) (w : world) :
  rng (snd (m w)) = rng w ->
  (forall x w1, rng (snd (k x w1)) = rng w1) ->
  rng (snd (bind m k w)) = rng w.
Proof.
  intros Hm Hk. unfold bind. destruct (m w) as [[x|e] w1]; cbn [snd] in *.
  - now rewrite Hk.
  - exact Hm.
Qed.

Lemma export_rng (a : args) (su : setup) (s : locals) (w : world) :
  rng (snd (export a su s w)) = rng w.
Proof.
  unfold export. apply rng_bind.
  - destruct (str_eq (target_init a) "clone"); [|reflexivity].
    apply rng_bind; [now destruct (h_x s)|]. intros h w1.
    apply rng_bind; [now destruct (w_x s)|]. intros wd w2.
    apply rng_bind; [reflexivity|]. intros t3 w3.
    apply rng_bind; [reflexivity|]. intros out w4. reflexivity.
  - intros [t3 out] w1.
    destruct (str_eq (out_format a) "image-only");
      [apply rng_bind; [reflexivity | intros; reflexivity]|].
    destruct (str_eq (out_format a) "comparison");
      [apply rng_bind; [reflexivity | intros; reflexivity]|].
    reflexivity.
Qed.

Lemma load_image_rng (path : string) (max_size : nat) (shp : option (list nat))
  (w : world) :
  rng (snd (load_image path max_size shp w)) = rng w.
Proof. now rewrite (load_image_world ext path max_size shp w). Qed.

Lemma prologue_rng (a : args) (w : world) :
  str_eq (target_init a) "random" = false ->
  rng (snd (prologue a w)) = rng w.
Proof.
  intro Hr. unfold prologue.
  apply rng_bind; [apply load_image_rng|]. intros cimg w1.
  apply rng_bind; [apply load_image_rng|]. intros simg w2.
  apply rng_bind; [reflexivity|]. intros _ w3.
  apply rng_bind.
  { unfold init_target. rewrite Hr.
    now destruct (str_eq (target_init a) "clone"), (str_eq (target_init a) "blank"). }
  intros p w4.
  apply rng_bind; [reflexivity|]. intros _ w5.
  apply rng_bind; [reflexivity|]. intros o wo.
  apply rng_bind; [reflexivity|]. intros _ w6.
  apply rng_bind; [reflexivity|]. intros net w7.
  apply rng_bind; [reflexivity|]. intros _ w8.
  apply rng_bind; [reflexivity|]. intros _ w9.
  apply rng_bind; [reflexivity|]. intros gms w10.
  apply rng_bind; [reflexivity|]. intros _ w11. reflexivity.
Qed.

(** What the prologue hands to the loop. *)
Lemma prologue_locals (a : args) (w w0 : world) (su : setup) (s0 : locals) :
  prologue a w = (Ok (su, s0), w0) ->
  opt_lr (optimizer_v s0) = learning_rate a /\
  requires_grad (target s0) = true /\
  rng w0 = (rng w + (if str_eq (target_init a) "random"
                     then numel (shape (content su)) else 0))%nat.
Proof.
  unfold prologue. intro H.
  apply bind_ok in H. destruct H as (cimg & w1 & E1 & H).
  apply bind_ok in H. destruct H as (simg & w2 & E2 & H).
  apply bind_ok in H. destruct H as (? & w3 & E3 & H).
  apply bind_ok in H. destruct H as (p & w4 & E4 & H).
  apply bind_ok in H. destruct H as (? & w5 & E5 & H).
  apply bind_ok in H. destruct H as (o & wo & Eo & H).
  apply bind_ok in H. destruct H as (? & w6 & E6 & H).
  apply bind_ok in H. destruct H as (net & w7 & E7 & H).
  apply bind_ok in H. destruct H as (? & w8 & E8 & H).
  apply bind_ok in H. destruct H as (? & w9 & E9 & H).
  apply bind_ok in H. destruct H as (gms & w10 & E10 & H).
  apply bind_ok in H. destruct H as (? & w11 & E11 & H).
  unfold ret in H. inversion H; subst; clear H.
  cbn [optimizer_v target content].
  assert (Ho : Adam [RTarget] (learning_rate a) = Ok o)
    by (now apply lift_ok in Eo).
  apply Adam_ok in Ho. destruct Ho as [Ho _].
  split; [now rewrite Ho|].
  assert (R1 : rng w1 = rng w)
    by (now rewrite <- (load_image_rng (content_path a) 400 None w), E1).
  assert (R2 : rng w2 = rng w1)
    by (now rewrite <- (load_image_rng (style_path a) 400
                          (Some (last2 (shape cimg))) w1), E2).
  unfold print, emit, get_vgg, lift in *.
  inversion E3; subst; clear E3. inversion E5; subst; clear E5.
  inversion Eo; subst; clear Eo.
  inversion E6; subst; clear E6. inversion E7; subst; clear E7.
  inversion E8; subst; clear E8. inversion E9; subst; clear E9.
  inversion E11; subst; clear E11.
  injection E10 as _ Hw10. subst w10. cbn [rng].
  unfold init_target in E4.
  destruct (str_eq (target_init a) "clone") eqn:Ec.
  { unfold str_eq in Ec. apply String.eqb_eq in Ec. rewrite Ec.
    change (str_eq "clone" "random") with false.
    inversion E4; subst. cbn [rng requires_grad]. split; [reflexivity | lia]. }
  destruct (str_eq (target_init a) "blank") eqn:Eb.
  { unfold str_eq in Eb. apply String.eqb_eq in Eb. rewrite Eb.
    change (str_eq "blank" "random") with false.
    inversion E4; subst. cbn [rng requires_grad]. split; [reflexivity | lia]. }
  destruct (str_eq (target_init a) "random") eqn:Er; [|discriminate E4].
  inversion E4; subst. cbn [rng requires_grad]. split; [reflexivity | lia].
Qed.

(** X12. [stylize] never changes a value of a parameter of the network,
    frozen or not: after a run, however it ends, the network has the
    modules, the parameter values and the flags it had, so that its
    accumulated gradients are all that can differ, and [get_features]
    computes what it computed before. *)
Theorem stylize_keeps_network (a : args) (w : world) :
  same_network (vgg w) (vgg (snd (stylize a w))) /\
  weights (vgg (snd (stylize a w))) = weights (vgg w) /\
  forall image layers,
    get_features image (vgg (snd (stylize a w))) layers
    = get_features image (vgg w) layers.
Proof.
  assert (H : same_network (vgg w) (vgg (snd (stylize a w)))).
  { unfold stylize, bind.
    pose proof (@grows_evolves _ banner_first_phase (prologue a) w
                  (grows_prologue_first_phase a)) as [_ N0].
    destruct (prologue a w) as [[[su s0]|e] w0] eqn:Ep; cbn [fst snd] in *;
      [|exact N0].
    destruct (@prologue_result ext a w w0 su s0 Ep) as (Ht & _).
    destruct (@loop_evolves a su (range 1 (steps a + 1)) s0 w0 Ht)
      as ([_ N1] & _ & _).
    destruct (loop a su (range 1 (steps a + 1)) s0 w0) as [[s|e] w1];
      cbn [fst snd] in *.
    - destruct (export_evolves a su s w1) as [_ N2].
      apply same_network_trans with (n2 := vgg w0); [exact N0|].
      now apply same_network_trans with (n2 := vgg w1).
    - now apply same_network_trans with (n2 := vgg w0). }
  split; [exact H|]. split; [symmetry; now apply same_network_weights|].
  intros image layers. unfold get_features. symmetry.
  now apply same_network_features.
Qed.

(** X13. [stylize] draws from the random generator for the random
    initialisation only: with any other [target_init] the generator is
    where it was after the run, however the run ends; with ["random"]
    it has advanced by one draw for each entry of the content image. *)
Theorem stylize_random_draws (a : args) (w : world) :
  (target_init a <> "random"%string -> rng (snd (stylize a w)) = rng w) /\
  (forall su s0 w0,
     prologue a w = (Ok (su, s0), w0) -> target_init a = "random"%string ->
     rng (snd (stylize a w)) = (rng w + numel (shape (content su)))%nat).
Proof.
  assert (Hrest : forall su s0 w0,
            prologue a w = (Ok (su, s0), w0) ->
            rng (snd (stylize a w)) = rng w0).
  { intros su s0 w0 Ep. unfold stylize, bind. rewrite Ep. cbn [fst snd].
    destruct (@prologue_result ext a w w0 su s0 Ep) as (Ht & _).
    destruct (@loop_evolves a su (range 1 (steps a + 1)) s0 w0 Ht)
      as (_ & R1 & _).
    destruct (loop a su (range 1 (steps a + 1)) s0 w0) as [[s|e] w1];
      cbn [fst snd] in *; [|exact R1].
    now rewrite export_rng. }
  split.
  - intro Hr.
    assert (Er : str_eq (target_init a) "random" = false).
    { unfold str_eq. now apply String.eqb_neq. }
    pose proof (prologue_rng a w Er) as R0.
    destruct (prologue a w) as [[[su s0]|e] w0] eqn:Ep; cbn [snd] in R0.
    + now rewrite (Hrest su s0 w0 eq_refl).
    + unfold stylize, bind. now rewrite Ep.
  - intros su s0 w0 Ep Hr. rewrite (Hrest su s0 w0 Ep).
    destruct (@prologue_locals a w w0 su s0 Ep) as (_ & _ & R).
    rewrite R, Hr. reflexivity.
Qed.

Lemma Qmin_fifth (x : Q) : Qmin x (2 # 10) <= 2 # 10.
Proof. apply Q.le_min_r. Qed.

(** X14. Stopped after any number of iterations, the optimiser holds the
    learning rate chosen before the loop: the caller's for a clone, and
    otherwise ten times the caller's but at most 0.2; and the target
    still requires its gradient. *)
Theorem optimizer_learning_rate (a : args) (k : nat) (w w' : world)
  (su : setup) (s : locals) :
  run_iterations a k w = (Ok (su, s), w') ->
  opt_lr (optimizer_v s)
  = (if str_eq (target_init a) "clone" then lr a else Qmin (lr a * 10) (2 # 10)) /\
  (target_init a <> "clone"%string -> opt_lr (optimizer_v s) <= 2 # 10) /\
  requires_grad (target s) = true.
Proof.
  unfold run_iterations. intro H.
  apply bind_ok in H. destruct H as ([su0 s0] & w0 & Ep & H).
  apply bind_ok in H. destruct H as (s1 & w1 & El & H).
  unfold ret in H. inversion H; subst; clear H. cbn [fst snd] in El.
  destruct (@prologue_result ext a w w0 su s0 Ep) as (Ht & _).
  destruct (@prologue_locals a w w0 su s0 Ep) as (Hlr & Hfl & _).
  destruct (@loop_evolves a su (firstn k (range 1 (steps a + 1))) s0 w0 Ht)
    as (_ & _ & K).
  rewrite El in K. destruct (K s eq_refl) as (_ & Hlr' & Hfl').
  rewrite Hlr', Hlr, Hfl', Hfl. unfold learning_rate.
  split; [reflexivity|]. split; [|reflexivity].
  intro Hc. replace (str_eq (target_init a) "clone") with false.
  - apply Qmin_fifth.
  - symmetry. unfold str_eq. now apply String.eqb_neq.
Qed.

(** X15. The banner "Intermediate Setting: Constructing Style" never
    shows the weights of the second phase: whenever a run prints it, it
    prints the content, style and denoising weights 1, 0.01 and 2 of the
    first phase, which are still in force in that iteration. *)
Theorem intermediate_banner_weights (a : args) (w : world) :
  exists evs,
    log (snd (stylize a w)) = log w ++ evs /\
    forall cw sw tw,
      In (EPrint (IntermediateSettingConstructingStyle cw sw tw)) evs ->
      cw = 1 /\ sw = 1 # 100 /\ tw = 2.
Proof.
  assert (H : evolves banner_first_phase w (snd (stylize a w))).
  { unfold stylize, bind.
    pose proof (@grows_evolves _ banner_first_phase (prologue a) w
                  (grows_prologue_first_phase a)) as E0.
    destruct (prologue a w) as [[[su s0]|e] w0] eqn:Ep; cbn [fst snd] in *;
      [|exact E0].
    destruct (@prologue_result ext a w w0 su s0 Ep) as (Ht & _).
    destruct (@loop_evolves a su (range 1 (steps a + 1)) s0 w0 Ht)
      as (E1 & _ & _).
    destruct (loop a su (range 1 (steps a + 1)) s0 w0) as [[s|e] w1];
      cbn [fst snd] in *.
    - apply evolves_trans with (w2 := w0); [exact E0|].
      apply evolves_trans with (w2 := w1); [exact E1 | apply export_evolves].
    - now apply evolves_trans with (w2 := w0). }
  destruct H as [(evs & L & F) _]. exists evs. split; [exact L|].
  intros cw sw tw Hin. rewrite Forall_forall in F.
  specialize (F _ Hin). cbn in F. inversion F. now repeat split.
Qed.

Lemma range_empty (n : Z) : (n <= 0)%Z -> range 1 (n + 1) = [].
Proof.
  intro H. unfold range. replace (Z.to_nat (n + 1 - 1)) with 0%nat by lia.
  reflexivity.
Qed.

Lemma range_first (n : Z) :
  (1 <= n)%Z -> exists rest, range 1 (n + 1) = 1%Z :: rest.
Proof.
  intro H. unfold range.
  destruct (Z.to_nat (n + 1 - 1)) as [|k] eqn:E; [lia|].
  cbn [seq map]. eexists. reflexivity.
Qed.

(** X16. With [target_init = "clone"] and no iteration to run ([steps]
    zero or negative), [stylize] loads the images and extracts their
    features, then fails in the export: [h_x] is assigned in the loop
    only, and reading it raises [UnboundLocalError]; nothing is saved. *)
Theorem stylize_without_iterations (a : args) (w : world) :
  transform_ok -> regular (vgg w) -> 0 <= lr a ->
  target_init a = "clone"%string -> (steps a <= 0)%Z ->
  exists w' evs,
    stylize a w = (Raise (UnboundLocalError "h_x"), w') /\
    log w' = log w ++ evs /\ marks evs = [MForward; MForward].
Proof.
  intros Htr Hreg Hlr Hc Hs.
  assert (Hv : valid_init a = true) by (unfold valid_init; now rewrite Hc).
  destruct (@prologue_ok ext a w Htr Hreg Hv Hlr)
    as (su & s0 & w0 & h & wd & Ep & _ & _ & _ & _ & _ & pro & L0 & M0).
  destruct (@prologue_result ext a w w0 su s0 Ep) as (_ & _ & Hx0 & _).
  exists w0, pro. split; [|split; assumption].
  unfold stylize. unfold bind at 1. rewrite Ep. cbn [fst snd].
  rewrite range_empty by exact Hs. unfold loop. cbn [for_each].
  unfold bind at 1. unfold ret at 1.
  unfold export. rewrite Hc. cbn [str_eq String.eqb Ascii.eqb Bool.eqb].
  rewrite Hx0. reflexivity.
Qed.

(** X17. With [show_every = 0] the first iteration computes its losses
    and lets the optimiser step, and then [ii % show_every] raises
    [ZeroDivisionError]: the run ends after one step, without a second
    iteration and without an export. *)
Theorem show_every_zero (a : args) (w : world) :
  transform_ok -> regular (vgg w) -> valid_init a = true -> 0 <= lr a ->
  (1 <= steps a)%Z -> show_every a = 0%Z ->
  exists w' evs,
    stylize a w = (Raise ZeroDivisionError, w') /\
    log w' = log w ++ evs /\
    marks evs = [MForward; MForward; MForward; MLoss; MStep].
Proof.
  intros Htr Hreg Hv Hlr Hs Hshow.
  destruct (@prologue_ok ext a w Htr Hreg Hv Hlr)
    as (su & s0 & w0 & h & wd & Ep & Hsu & Hs0 & Hh & Hw & V0 & pro & L0 & M0).
  destruct (range_first Hs) as [rest Hr].
  unfold stylize. unfold bind at 1. rewrite Ep. cbn [fst snd].
  rewrite Hr. unfold loop. cbn [for_each]. unfold bind.
  rewrite iteration_eq.
  destruct (pick_weights a 1 s0) as [[cw sw] tw]. cbv zeta.
  rewrite <- V0 in Hreg, Hsu.
  destruct (@compute_losses_ok a su (vgg w0) 3 h wd cw sw tw
              (p_data (target s0)) Hreg Hsu Hs0 Hh Hw) as (l & El & _).
  rewrite El, Hshow. cbn [Z.eqb].
  eexists. eexists. split; [reflexivity|]. cbn [log].
  split; [rewrite L0, <- app_assoc; reflexivity|].
  rewrite !marks_app, M0, marks_overview. reflexivity.
Qed.

(** X18. When the prologue of [stylize] has run, the style image has the
    size of the content image, the target has it too, and the content
    features are those of the content image under the network. *)
Theorem prologue_shapes (a : args) (w : world) :
  transform_ok -> regular (vgg w) -> valid_init a = true -> 0 <= lr a ->
  exists su s0 w0,
    prologue a w = (Ok (su, s0), w0) /\
    shape (style su) = shape (content su) /\
    shape (p_data (target s0)) = shape (content su) /\
    content_features su = get_features (content su) (vgg w) None.
Proof.
  intros Htr Hreg Hv Hlr.
  destruct (@prologue_ok ext a w Htr Hreg Hv Hlr)
    as (su & s0 & w0 & h & wd & Ep & Hsu & Hs0 & _).
  exists su, s0, w0. split; [exact Ep|].
  destruct Hsu as [Hc Hs Hf _ _ _].
  split; [congruence|]. split; [congruence | exact Hf].
Qed.

End MoreRuns.

(** ** The small instance, continued *)

Lemma toy_frozen_regular : regular (vgg Toy.world0).
Proof. apply regular_freeze, toy_net_regular. Qed.

Lemma optimizer_learning_rate_witness :
  exists su s w',
    @run_iterations Toy.ext (Toy.args0 "blank" "comparison" 3) 2 Toy.world0
    = (Ok (su, s), w') /\
    opt_lr (optimizer_v s) <= 2 # 10 /\ requires_grad (target s) = true.
Proof.
  assert (H1 : show_every (Toy.args0 "blank" "comparison" 3) <> 0%Z)
    by discriminate.
  assert (H2 : 0 <= lr (Toy.args0 "blank" "comparison" 3)) by discriminate.
  destruct (@run_iterations_succeeds Toy.ext Toy.net
              (Toy.args0 "blank" "comparison" 3) 0 [] 2
              toy_net_regular toy_transform_ok toy_adam_keeps_shape
              eq_refl H1 H2)
    as (su & s & w' & E).
  change (mkWorld (freeze Toy.net) 0 []) with Toy.world0 in E.
  destruct (@optimizer_learning_rate Toy.ext _ _ _ _ _ _ E) as (_ & Hle & Hfl).
  exists su, s, w'. split; [exact E|]. split; [|exact Hfl].
  apply Hle. discriminate.
Defined.

Lemma stylize_without_iterations_witness :
  fst (@stylize Toy.ext (Toy.args0 "clone" "image-only" 0) Toy.world0)
  = Raise (UnboundLocalError "h_x").
Proof.
  assert (H0 : (steps (Toy.args0 "clone" "image-only" 0) <= 0)%Z)
    by (vm_compute; discriminate).
  assert (H2 : 0 <= lr (Toy.args0 "clone" "image-only" 0)) by discriminate.
  destruct (@stylize_without_iterations Toy.ext
              (Toy.args0 "clone" "image-only" 0) Toy.world0
              toy_transform_ok toy_frozen_regular H2 eq_refl H0)
    as (w' & evs & E & _).
  now rewrite E.
Defined.

Lemma show_every_zero_witness :
  fst (@stylize Toy.ext
         (mkArgs "content.jpg" "style.jpg" "result.png" "clone" "image-only"
            (3 # 100) 0 2 1 (1 # 2) (75 # 10) 100 200)
         Toy.world0)
  = Raise ZeroDivisionError.
Proof.
  assert (H1 : (1 <= 2)%Z) by (vm_compute; discriminate).
  assert (H2 : 0 <= 3 # 100) by discriminate.
  destruct (@show_every_zero Toy.ext
              (mkArgs "content.jpg" "style.jpg" "result.png" "clone" "image-only"
                 (3 # 100) 0 2 1 (1 # 2) (75 # 10) 100 200)
              Toy.world0
              toy_transform_ok toy_frozen_regular eq_refl H2 H1 eq_refl)
    as (w' & evs & E & _).
  now rewrite E.
Defined.

Lemma prologue_shapes_witness :
  exists su s0 w0,
    @prologue Toy.ext (Toy.args0 "random" "comparison" 2) Toy.world0
    = (Ok (su, s0), w0) /\
    shape (style su) = shape (content su).
Proof.
  assert (H2 : 0 <= lr (Toy.args0 "random" "comparison" 2)) by discriminate.
  destruct (@prologue_shapes Toy.ext (Toy.args0 "random" "comparison" 2)
              Toy.world0 toy_transform_ok toy_frozen_regular eq_refl H2)
    as (su & s0 & w0 & E & Hs & _).
  exists su, s0, w0. split; [exact E | exact Hs].
Defined.

(** ** [im_convert] *)

Lemma length_build3 (n0 n1 n2 : nat) (f : nat -> nat -> nat -> Q) :
  length (build3 n0 n1 n2 f) = (n0 * (n1 * n2))%nat.
Proof.
  unfold build3.
  rewrite (@length_blocks _ _ (n1 * n2)%nat), length_seq; [reflexivity|].
  intro i. now rewrite length_rows, length_seq.
Qed.

Lemma nth_build3 (n0 n1 n2 : nat) (f : nat -> nat -> nat -> Q) (i j k : nat) :
  (i < n0)%nat -> (j < n1)%nat -> (k < n2)%nat ->
  nth ((i * n1 + j) * n2 + k) (build3 n0 n1 n2 f) 0 = f i j k.
Proof.
  intros Hi Hj Hk. unfold build3.
  replace ((i * n1 + j) * n2 + k)%nat with (i * (n1 * n2) + (j * n2 + k))%nat
    by lia.
  rewrite (@nth_blocks _ (n1 * n2)%nat) by
    (try (intro x; now rewrite length_rows, length_seq); try assumption; nia).
  cbn [Nat.add]. now apply nth_grid.
Qed.

Lemma map_grid (op : Q -> Q) (rows cols : nat) (f : nat -> nat -> Q) :
  map op (grid rows cols f) = grid rows cols (fun i j => op (f i j)).
Proof.
  unfold grid. rewrite map_flat_map. apply flat_map_ext. intro i.
  now rewrite map_map.
Qed.

Lemma clip_range (v : Q) : unit_range (Qmin (Qmax v 0) 1).
Proof.
  split.
  - apply Q.min_glb; [apply Q.le_max_r | discriminate].
  - apply Q.le_min_r.
Qed.


Lemma Forall_grid (P : Q -> Prop) (rows cols : nat) (f : nat -> nat -> Q) :
  (forall i j, P (f i j)) -> Forall P (grid rows cols f).
Proof.
  intro H. unfold grid. apply Forall_forall. intros v Hv.
  apply in_flat_map in Hv. destruct Hv as (i & _ & Hv).
  apply in_map_iff in Hv. destruct Hv as (j & <- & _). apply H.
Qed.

(** What [im_convert] returns for a batch of one image of three planes,
    neither of whose edges has length one. *)
Lemma im_convert_eq (T : tensor) (h w : nat) :
  shape T = [1; 3; h; w]%nat -> h <> 1%nat -> w <> 1%nat ->
  im_convert T =
  Ok (mkTensor [h; w; 3]%nat
        (grid (h * (w * 1)) 3 (fun i c =>
           Qmin (Qmax (flat T (c * (h * w) + i) * channel norm_std c
                       + channel norm_mean c) 0) 1))).
Proof.
  intros Hs Hh Hw. unfold im_convert, squeeze. rewrite Hs.
  cbn [filter Nat.eqb negb].
  apply Nat.eqb_neq in Hh, Hw. rewrite Hh, Hw. cbn [negb].
  unfold transpose120. cbn [shape rbind].
  unfold broadcast3 at 1. cbn [shape rev app Nat.eqb rbind].
  unfold broadcast3 at 1. cbn [shape rev app Nat.eqb rbind].
  unfold clip01. cbn [shape data]. do 2 f_equal.
  rewrite map_grid. apply grid_ext. intros i c Hi Hc.
  do 2 f_equal. f_equal. f_equal.
  unfold flat at 1. cbn [data]. cbn [numel fold_right] in *.
  rewrite nth_grid by assumption.
  unfold flat at 1. cbn [data].
  apply Nat.eqb_neq in Hh, Hw.
  assert (Hw0 : w <> 0%nat).
  { intros ->. rewrite Nat.mul_0_l, Nat.mul_0_r in Hi. lia. }
  pose proof (Nat.div_mod_eq i w) as Hdm.
  pose proof (Nat.mod_upper_bound i w Hw0) as Hmod.
  assert (Hdiv : (i / w < h)%nat) by (apply Nat.Div0.div_lt_upper_bound; lia).
  replace (i * 3 + c)%nat with ((i / w * w + i mod w) * 3 + c)%nat by nia.
  rewrite nth_build3 by assumption.
  unfold at3. cbn [shape]. unfold flat. cbn [data]. f_equal. f_equal. nia.
Qed.

(** The pixels of the image that [im_convert] returns. *)
Lemma im_convert_pixels (T : tensor) (h w : nat) :
  shape T = [1; 3; h; w]%nat -> h <> 1%nat -> w <> 1%nat ->
  exists image,
    im_convert T = Ok image /\ shape image = [h; w; 3]%nat /\
    forall y x c, (y < h)%nat -> (x < w)%nat -> (c < 3)%nat ->
      at3 image y x c
      = Qmin (Qmax (at4 T 0 c y x * channel norm_std c + channel norm_mean c) 0) 1.
Proof.
  intros Hs Hh Hw. eexists. split; [exact (@im_convert_eq T h w Hs Hh Hw)|].
  split; [reflexivity|].
  intros y x c Hy Hx Hc. unfold at3, flat. cbn [shape data].
  rewrite nth_grid by (try assumption; nia).
  rewrite (@at4_batch1 T 3 h w c y x Hs). reflexivity.
Qed.

(** X19. [im_convert] turns a batch of one normalised image of three
    planes, [h] by [w] with neither [h] nor [w] equal to one, into an
    [h] by [w] image of three channels: the pixel at [(y, x)] of channel
    [c] is the entry [(0, c, y, x)] of the tensor multiplied by the
    standard deviation of the channel, plus its mean, clipped to
    [0, 1]. *)
Theorem im_convert_image (T : tensor) (h w : nat) :
  shape T = [1; 3; h; w]%nat -> h <> 1%nat -> w <> 1%nat ->
  exists image,
    im_convert T = Ok image /\
    shape image = [h; w; 3]%nat /\ wf image /\
    (forall y x c, (y < h)%nat -> (x < w)%nat -> (c < 3)%nat ->
       at3 image y x c
       = Qmin (Qmax (at4 T 0 c y x * channel norm_std c + channel norm_mean c) 0) 1) /\
    Forall unit_range (data image).
Proof.
  intros Hs Hh Hw. eexists. split; [exact (@im_convert_eq T h w Hs Hh Hw)|].
  split; [reflexivity|]. split.
  { unfold wf. cbn [shape data numel fold_right]. rewrite length_grid. lia. }
  split.
  - intros y x c Hy Hx Hc. unfold at3, flat. cbn [shape data].
    rewrite nth_grid by (try assumption; nia).
    rewrite (@at4_batch1 T 3 h w c y x Hs). reflexivity.
  - cbn [data]. apply Forall_grid. intros i c. apply clip_range.
Qed.

Lemma im_convert_image_witness :
  exists image,
    im_convert (mkTensor [1; 3; 2; 2]%nat [1; 2; 3; 4; 5; 6; 7; 8; 9; 10; 11; 12])
    = Ok image /\
    shape image = [2; 2; 3]%nat /\ at3 image 0 1 2 = 1.
Proof.
  destruct (@im_convert_image
              (mkTensor [1; 3; 2; 2]%nat [1; 2; 3; 4; 5; 6; 7; 8; 9; 10; 11; 12])
              2 2 eq_refl) as (image & E & Hsh & _ & Hat & _);
    [discriminate | discriminate |].
  exists image. split; [exact E|]. split; [exact Hsh|].
  rewrite Hat by lia. vm_compute. reflexivity.
Defined.

(** X20. [im_convert] displays a batch of one image exactly when the
    image has three planes and neither of its edges has length one:
    [squeeze] drops every axis of length one, not the batch axis only,
    so that an image one pixel high or wide, or with one plane, loses an
    axis and cannot be transposed, and an image with two planes, or with
    four or more, cannot be broadcast against the three means; in all
    these cases [ValueError] is raised. *)
Theorem im_convert_accepts (T : tensor) (c h w : nat) :
  shape T = [1; c; h; w]%nat ->
  (c = 3%nat /\ h <> 1%nat /\ w <> 1%nat -> exists image, im_convert T = Ok image) /\
  (~ (c = 3%nat /\ h <> 1%nat /\ w <> 1%nat) ->
   exists msg, im_convert T = Raise (ValueError msg)).
Proof.
  intro Hs. split.
  - intros (-> & Hh & Hw). eexists. exact (@im_convert_eq T h w Hs Hh Hw).
  - intro Hno. unfold im_convert, squeeze. rewrite Hs.
    cbn [filter Nat.eqb negb].
    destruct (Nat.eqb_spec c 1) as [Hc|Hc], (Nat.eqb_spec h 1) as [Hh|Hh],
             (Nat.eqb_spec w 1) as [Hw|Hw]; cbn [negb];
      unfold transpose120; cbn [shape rbind]; try (eexists; reflexivity).
    unfold broadcast3 at 1. cbn [shape rev app].
    destruct (Nat.eqb_spec c 3) as [H3|H3]; [contradiction Hno; now repeat split|].
    apply Nat.eqb_neq in Hc. rewrite Hc. cbn [rbind]. eexists. reflexivity.
Qed.

Lemma im_convert_accepts_witness :
  exists msg,
    im_convert (mkTensor [1; 3; 1; 2]%nat [1; 2; 3; 4; 5; 6])
    = Raise (ValueError msg).
Proof.
  apply (proj2 (@im_convert_accepts (mkTensor [1; 3; 1; 2]%nat [1; 2; 3; 4; 5; 6])
                  3 1 2 eq_refl)).
  intros (_ & H & _). now apply H.
Defined.




(** ** The reverse normalisation of the export *)

Lemma nth_map_in (f : Q -> Q) (l : list Q) (r : nat) :
  (r < length l)%nat -> nth r (map f l) 0 = f (nth r l 0).
Proof.
  intro H. rewrite (nth_indep (map f l) 0 (f 0)) by (now rewrite length_map).
  apply map_nth.
Qed.

(** Entry [r] of the plane that replaces plane [c]. *)
Lemma nth_plane (f : Q -> Q) (D : list Q) (n c r : nat) :
  ((c + 1) * n <= length D)%nat -> (r < n)%nat ->
  nth r (map f (firstn n (skipn (c * n) D))) 0 = f (nth (c * n + r) D 0).
Proof.
  intros HD Hr.
  rewrite nth_map_in by (rewrite length_firstn, length_skipn; lia).
  rewrite nth_firstn, nth_skipn.
  now replace (r <? n)%nat with true by (symmetry; apply Nat.ltb_lt; lia).
Qed.

Lemma length_plane (f : Q -> Q) (D : list Q) (n c : nat) :
  ((c + 1) * n <= length D)%nat ->
  length (map f (firstn n (skipn (c * n) D))) = n.
Proof. intro HD. rewrite length_map, length_firstn, length_skipn. lia. Qed.

(** An entry of plane [c] after the assignment to plane [c], and an entry
    of an earlier plane. *)
Lemma nth_set_plane_same (U v : list Q) (n c r : nat) :
  (c * n <= length U)%nat -> (r < length v)%nat ->
  nth (c * n + r) (firstn (c * n) U ++ v ++ skipn ((c + 1) * n) U) 0 = nth r v 0.
Proof.
  intros HU Hr.
  rewrite app_nth2 by (rewrite length_firstn; lia).
  rewrite length_firstn.
  replace (c * n + r - Nat.min (c * n) (length U))%nat with r by lia.
  now apply app_nth1.
Qed.

Lemma nth_set_plane_before (U v : list Q) (n c k : nat) :
  (c * n <= length U)%nat -> (k < c * n)%nat ->
  nth k (firstn (c * n) U ++ v ++ skipn ((c + 1) * n) U) 0 = nth k U 0.
Proof.
  intros HU Hk.
  rewrite app_nth1 by (rewrite length_firstn; lia).
  rewrite nth_firstn.
  now replace (k <? c * n)%nat with true by (symmetry; apply Nat.ltb_lt; lia).
Qed.

Section Unnormalize.

Context {ext : Externals}.

(** What the export computes for the three planes, whatever the storage
    that [target.new] returns holds. *)
Lemma unnormalize_entries (T : tensor) (h w : nat) :
  uninitialized_ok -> shape T = [3; h; w]%nat -> wf T ->
  exists out,
    unnormalize T = Ok out /\ shape out = [3; h; w]%nat /\
    forall c r, (c < 3)%nat -> (r < h * w)%nat ->
      flat out (c * (h * w) + r)
      = Qmin (Qmax (flat T (c * (h * w) + r) * channel norm_std c
                    + channel norm_mean c) 0) 1.
Proof.
  intros Hu Hs Hwf. unfold wf in Hwf. rewrite Hs in Hwf.
  cbn [numel fold_right] in Hwf.
  unfold unnormalize, plane, set_plane.
  rewrite Hs. specialize (Hu [3; h; w]%nat).
  destruct (uninitialized [3; h; w]%nat) as [ush U]. cbn [shape] in Hu.
  subst ush. cbn [shape data Nat.ltb Nat.leb rbind].
  eexists. split; [reflexivity|]. split; [reflexivity|].
  intros c r Hc Hr. unfold clamp01, flat. cbn [shape data].
  set (n := (h * w)%nat) in *.
  set (v0 := map (fun v : Q => v * (229 # 1000) + (485 # 1000))
               (firstn n (skipn (0 * n) (data T)))).
  set (v1 := map (fun v : Q => v * (224 # 1000) + (456 # 1000))
               (firstn n (skipn (1 * n) (data T)))).
  set (v2 := map (fun v : Q => v * (225 # 1000) + (406 # 1000))
               (firstn n (skipn (2 * n) (data T)))).
  assert (L0 : length v0 = n) by (apply length_plane; lia).
  assert (L1 : length v1 = n) by (apply length_plane; lia).
  assert (L2 : length v2 = n) by (apply length_plane; lia).
  set (U1 := firstn (0 * n) U ++ v0 ++ skipn ((0 + 1) * n) U).
  set (U2 := firstn (1 * n) U1 ++ v1 ++ skipn ((1 + 1) * n) U1).
  set (U3 := firstn (2 * n) U2 ++ v2 ++ skipn ((2 + 1) * n) U2).
  assert (LU1 : (n <= length U1)%nat).
  { unfold U1. rewrite !length_app, L0. lia. }
  assert (LU2 : (2 * n <= length U2)%nat).
  { unfold U2. rewrite !length_app, length_firstn, L1. lia. }
  assert (LU3 : (3 * n <= length U3)%nat).
  { unfold U3. rewrite !length_app, length_firstn, L2. lia. }
  destruct c as [|[|[|c]]]; [| | |lia];
    (rewrite nth_map_in by lia); do 2 f_equal.
  - unfold U3. rewrite nth_set_plane_before by lia.
    unfold U2. rewrite nth_set_plane_before by lia.
    unfold U1. rewrite (@nth_set_plane_same U v0 n 0 r) by lia.
    unfold v0. rewrite nth_plane by lia. reflexivity.
  - unfold U3. rewrite nth_set_plane_before by lia.
    unfold U2. rewrite (@nth_set_plane_same U1 v1 n 1 r) by lia.
    unfold v1. rewrite nth_plane by lia. reflexivity.
  - unfold U3. rewrite (@nth_set_plane_same U2 v2 n 2 r) by lia.
    unfold v2. rewrite nth_plane by lia. reflexivity.
Qed.

(** X22. The image that the export saves for a clone is the one that
    [im_convert] displays, with the channels first: each entry of the
    three planes is multiplied by the standard deviation of its channel,
    increased by its mean and clamped to [0, 1], whatever the storage
    that [target.new] returned held. *)
Theorem unnormalize_matches_im_convert (T : tensor) (h w : nat) :
  uninitialized_ok -> shape T = [3; h; w]%nat -> wf T ->
  h <> 1%nat -> w <> 1%nat ->
  exists out image,
    unnormalize T = Ok out /\ im_convert (unsqueeze0 T) = Ok image /\
    shape out = [3; h; w]%nat /\ shape image = [h; w; 3]%nat /\
    forall c y x, (c < 3)%nat -> (y < h)%nat -> (x < w)%nat ->
      at3 out c y x
      = Qmin (Qmax (at3 T c y x * channel norm_std c + channel norm_mean c) 0) 1 /\
      at3 out c y x = at3 image y x c.
Proof.
  intros Hu Hs Hwf Hh Hw.
  destruct (@unnormalize_entries T h w Hu Hs Hwf) as (out & Eo & So & Ho).
  assert (Hs4 : shape (unsqueeze0 T) = [1; 3; h; w]%nat)
    by (unfold unsqueeze0; cbn [shape]; now rewrite Hs).
  destruct (@im_convert_pixels (unsqueeze0 T) h w Hs4 Hh Hw)
    as (image & Ei & Si & Hi).
  exists out, image. split; [exact Eo|]. split; [exact Ei|].
  split; [exact So|]. split; [exact Si|].
  intros c y x Hc Hy Hx.
  assert (E : at3 out c y x
              = Qmin (Qmax (at3 T c y x * channel norm_std c
                            + channel norm_mean c) 0) 1).
  { unfold at3. rewrite So, Hs.
    replace ((c * h + y) * w + x)%nat with (c * (h * w) + (y * w + x))%nat by lia.
    apply Ho; [exact Hc | nia]. }
  split; [exact E|]. rewrite E, (Hi y x c Hy Hx Hc).
  rewrite (@at4_batch1 (unsqueeze0 T) 3 h w c y x Hs4).
  unfold at3, flat. rewrite Hs. cbn [unsqueeze0 data].
  replace ((c * h + y) * w + x)%nat with (c * (h * w) + (y * w + x))%nat by lia.
  reflexivity.
Qed.

End Unnormalize.

Lemma unnormalize_matches_im_convert_witness :
  exists out image,
    @unnormalize Toy.ext (mkTensor [3; 2; 2]%nat (Toy.ramp 0 12)) = Ok out /\
    im_convert (mkTensor [1; 3; 2; 2]%nat (Toy.ramp 0 12)) = Ok image /\
    at3 out 2 1 0 = at3 image 1 0 2.
Proof.
  destruct (@unnormalize_matches_im_convert Toy.ext
              (mkTensor [3; 2; 2]%nat (Toy.ramp 0 12)) 2 2
              toy_uninitialized_ok eq_refl eq_refl)
    as (out & image & Eo & Ei & _ & _ & H); [discriminate | discriminate |].
  exists out, image. split; [exact Eo|]. split; [exact Ei|].
  apply H; lia.
Defined.

(** ** [upload_files] *)

Lemma append_injective (p a b : string) : (p ++ a = p ++ b)%string -> a = b.
Proof.
  induction p as [|ch p IH]; cbn; [trivial|]. intro H. injection H as H.
  now apply IH.
Qed.

Lemma upload_files_other (uploaded : dict string) (path : string) :
  (forall name, In name (keys uploaded) -> path <> ("/tmp/" ++ name)%string) ->
  forall fs, dict_get (upload_files uploaded fs) path = dict_get fs path.
Proof.
  unfold upload_files.
  induction uploaded as [|[name data] rest IH]; intros H fs; [reflexivity|].
  cbn [fold_left fst snd]. rewrite IH by (intros n Hn; apply H; now right).
  unfold write_file. rewrite dict_get_set.
  destruct (String.eqb_spec path ("/tmp/" ++ name)) as [E|_]; [|reflexivity].
  exfalso. apply (H name); [now left | exact E].
Qed.

(** X23. [upload_files] stores every uploaded file under [/tmp/] and its
    name, replacing what was there, and touches no other file.  (The
    names are distinct, as the keys of the dictionary that
    [files.upload] returns are.) *)
Theorem upload_files_stores (uploaded fs : dict string) :
  NoDup (keys uploaded) ->
  (forall name data,
     In (name, data) uploaded ->
     dict_get (upload_files uploaded fs) ("/tmp/" ++ name) = Some data) /\
  (forall path,
     (forall name, In name (keys uploaded) -> path <> ("/tmp/" ++ name)%string) ->
     dict_get (upload_files uploaded fs) path = dict_get fs path).
Proof.
  intro Hnd. split; [|intros path H; now apply upload_files_other].
  revert fs. induction uploaded as [|[n0 d0] rest IH]; intros fs name data Hin;
    [destruct Hin|].
  inversion Hnd as [|n ns Hfresh Hnd']; subst.
  unfold upload_files in *. cbn [fold_left fst snd].
  destruct Hin as [E|Hin].
  - injection E as -> ->.
    change (fold_left
              (fun fs0 item => write_file fs0 ("/tmp/" ++ fst item) (snd item))
              rest (write_file fs ("/tmp/" ++ name) data))
      with (upload_files rest (write_file fs ("/tmp/" ++ name) data)).
    rewrite upload_files_other.
    + unfold write_file. now rewrite dict_get_set, String.eqb_refl.
    + intros m Hm E. apply append_injective in E. subst m. now apply Hfresh.
  - now apply IH.
Qed.

Lemma upload_files_stores_witness :
  dict_get (upload_files [("a.jpg"%string, "new"%string); ("b.jpg"%string, "bee"%string)]
              [("/tmp/a.jpg"%string, "old"%string); ("/home/c.txt"%string, "sea"%string)])
    "/tmp/a.jpg" = Some "new"%string /\
  dict_get (upload_files [("a.jpg"%string, "new"%string); ("b.jpg"%string, "bee"%string)]
              [("/tmp/a.jpg"%string, "old"%string); ("/home/c.txt"%string, "sea"%string)])
    "/home/c.txt" = Some "sea"%string.
Proof.
  assert (Hnd : NoDup (keys [("a.jpg"%string, "new"%string);
                             ("b.jpg"%string, "bee"%string)])).
  { repeat constructor; cbn; intuition discriminate. }
  destruct (@upload_files_stores
              [("a.jpg"%string, "new"%string); ("b.jpg"%string, "bee"%string)]
              [("/tmp/a.jpg"%string, "old"%string); ("/home/c.txt"%string, "sea"%string)]
              Hnd) as [Hin Hout].
  split.
  - apply (Hin "a.jpg"%string "new"%string). now left.
  - rewrite Hout; [reflexivity|].
    intros name [<-|[<-|[]]]; discriminate.
Defined.

(** ** A learning rate that [Adam] refuses *)

Section Refused.

Context {ext : Externals}.

(** X24. With a negative learning rate [stylize] loads the two images
    and defines the target, and then [optim.Adam] raises [ValueError]:
    no feature is extracted, no iteration runs and nothing is
    exported. *)
Theorem negative_learning_rate (a : args) (w : world) :
  transform_ok -> valid_init a = true -> lr a < 0 ->
  exists w' evs,
    stylize a w = (Raise (ValueError "Invalid learning rate"), w') /\
    log w' = log w ++ evs /\ marks evs = [].
Proof.
  intros Htr Hv Hlr. unfold stylize, prologue.
  destruct (@load_image_edge ext (content_path a) 400 w Htr)
    as (cimg & h & wd & E1 & Sc & Hh & Hw).
  unfold bind at 1. unfold bind at 1. rewrite E1.
  destruct (@load_image_exact ext (style_path a) 400
              (logged w [ELoadImage (content_path a)]) h wd Htr Hh Hw)
    as (simg & E2 & Ss).
  unfold bind at 1. rewrite Sc. cbn [last2 length Nat.sub skipn]. rewrite E2.
  unfold bind at 1. unfold print at 1. rewrite emit_run.
  unfold bind at 1.
  match goal with |- context [init_target a cimg ?w1] =>
    destruct (@init_target_ok ext a cimg w1 Hv) as (p & w2 & E3 & _ & _ & L2)
  end.
  rewrite E3.
  unfold bind at 1. unfold print at 1. rewrite emit_run.
  unfold bind at 1. unfold lift at 1.
  assert (Hneg : Qle_bool 0 (if str_eq (target_init a) "clone" then lr a
                             else Qmin (lr a * 10) (2 # 10)) = false).
  { apply not_true_is_false. intro H. apply Qle_bool_iff in H.
    destruct (str_eq (target_init a) "clone").
    - now apply (Qlt_not_le _ _ Hlr).
    - apply (Qlt_not_le (lr a * 10) 0).
      + setoid_replace 0 with (0 * 10) by ring.
        apply Qmult_lt_compat_r; [reflexivity | exact Hlr].
      + eapply Qle_trans; [exact H | apply Q.le_min_l]. }
  unfold Adam. rewrite Hneg.
  eexists. eexists. split; [reflexivity|]. cbn [log logged]. rewrite L2.
  cbn [log logged].
  split; [repeat rewrite <- app_assoc; reflexivity | reflexivity].
Qed.

End Refused.

Lemma negative_learning_rate_witness :
  fst (@stylize Toy.ext
         (mkArgs "content.jpg" "style.jpg" "result.png" "blank" "image-only"
            (- (1 # 100)) 500 2 1 (1 # 2) (75 # 10) 100 200)
         Toy.world0)
  = Raise (ValueError "Invalid learning rate").
Proof.
  destruct (@negative_learning_rate Toy.ext
              (mkArgs "content.jpg" "style.jpg" "result.png" "blank" "image-only"
                 (- (1 # 100)) 500 2 1 (1 # 2) (75 # 10) 100 200)
              Toy.world0 toy_transform_ok eq_refl eq_refl)
    as (w' & evs & E & _).
  rewrite E. reflexivity.
Defined.
